(** * Cross-image instance matching: geometry helpers, foreground pooling,
      greedy box suppression and the per-image matching pipeline.

    Shallow embedding of [ean_system/sam2_segmenter.py] ([mask_to_bbox],
    [bbox_iou]), [ean_system/dinov2_embedder.py] (foreground feature
    averaging) and [matcher.py] ([InstanceMatcher]).

    Numbers.  Python [int]s are [Z]; indices and lengths are [nat].  Python
    and torch floats are idealised as exact numbers: rationals in lowest
    terms ([Q] under [Qred]) where the code only divides integers and
    compares (box overlap, mask coverage), reals ([R]) where a square root
    is taken (descriptors and their similarities).  Rounding, infinities and
    NaN are outside the model.

    Effects.  A Python call either returns or raises, and may print; the
    [py] monad below carries the printed lines and the outcome.

    Providers.  The mask generator, the embedding model and torch's
    resampling are parameters of the sections below.  In the matcher the
    call of [generate_proposals] is given by the list it returns and the
    number of raw masks it reports, and it prints its line; the function
    itself is embedded in [Segmenter]. *)

From Stdlib Require Import ZArith QArith Qreduction Reals Lra Lia List Bool String Sorted.
From stdpp Require Import gmap.
Import ListNotations.

(** ** Python outcomes and printed diagnostics *)

Inductive exn : Type :=
| IndexError
| ZeroDivisionError
| ValueError
| RuntimeError.

(** The lines the code prints, with the values formatted into them. *)
Inductive message : Type :=
| MsgNoForeground
    (* "[DINOv2] Warning: No foreground patches found, using full image" *)
| MsgGenerated (n_proposals n_raw : nat)
    (* "[SAM2Auto] Generated {..} proposals (filtered from {..} raw masks)" *)
| MsgNoProposals (image_path : string)
    (* "[Matcher] No proposals generated for {image_path}" *)
| MsgCounts (image_path : string) (n_proposals n_candidates n_matches : nat)
    (* "[Matcher] {path}: {..} proposals -> {..} above threshold -> {..} after NMS" *)
| MsgProcessing (i n : nat) (path : string)
    (* "[Matcher] Processing image {i+1}/{n}: {path}" *)
| MsgSummary (matched total : nat).
    (* "[Matcher] Summary: Found product in {matched}/{total} images" *)

Inductive outcome (A : Type) : Type :=
| Return (a : A)
| Raise (e : exn).
Arguments Return {A} a.
Arguments Raise {A} e.

Definition py (A : Type) : Type := (list message * outcome A)%type.

Definition ret {A} (a : A) : py A := ([], Return a).
Definition raise {A} (e : exn) : py A := ([], Raise e).
Definition print (m : message) : py unit := ([m], Return tt).

Definition bind {A B} (m : py A) (k : A -> py B) : py B :=
  match m with
  | (l1, Return a) => let '(l2, r) := k a in (l1 ++ l2, r)
  | (l1, Raise e) => (l1, Raise e)
  end.

Declare Scope py_scope.
Delimit Scope py_scope with py.
Notation "'let*' x := m 'in' k" := (bind m (fun x => k))
  (at level 20, x pattern, m at level 100, k at level 200) : py_scope.
Notation "'do' m 'then' k" := (bind m (fun _ => k))
  (at level 20, m at level 100, k at level 200) : py_scope.
Local Open Scope py_scope.

(** [for x in xs: state = body(state, x)] *)
Fixpoint for_each {A S} (body : S -> A -> py S) (xs : list A) (s : S) : py S :=
  match xs with
  | [] => ret s
  | x :: xs' => let* s' := body s x in for_each body xs' s'
  end.

(** [[f(x) for x in xs]] with the calls made left to right. *)
Fixpoint map_py {A B} (f : A -> py B) (xs : list A) : py (list B) :=
  match xs with
  | [] => ret []
  | x :: xs' => let* y := f x in let* ys := map_py f xs' in ret (y :: ys)
  end.

(** [xs[i]] for a non-negative index. *)
Definition index {A} (xs : list A) (i : nat) : py A :=
  match xs !! i with
  | Some x => ret x
  | None => raise IndexError
  end.

Definition returns {A} (m : py A) (a : A) : Prop := snd m = Return a.
Definition raises {A} (m : py A) : Prop := exists e, snd m = Raise e.

(** ** Geometry helpers ([sam2_segmenter.py]) *)

Module Geometry.

(** A boolean (H, W) array: [mask_at r c] is read for [r < mask_h],
    [c < mask_w] only. *)
Record Mask : Type := {
  mask_h : nat;
  mask_w : nat;
  mask_at : nat -> nat -> bool
}.

(** The array written as a list of rows (the width is that of the first row). *)
Definition mask_of_rows (rows : list (list bool)) : Mask :=
  {| mask_h := length rows;
     mask_w := length (hd [] rows);
     mask_at := fun r c => nth c (nth r rows []) false |}.

(** [np.array([x1, y1, x2, y2])], integer pixel coordinates (far below the
    range where 64-bit products could wrap). *)
Record Box : Type := { bx1 : Z; by1 : Z; bx2 : Z; by2 : Z }.

Definition np_any_axis1 (m : Mask) : list bool :=
  map (fun r => existsb (fun c => mask_at m r c) (seq 0 (mask_w m))) (seq 0 (mask_h m)).

Definition np_any_axis0 (m : Mask) : list bool :=
  map (fun c => existsb (fun r => mask_at m r c) (seq 0 (mask_h m))) (seq 0 (mask_w m)).

(** [v.any()] *)
Definition np_any (v : list bool) : bool := existsb (fun b => b) v.

(** [np.where(v)[0]]: the indices of the true entries, ascending. *)
Definition np_where (v : list bool) : list nat :=
  map fst (List.filter (fun p => snd p) (combine (seq 0 (length v)) v)).

(** [a[[0, -1]]]: first and last entry; indexing an empty array raises. *)
Definition first_last (a : list nat) : py (nat * nat) :=
  match a with
  | [] => raise IndexError
  | x :: _ => ret (x, List.last a x)
  end.

Definition mask_to_bbox (mask : Mask) : py Box :=
  let rows := np_any_axis1 mask in
  let cols := np_any_axis0 mask in
  if negb (np_any rows) then
    ret {| bx1 := 0; by1 := 0; bx2 := 0; by2 := 0 |}
  else
    let* (y1, y2) := first_last (np_where rows) in
    let* (x1, x2) := first_last (np_where cols) in
    ret {| bx1 := Z.of_nat x1; by1 := Z.of_nat y1;
           bx2 := Z.of_nat x2 + 1; by2 := Z.of_nat y2 + 1 |}.

(** [a / b] on integers: the quotient as a float, an error when [b] is 0. *)
Definition truediv (a b : Z) : py Q :=
  if (b =? 0)%Z then raise ZeroDivisionError
  else ret (Qred (inject_Z a / inject_Z b)).

Definition bbox_iou (box1 box2 : Box) : py Q :=
  let x1 := Z.max (bx1 box1) (bx1 box2) in
  let y1 := Z.max (by1 box1) (by1 box2) in
  let x2 := Z.min (bx2 box1) (bx2 box2) in
  let y2 := Z.min (by2 box1) (by2 box2) in
  let intersection := (Z.max 0 (x2 - x1) * Z.max 0 (y2 - y1))%Z in
  let area1 := ((bx2 box1 - bx1 box1) * (by2 box1 - by1 box1))%Z in
  let area2 := ((bx2 box2 - bx1 box2) * (by2 box2 - by1 box2))%Z in
  let union := (area1 + area2 - intersection)%Z in
  if (0 <? union)%Z then truediv intersection union else ret 0%Q.

End Geometry.

(** ** Foreground feature averaging ([dinov2_embedder.py]) *)

Module Embedder.
Import Geometry.

Definition vec : Type := list R.

(** [patches_spatial[0]], shape (grid_h, grid_w, dim): the patch vectors in
    row-major order.  The grids the model emits have at least two rows and
    two columns, so [.squeeze()] on the resampled mask only drops the batch
    and channel axes. *)
Record PatchGrid : Type := {
  grid_h : nat;
  grid_w : nat;
  patches : list vec
}.

(** The default [eps] of [torch.nn.functional.normalize]. *)
Definition normalize_eps : R := (1 / 1000000000000)%R.

Definition Qltb (a b : Q) : bool := negb (Qle_bool b a).

(** [mask_resized > 0.5] *)
Definition binarize (mask_resized : list Q) : list bool :=
  map (fun c => Qltb (1 # 2) c) mask_resized.

(** [patch_mask.sum()] *)
Definition mask_sum (patch_mask : list bool) : nat :=
  length (List.filter (fun b => b) patch_mask).

(** [torch.ones(grid_h, grid_w, dtype=torch.bool)] *)
Definition torch_ones (h w : nat) : list bool := repeat true (h * w).

(** [patches_spatial[0][patch_mask]]: the vectors at the true cells, in order. *)
Definition boolean_index (ps : list vec) (patch_mask : list bool) : list vec :=
  map snd (List.filter (fun p => fst p) (combine patch_mask ps)).

Definition vadd (a b : vec) : vec := map (fun p => (fst p + snd p)%R) (combine a b).

(** [t.mean(dim=0)] of a stack of equally long vectors.  The code never
    reaches it with an empty stack of a non-empty grid. *)
Definition mean_dim0 (vs : list vec) : vec :=
  match vs with
  | [] => []
  | v :: rest =>
      map (fun s => (s / INR (length vs))%R) (fold_left vadd rest v)
  end.

Definition sum_sq (v : vec) : R := fold_right (fun x acc => (x * x + acc)%R) 0%R v.

Definition norm2 (v : vec) : R := sqrt (sum_sq v).

(** [F.normalize(v, p=2, dim=0)]: [v / max(||v||, eps)]. *)
Definition F_normalize (v : vec) : vec :=
  map (fun x => (x / Rmax (norm2 v) normalize_eps)%R) v.

(** [np.dot(a, b)] of two 1-D arrays; unequal lengths raise. *)
Definition np_dot (a b : vec) : py R :=
  if (length a =? length b)%nat
  then ret (fold_right Rplus 0%R (map (fun p => (fst p * snd p)%R) (combine a b)))
  else raise ValueError.

Definition cosine_similarity (emb1 emb2 : vec) : py R := np_dot emb1 emb2.

(** [config.DINOV2_EMBEDDING_DIM], the [self.embedding_dim] of the embedder. *)
Definition DINOV2_EMBEDDING_DIM : nat := 1024.

(** [candidates @ reference] for an (N, D) array given by its rows: one dot
    product per row, in row order, and [ValueError] when D is not the length
    of [reference].  The empty list is the array
    [np.zeros((0, self.embedding_dim))], the only array without rows that
    [compute_batch_ffa_embeddings] returns. *)
Definition batch_cosine_similarity (reference : vec) (candidates : list vec)
  : py (list R) :=
  match candidates with
  | [] =>
      if (DINOV2_EMBEDDING_DIM =? length reference)%nat then ret []
      else raise ValueError
  | _ => map_py (fun c => np_dot c reference) candidates
  end.

Section Pooling.
Context {Image : Type}.

(** The embedding model: [_preprocess_image], [_get_patch_embeddings] and
    the reshape to the spatial grid. *)
Variable patch_embeddings : Image -> PatchGrid.

(** [F.interpolate(mask, size=(h, w), mode='bilinear',
    align_corners=False).squeeze()], row-major; [None] when torch rejects
    the mask (an array with an empty axis, for one). *)
Variable interpolate : Mask -> nat -> nat -> option (list Q).

Definition F_interpolate (mask : Mask) (h w : nat) : py (list Q) :=
  match interpolate mask h w with
  | Some t => ret t
  | None => raise RuntimeError
  end.

(** Called with [return_patch_info] left at [False]. *)
Definition compute_ffa_embedding (image : Image) (mask : Mask) : py vec :=
  let grid := patch_embeddings image in
  let* mask_resized := F_interpolate mask (grid_h grid) (grid_w grid) in
  let patch_mask := binarize mask_resized in
  let* patch_mask :=
    (if (mask_sum patch_mask =? 0)%nat then
       do print MsgNoForeground then
       ret (torch_ones (grid_h grid) (grid_w grid))
     else ret patch_mask) in
  let fg_patches := boolean_index (patches grid) patch_mask in
  let embedding := mean_dim0 fg_patches in
  let embedding := F_normalize embedding in
  ret embedding.

(** The body of the loop of [compute_batch_ffa_embeddings], one mask. *)
Definition pool_one (grid : PatchGrid) (mask : Mask) : py vec :=
  let* mask_resized := F_interpolate mask (grid_h grid) (grid_w grid) in
  let patch_mask := binarize mask_resized in
  let patch_mask :=
    if (mask_sum patch_mask =? 0)%nat
    then torch_ones (grid_h grid) (grid_w grid)
    else patch_mask in
  let fg_patches := boolean_index (patches grid) patch_mask in
  let emb := mean_dim0 fg_patches in
  let emb := F_normalize emb in
  ret emb.

Definition compute_batch_ffa_embeddings (image : Image) (masks : list Mask)
  : py (list vec) :=
  match masks with
  | [] => ret []
  | _ =>
      let grid := patch_embeddings image in
      map_py (pool_one grid) masks
  end.

End Pooling.

End Embedder.

(** ** Matching configuration ([config.py]) *)

Record Config : Type := {
  SIMILARITY_THRESHOLD : R;
  TOP_K_MATCHES : Z;
  NMS_IOU_THRESHOLD : Q
}.

(** The module's values when no [PS_*] environment variable overrides them. *)
Definition default_config : Config :=
  {| SIMILARITY_THRESHOLD := (65 / 100)%R;
     TOP_K_MATCHES := 3;
     NMS_IOU_THRESHOLD := 1 # 2 |}.

(** ** The instance matcher ([matcher.py]) *)

Module Matcher.
Import Geometry Embedder.

(** A proposal dict of the mask generator; the keys the matcher reads. *)
Record Proposal : Type := {
  p_segmentation : Mask;
  p_predicted_iou : R;
  p_area : Z
}.

Record MatchResult : Type := {
  mask : Mask;
  bbox : Box;
  similarity : R;
  predicted_iou : R;
  area : Z;
  embedding : vec
}.

Record ImageMatchResults {Image : Type} : Type := {
  image_path : string;
  image : Image;
  matches : list MatchResult
}.
Arguments ImageMatchResults Image : clear implicits.

Definition best_match {Image} (r : ImageMatchResults Image) : option MatchResult :=
  match matches r with
  | m :: _ => Some m
  | [] => None
  end.

Definition has_match {Image} (r : ImageMatchResults Image) : bool :=
  (0 <? length (matches r))%nat.

(** The configuration fields of an [InstanceMatcher] object. *)
Record InstanceMatcher : Type := {
  similarity_threshold : R;
  top_k : Z;
  nms_iou_threshold : Q
}.

(** [x or d]: [d] when [x] is [None] or a zero number. *)
Definition or_float (x : option R) (d : R) : R :=
  match x with
  | Some v => if Req_dec_T v 0 then d else v
  | None => d
  end.

Definition or_int (x : option Z) (d : Z) : Z :=
  match x with
  | Some v => if (v =? 0)%Z then d else v
  | None => d
  end.

Definition or_ratio (x : option Q) (d : Q) : Q :=
  match x with
  | Some v => if Qeq_bool v 0 then d else v
  | None => d
  end.

Definition InstanceMatcher_init (config : Config)
    (similarity_threshold : option R) (top_k : option Z)
    (nms_iou_threshold : option Q) : InstanceMatcher :=
  {| similarity_threshold := or_float similarity_threshold (SIMILARITY_THRESHOLD config);
     top_k := or_int top_k (TOP_K_MATCHES config);
     nms_iou_threshold := or_ratio nms_iou_threshold (NMS_IOU_THRESHOLD config) |}.

(** [a >= b] on floats. *)
Definition Rgeb (a b : R) : bool := if Rle_dec b a then true else false.
(** [a < b] on floats. *)
Definition Rltb (a b : R) : bool := if Rlt_dec a b then true else false.

(** [enumerate(xs)] *)
Definition enumerate {A} (xs : list A) : list (nat * A) :=
  combine (seq 0 (length xs)) xs.

(** [range(a, b)] *)
Definition range (a b : nat) : list nat := seq a (b - a).

(** [xs[:k]]: a negative stop counts from the end. *)
Definition slice_stop {A} (xs : list A) (k : Z) : list A :=
  if (k <? 0)%Z
  then firstn (Z.to_nat (Z.max 0 (Z.of_nat (length xs) + k))) xs
  else firstn (Z.to_nat k) xs.

(** [xs.sort(key=lambda x: x.similarity, reverse=True)]: descending and
    stable, entries of equal similarity keep their order. *)
Fixpoint insert_desc (x : MatchResult) (sorted : list MatchResult) : list MatchResult :=
  match sorted with
  | [] => [x]
  | y :: rest =>
      if Rltb (similarity x) (similarity y)
      then y :: insert_desc x rest
      else x :: y :: rest
  end.

Definition sort_desc (xs : list MatchResult) : list MatchResult :=
  fold_right insert_desc [] xs.

(** The inner loop of [_nms], one [j]. *)
Definition nms_inner (self : InstanceMatcher) (candidates : list MatchResult)
    (cand : MatchResult) (suppressed : gset nat) (j : nat) : py (gset nat) :=
  if bool_decide (j ∈ suppressed) then ret suppressed
  else
    let* cand_j := index candidates j in
    let* iou := bbox_iou (bbox cand) (bbox cand_j) in
    if Qltb (nms_iou_threshold self) iou
    then ret ({[ j ]} ∪ suppressed)
    else ret suppressed.

(** The outer loop of [_nms], one [(i, cand)]. *)
Definition nms_outer (self : InstanceMatcher) (candidates : list MatchResult)
    (st : list MatchResult * gset nat) (ic : nat * MatchResult)
  : py (list MatchResult * gset nat) :=
  let (kept, suppressed) := st in
  let (i, cand) := ic in
  if bool_decide (i ∈ suppressed) then ret (kept, suppressed)
  else
    let kept := kept ++ [cand] in
    let* suppressed :=
      for_each (nms_inner self candidates cand)
               (range (i + 1) (length candidates)) suppressed in
    ret (kept, suppressed).

Definition _nms (self : InstanceMatcher) (candidates : list MatchResult)
  : py (list MatchResult) :=
  match candidates with
  | [] => ret []
  | _ =>
      let* (kept, _) :=
        for_each (nms_outer self candidates) (enumerate candidates) ([], ∅) in
      ret kept
  end.

(** Step 4 of [match_in_image], one [(i, (sim, proposal))]. *)
Definition collect_candidate (self : InstanceMatcher) (proposal_embeddings : list vec)
    (candidates : list MatchResult) (item : nat * (R * Proposal))
  : py (list MatchResult) :=
  let '(i, (sim, proposal)) := item in
  if Rgeb sim (similarity_threshold self) then
    let mask := p_segmentation proposal in
    let* bbox := mask_to_bbox mask in
    let* emb := index proposal_embeddings i in
    ret (candidates ++ [ {| mask := mask; bbox := bbox; similarity := sim;
                            predicted_iou := p_predicted_iou proposal;
                            area := p_area proposal; embedding := emb |} ])
  else ret candidates.

Section Matching.
Context {Image : Type}.

(** [self.auto_segmenter.generate_proposals]: the proposals of an image,
    already filtered by area and ordered by the generator's own score. *)
Variable generate_proposals : Image -> list Proposal.
(** [len(raw_masks)] in the same call: the number of masks the generator
    gave before the area filter, which the call reports in its line. *)
Variable n_raw_masks : Image -> nat.
(** The embedding model and torch's resampling behind [self.embedder]. *)
Variable patch_embeddings : Image -> PatchGrid.
Variable interpolate : Mask -> nat -> nat -> option (list Q).

(** [self.auto_segmenter.generate_proposals(image)]: the call prints its
    line and returns the proposals. *)
Definition auto_segmenter_generate_proposals (image : Image)
  : py (list Proposal) :=
  let proposals := generate_proposals image in
  do print (MsgGenerated (length proposals) (n_raw_masks image)) then
  ret proposals.

Definition match_in_image (self : InstanceMatcher) (target_image : Image)
    (reference_embedding : vec) (image_path : string)
  : py (ImageMatchResults Image) :=
  let results :=
    {| image_path := image_path; image := target_image; matches := [] |} in
  let* proposals := auto_segmenter_generate_proposals target_image in
  match proposals with
  | [] => do print (MsgNoProposals image_path) then ret results
  | _ =>
      let proposal_masks := map p_segmentation proposals in
      let* proposal_embeddings :=
        compute_batch_ffa_embeddings patch_embeddings interpolate
          target_image proposal_masks in
      let* similarities :=
        batch_cosine_similarity reference_embedding proposal_embeddings in
      let* candidates :=
        for_each (collect_candidate self proposal_embeddings)
                 (enumerate (combine similarities proposals)) [] in
      let candidates := sort_desc candidates in
      let* kept := _nms self candidates in
      let results :=
        {| image_path := image_path; image := target_image;
           matches := slice_stop kept (top_k self) |} in
      do print (MsgCounts image_path (length proposals) (length candidates)
                          (length (matches results))) then
      ret results
  end.

(** The body of the loop of [match_across_images], one [(i, (path, image))]. *)
Definition process_image (self : InstanceMatcher) (n_images : nat)
    (reference_embedding : vec) (all_results : list (ImageMatchResults Image))
    (item : nat * (string * Image)) : py (list (ImageMatchResults Image)) :=
  let '(i, (path, image)) := item in
  do print (MsgProcessing (i + 1) n_images path) then
  let* result := match_in_image self image reference_embedding path in
  ret (all_results ++ [result]).

Definition match_across_images (self : InstanceMatcher)
    (target_images : list (string * Image)) (reference_embedding : vec)
  : py (list (ImageMatchResults Image)) :=
  let* all_results :=
    for_each (process_image self (length target_images) reference_embedding)
             (enumerate target_images) [] in
  let matched := length (List.filter has_match all_results) in
  do print (MsgSummary matched (length all_results)) then
  ret all_results.

End Matching.

End Matcher.

(** * Specification vocabulary *)

Module GeometrySpec.
Import Geometry.

(** Pixel [(x, y)] lies in the box; the right and bottom edges are exclusive,
    as [mask_to_bbox] adds one to the last covered column and row. *)
Definition inside (b : Box) (x y : Z) : Prop :=
  (bx1 b <= x < bx2 b /\ by1 b <= y < by2 b)%Z.

Definition disjoint (b1 b2 : Box) : Prop :=
  forall x y, ~ (inside b1 x y /\ inside b2 x y).

Definition positive_area (b : Box) : Prop :=
  (bx1 b < bx2 b /\ by1 b < by2 b)%Z.

(** The [union] local of [bbox_iou]. *)
Definition union_area (box1 box2 : Box) : Z :=
  let x1 := Z.max (bx1 box1) (bx1 box2) in
  let y1 := Z.max (by1 box1) (by1 box2) in
  let x2 := Z.min (bx2 box1) (bx2 box2) in
  let y2 := Z.min (by2 box1) (by2 box2) in
  ((bx2 box1 - bx1 box1) * (by2 box1 - by1 box1)
   + (bx2 box2 - bx1 box2) * (by2 box2 - by1 box2)
   - Z.max 0 (x2 - x1) * Z.max 0 (y2 - y1))%Z.

(** The value [bbox_iou] returns. *)
Definition iou_value (b1 b2 : Box) : Q :=
  match bbox_iou b1 b2 with
  | (_, Return q) => q
  | (_, Raise _) => 0%Q
  end.

Definition true_pixel (m : Mask) (r c : nat) : Prop :=
  (r < mask_h m)%nat /\ (c < mask_w m)%nat /\ mask_at m r c = true.

Definition has_true (m : Mask) : Prop := exists r c, true_pixel m r c.

(** Every true pixel is inside the box. *)
Definition covers (m : Mask) (b : Box) : Prop :=
  forall r c, true_pixel m r c -> inside b (Z.of_nat c) (Z.of_nat r).

(** Each of the four edges of the box passes through a true pixel. *)
Definition touches (m : Mask) (b : Box) : Prop :=
  (exists r c, true_pixel m r c /\ Z.of_nat c = bx1 b) /\
  (exists r c, true_pixel m r c /\ (Z.of_nat c + 1)%Z = bx2 b) /\
  (exists r c, true_pixel m r c /\ Z.of_nat r = by1 b) /\
  (exists r c, true_pixel m r c /\ (Z.of_nat r + 1)%Z = by2 b).

Definition tight (m : Mask) (b : Box) : Prop := covers m b /\ touches m b.

Definition zero_box : Box := {| bx1 := 0; by1 := 0; bx2 := 0; by2 := 0 |}.

(** [np.where] started at offset [a], for the induction. *)
Definition where_from (a : nat) (v : list bool) : list nat :=
  map fst (List.filter (fun p => snd p) (combine (seq a (length v)) v)).

End GeometrySpec.

Module EmbedderSpec.
Import Geometry Embedder.

(** The cells pooled for a resampled mask: those above 0.5, or the whole
    grid when there is none. *)
Definition selection (grid : PatchGrid) (mask_resized : list Q) : list bool :=
  let patch_mask := binarize mask_resized in
  if (mask_sum patch_mask =? 0)%nat
  then torch_ones (grid_h grid) (grid_w grid)
  else patch_mask.

(** The average of the selected patch vectors, before normalisation. *)
Definition averaged (grid : PatchGrid) (mask_resized : list Q) : vec :=
  mean_dim0 (boolean_index (patches grid) (selection grid mask_resized)).

Definition pooled (grid : PatchGrid) (mask_resized : list Q) : vec :=
  F_normalize (averaged grid mask_resized).

End EmbedderSpec.

Module MatcherSpec.
Import Geometry GeometrySpec Embedder Matcher.

(** The overlap test of [_nms]: [bbox_iou(b1, b2) > self.nms_iou_threshold]. *)
Definition over (self : InstanceMatcher) (b1 b2 : Box) : bool :=
  Qltb (nms_iou_threshold self) (iou_value b1 b2).

(** The same test between the candidates at two indices. *)
Definition over_at (self : InstanceMatcher) (candidates : list MatchResult)
    (k j : nat) : bool :=
  match candidates !! k, candidates !! j with
  | Some ck, Some cj => over self (bbox ck) (bbox cj)
  | _, _ => false
  end.

(** The candidates whose index, counted from [a], is not in [suppressed]. *)
Definition kept_from (a : nat) (l : list MatchResult) (suppressed : gset nat)
  : list MatchResult :=
  map snd (List.filter (fun p => negb (bool_decide (fst p ∈ suppressed)))
                       (combine (seq a (length l)) l)).

(** The two loops of [_nms], with the final [suppressed] set kept. *)
Definition nms_run (self : InstanceMatcher) (candidates : list MatchResult)
  : py (list MatchResult * gset nat) :=
  for_each (nms_outer self candidates) (enumerate candidates) ([], ∅).

(** What the final [suppressed] set of [_nms] holds: the indices that overlap
    an earlier index which is itself not suppressed. *)
Definition suppression (self : InstanceMatcher) (candidates : list MatchResult)
    (U : gset nat) : Prop :=
  forall j, (j ∈ U) <->
    (j < length candidates)%nat /\
    exists k, (k < j)%nat /\ (k ∉ U) /\ over_at self candidates k j = true.

(** Descending similarity. *)
Definition desc (a b : MatchResult) : Prop := (similarity b <= similarity a)%R.

(** No overlap above the threshold, in either order. *)
Definition apart (self : InstanceMatcher) (a b : MatchResult) : Prop :=
  forall v, (returns (bbox_iou (bbox a) (bbox b)) v \/
             returns (bbox_iou (bbox b) (bbox a)) v) ->
            ~ (nms_iou_threshold self < v)%Q.

(** The box [mask_to_bbox] returns. *)
Definition bbox_of (m : Mask) : Box :=
  match mask_to_bbox m with
  | (_, Return b) => b
  | (_, Raise _) => zero_box
  end.

(** The candidate step 4 of [match_in_image] builds for one proposal. *)
Definition candidate_of (proposal_embeddings : list vec)
    (item : nat * (R * Proposal)) : MatchResult :=
  let '(i, (sim, proposal)) := item in
  {| mask := p_segmentation proposal;
     bbox := bbox_of (p_segmentation proposal);
     similarity := sim;
     predicted_iou := p_predicted_iou proposal;
     area := p_area proposal;
     embedding := default [] (proposal_embeddings !! i) |}.

(** The candidates step 4 retains at threshold [t], in proposal order. *)
Definition retained (t : R) (proposal_embeddings : list vec)
    (items : list (nat * (R * Proposal))) : list MatchResult :=
  map (candidate_of proposal_embeddings)
      (List.filter (fun item => Rgeb (fst (snd item)) t) items).

(** The candidates of an image after the filter and the sort. *)
Definition ranked (self : InstanceMatcher) (proposals : list Proposal)
    (embs : list vec) (sims : list R) : list MatchResult :=
  sort_desc (retained (similarity_threshold self) embs
               (enumerate (combine sims proposals))).

End MatcherSpec.

(** * Example data

    Images are numbered; each number stands for what the mask generator and
    the embedding model yield for that image. *)

Module Examples.
Import Geometry Embedder.
Local Open Scope R_scope.

(** A resampler for the examples: it rejects an array with an empty axis and
    leaves a mask that already has the shape of the grid unchanged, both as
    bilinear resampling does.  The examples use no other case (elsewhere it
    samples the nearest cell). *)
Definition resample (m : Mask) (h w : nat) : option (list Q) :=
  if ((mask_h m =? 0) || (mask_w m =? 0) || (h =? 0) || (w =? 0))%nat then None
  else Some (flat_map (fun r =>
               map (fun c => if mask_at m (r * mask_h m / h) (c * mask_w m / w)
                             then 1%Q else 0%Q)
                   (seq 0 w))
             (seq 0 h)).

(** Three unit descriptors and the reference they are compared with. *)
Definition e1 : vec := [9/10; 3/10; 3/10; 1/10].
Definition e2 : vec := [72/100; 12/100; 64/100; 24/100].
Definition e3 : vec := [3/10; 9/10; 3/10; 1/10].
Definition reference : vec := [1; 0; 0; 0].
Definition z4 : vec := [0; 0; 0; 0].

(** Image 0: a 2 x 5 grid of 4-dimensional patch vectors. *)
Definition grid0 : PatchGrid :=
  {| grid_h := 2; grid_w := 5;
     patches := [ z4; z4; z4; [18/10; 6/10; 6/10; 2/10];
                              [144/100; 24/100; 128/100; 48/100];
                  z4; z4; e3; z4; z4 ] |}.

(** Images 1 and 2: 2 x 2 grids of 2-dimensional patch vectors, all zero in
    image 1, cancelling each other in image 2. *)
Definition grid1 : PatchGrid :=
  {| grid_h := 2; grid_w := 2; patches := [ [0; 0]; [0; 0]; [0; 0]; [0; 0] ] |}.
Definition grid2 : PatchGrid :=
  {| grid_h := 2; grid_w := 2; patches := [ [1; 0]; [-1; 0]; [0; 1]; [0; -1] ] |}.

Definition patch_embeddings (image : nat) : PatchGrid :=
  match image with
  | 1%nat => grid1
  | 2%nat => grid2
  | _ => grid0
  end.

(** Masks at the resolution of the grids. *)
Definition mask_a : Mask :=
  mask_of_rows [ [true; false; false; true; false];
                 [false; false; false; false; false] ].
(** [mask_a] without its first true pixel. *)
Definition mask_a_right : Mask :=
  mask_of_rows [ [false; false; false; true; false];
                 [false; false; false; false; false] ].
Definition mask_b : Mask :=
  mask_of_rows [ [true; false; false; false; true];
                 [false; false; false; false; false] ].
Definition mask_c : Mask :=
  mask_of_rows [ [false; false; false; false; false];
                 [false; false; true; false; false] ].
Definition mask_full : Mask := mask_of_rows [ [true; true]; [true; true] ].
Definition mask_none : Mask := mask_of_rows [ [false; false]; [false; false] ].
(** An array of shape (0, 0). *)
Definition mask_empty : Mask := mask_of_rows [].

(** The masks resampled to their grids. *)
Definition cov_a : list Q := [1; 0; 0; 1; 0; 0; 0; 0; 0; 0]%Q.
Definition cov_b : list Q := [1; 0; 0; 0; 1; 0; 0; 0; 0; 0]%Q.
Definition cov_c : list Q := [0; 0; 0; 0; 0; 0; 0; 1; 0; 0]%Q.
Definition cov_full : list Q := [1; 1; 1; 1]%Q.

Definition proposal (m : Mask) : Matcher.Proposal :=
  {| Matcher.p_segmentation := m; Matcher.p_predicted_iou := 9 / 10;
     Matcher.p_area := 2 |}.

(** Image 0 has three proposals, images 1 and 2 one, image 3 one whose mask
    is an empty array, every other image none. *)
Definition generate_proposals (image : nat) : list Matcher.Proposal :=
  match image with
  | 0%nat => [proposal mask_a; proposal mask_b; proposal mask_c]
  | 1%nat | 2%nat => [proposal mask_full]
  | 3%nat => [proposal mask_empty]
  | _ => []
  end.

(** No raw mask of an example image is filtered out. *)
Definition n_raw_masks (image : nat) : nat := length (generate_proposals image).

(** A matcher with the default configuration. *)
Definition default_matcher : Matcher.InstanceMatcher :=
  {| Matcher.similarity_threshold := 65 / 100;
     Matcher.top_k := 3;
     Matcher.nms_iou_threshold := 1 # 2 |}.

(** A candidate with a given box and similarity. *)
Definition cand (b : Box) (s : R) : Matcher.MatchResult :=
  {| Matcher.mask := mask_none; Matcher.bbox := b; Matcher.similarity := s;
     Matcher.predicted_iou := 1; Matcher.area := 0; Matcher.embedding := [] |}.

Definition box_near : Box := {| bx1 := 0; by1 := 0; bx2 := 10; by2 := 10 |}.
Definition box_far : Box := {| bx1 := 20; by1 := 20; bx2 := 30; by2 := 30 |}.

(** Three candidates on the same box, sorted by similarity. *)
Definition same_box_triple : list Matcher.MatchResult :=
  [cand box_near (9/10); cand box_near (8/10); cand box_near (7/10)].
(** Two candidates on the same box. *)
Definition same_box_pair : list Matcher.MatchResult :=
  [cand box_near (9/10); cand box_near (8/10)].
(** Two candidates on the box of an all-false mask. *)
Definition zero_box_pair : list Matcher.MatchResult :=
  [cand GeometrySpec.zero_box (9/10); cand GeometrySpec.zero_box (8/10)].
(** A box that overlaps [box_near] with IoU 0.9, and two candidates on it
    behind a candidate on [box_near]. *)
Definition box_low : Box := {| bx1 := 0; by1 := 0; bx2 := 10; by2 := 9 |}.
Definition shadowed_pair : list Matcher.MatchResult :=
  [cand box_near (9/10); cand box_low (8/10); cand box_low (7/10)].
(** Two candidates on disjoint boxes. *)
Definition apart_pair : list Matcher.MatchResult :=
  [cand box_near (9/10); cand box_far (8/10)].

(** The boxes around the true pixels of [mask_a] and [mask_b]. *)
Definition box_a : Box := {| bx1 := 0; by1 := 0; bx2 := 4; by2 := 1 |}.
Definition box_b : Box := {| bx1 := 0; by1 := 0; bx2 := 5; by2 := 1 |}.

(** The three proposals of image 0 as matches. *)
Definition match_a : Matcher.MatchResult :=
  MatcherSpec.candidate_of [e1; e2; e3] (0%nat, (9 / 10, proposal mask_a)).
Definition match_b : Matcher.MatchResult :=
  MatcherSpec.candidate_of [e1; e2; e3] (1%nat, (72 / 100, proposal mask_b)).
Definition match_c : Matcher.MatchResult :=
  MatcherSpec.candidate_of [e1; e2; e3] (2%nat, (3 / 10, proposal mask_c)).

(** A matcher with similarity threshold 0.2 and [top_k = -1]. *)
Definition low_threshold_matcher : Matcher.InstanceMatcher :=
  {| Matcher.similarity_threshold := 1 / 5;
     Matcher.top_k := -1;
     Matcher.nms_iou_threshold := 1 # 2 |}.

(** A matcher with similarity threshold 0.8. *)
Definition strict_matcher : Matcher.InstanceMatcher :=
  {| Matcher.similarity_threshold := 8 / 10;
     Matcher.top_k := 3;
     Matcher.nms_iou_threshold := 1 # 2 |}.

End Examples.

(** * Further code of the cited files *)

(** ** The proposal generator ([sam2_segmenter.py]) *)

Module Segmenter.
Import Geometry Embedder Matcher.

(** The mask-area settings of [config.py]. *)
Record AreaConfig : Type := {
  MIN_MASK_AREA_RATIO : R;
  MAX_MASK_AREA_RATIO : R
}.

(** The module's values when no [PS_*] environment variable overrides them. *)
Definition default_area_config : AreaConfig :=
  {| MIN_MASK_AREA_RATIO := (1 / 1000)%R; MAX_MASK_AREA_RATIO := (1 / 2)%R |}.

(** [xs.sort(key=lambda x: x['predicted_iou'], reverse=True)]: descending and
    stable. *)
Fixpoint insert_by_iou (x : Proposal) (sorted : list Proposal) : list Proposal :=
  match sorted with
  | [] => [x]
  | y :: rest =>
      if Rltb (p_predicted_iou x) (p_predicted_iou y)
      then y :: insert_by_iou x rest
      else x :: y :: rest
  end.

Definition sort_by_iou (xs : list Proposal) : list Proposal :=
  fold_right insert_by_iou [] xs.

(** [area < min_area or area > max_area] *)
Definition out_of_range (min_area max_area : R) (mask_data : Proposal) : bool :=
  Rltb (IZR (p_area mask_data)) min_area || Rltb max_area (IZR (p_area mask_data)).

Section Proposals.
Context {Image : Type}.

(** [self.generator.generate(image)]: the raw masks of the mask generator. *)
Variable generate : Image -> list Proposal.
(** [(image.shape[0], image.shape[1])] *)
Variable shape : Image -> nat * nat.

(** The printed line and the returned list. *)
Definition generate_proposals (config : AreaConfig) (image : Image)
    (min_area_ratio max_area_ratio : option R)
  : list message * list Proposal :=
  let min_area_ratio :=
    match min_area_ratio with
    | None => MIN_MASK_AREA_RATIO config
    | Some r => r
    end in
  let max_area_ratio :=
    match max_area_ratio with
    | None => MAX_MASK_AREA_RATIO config
    | Some r => r
    end in
  let raw_masks := generate image in
  let image_area := (fst (shape image) * snd (shape image))%nat in
  let min_area := (min_area_ratio * INR image_area)%R in
  let max_area := (max_area_ratio * INR image_area)%R in
  let proposals :=
    List.filter (fun mask_data => negb (out_of_range min_area max_area mask_data))
                raw_masks in
  let proposals := sort_by_iou proposals in
  ([MsgGenerated (length proposals) (length raw_masks)], proposals).

End Proposals.

End Segmenter.

(** ** Patch tokens of the embedding model ([dinov2_embedder.py]) *)

Module Tokens.
Import Embedder.

(** [config.DINOV2_PATCH_SIZE] *)
Definition DINOV2_PATCH_SIZE : nat := 14.

(** [xs[-n:]] for [n >= 0]: the last [n] entries; [-0] is [0], so the whole
    list for [n = 0]. *)
Definition slice_last {A} (xs : list A) (n : nat) : list A :=
  if (n =? 0)%nat then xs else skipn (length xs - n) xs.

(** [_get_patch_embeddings], from the model's [last_hidden_state] (one token
    vector per entry, batch of one) and the height and width of the
    preprocessed image. *)
Definition _get_patch_embeddings (last_hidden : list vec) (h w : nat)
  : list vec * nat * nat :=
  let num_patches_h := (h / DINOV2_PATCH_SIZE)%nat in
  let num_patches_w := (w / DINOV2_PATCH_SIZE)%nat in
  let expected_patches := (num_patches_h * num_patches_w)%nat in
  let patch_embeddings := slice_last last_hidden expected_patches in
  (patch_embeddings, num_patches_h, num_patches_w).

End Tokens.

(** ** The pipeline result ([pipeline.py]) *)

Module Pipeline.
Import Geometry Embedder Matcher.

Record PipelineResult {Image : Type} : Type := {
  reference_image_path : string;
  reference_mask : Mask;
  reference_embedding : vec;
  reference_bbox : Box;
  image_results : list (ImageMatchResults Image)
}.
Arguments PipelineResult Image : clear implicits.

Definition total_matches {Image} (r : PipelineResult Image) : nat :=
  length (List.filter has_match (image_results r)).

Definition total_images {Image} (r : PipelineResult Image) : nat :=
  length (image_results r).

End Pipeline.

(** ** Vocabulary of the further properties *)

Module MoreSpec.
Import Geometry Embedder Matcher.

(** The number [np_dot] returns for two vectors of one length. *)
Definition dot (a b : vec) : R :=
  fold_right Rplus 0%R (map (fun p => (fst p * snd p)%R) (combine a b)).

(** Descending predicted IoU. *)
Definition by_iou_desc (a b : Proposal) : Prop :=
  (p_predicted_iou b <= p_predicted_iou a)%R.

(** The ratio [generate_proposals] works with: the argument, or the
    configured value when the argument is [None]. *)
Definition effective_ratio (arg : option R) (configured : R) : R :=
  match arg with
  | None => configured
  | Some r => r
  end.

(** [image.shape[0] * image.shape[1]] *)
Definition image_area {Image} (shape : Image -> nat * nat) (image : Image) : nat :=
  (fst (shape image) * snd (shape image))%nat.

End MoreSpec.

(** ** Further example data *)

Module MoreExamples.
Import Geometry Embedder Matcher Examples.
Local Open Scope R_scope.



(** A matcher with similarity threshold 0.95. *)
Definition very_strict_matcher : InstanceMatcher :=
  {| similarity_threshold := 95 / 100; top_k := 3; nms_iou_threshold := 1 # 2 |}.

(** The default matcher with [top_k = 5]. *)
Definition wide_matcher : InstanceMatcher :=
  {| similarity_threshold := 65 / 100; top_k := 5; nms_iou_threshold := 1 # 2 |}.

(** Every example image is 2 pixels high and 5 wide. *)
Definition shape (image : nat) : nat * nat := (2%nat, 5%nat).

(** The example proposals as the raw masks of a generator, filtered and
    sorted by [generate_proposals] under the default area settings. *)
Definition filtered_proposals (image : nat) : list Proposal :=
  snd (Segmenter.generate_proposals generate_proposals shape
         Segmenter.default_area_config image None None).

End MoreExamples.

(** * Properties *)

(** ** The outcome monad *)

Lemma bind_ret_l {A B} (a : A) (k : A -> py B) : bind (ret a) k = k a.
Proof. unfold bind, ret. destruct (k a) as [l r]. reflexivity. Qed.

Lemma bind_returns {A B} (m : py A) (k : A -> py B) (b : B) :
  returns (bind m k) b -> exists a, returns m a /\ returns (k a) b.
Proof.
  unfold returns, bind. destruct m as [l1 [a|e]]; simpl.
  - destruct (k a) as [l2 r] eqn:E. simpl. intros ->. exists a. rewrite E. auto.
  - discriminate.
Qed.

Lemma bind_returns_intro {A B} (m : py A) (k : A -> py B) a b :
  returns m a -> returns (k a) b -> returns (bind m k) b.
Proof.
  unfold returns, bind. destruct m as [l1 [a'|e]]; simpl; intros H; inversion H; subst.
  destruct (k a) as [l2 r]. simpl. auto.
Qed.

Lemma bind_raises_l {A B} (m : py A) (k : A -> py B) :
  raises m -> raises (bind m k).
Proof.
  unfold raises, bind. destruct m as [l1 [a|e]]; simpl; intros [e' H]; try discriminate.
  exists e. reflexivity.
Qed.

Lemma returns_not_raises {A} (m : py A) a : returns m a -> ~ raises m.
Proof. unfold returns, raises. intros H [e He]. congruence. Qed.

(** ** Geometry *)

Module GeometryFacts.
Import Geometry GeometrySpec.

Lemma where_from_cons a b v :
  where_from a (b :: v) = if b then a :: where_from (S a) v else where_from (S a) v.
Proof. unfold where_from. simpl. destruct b; reflexivity. Qed.

Lemma where_from_in a v i :
  In i (where_from a v) <-> (a <= i /\ nth_error v (i - a) = Some true)%nat.
Proof.
  revert a. induction v as [|b v IH]; intros a.
  - unfold where_from. simpl. split; [tauto|]. intros [_ H].
    destruct (i - a)%nat; discriminate.
  - rewrite where_from_cons.
    assert (Hstep : In i (where_from (S a) v) <->
                    (S a <= i /\ nth_error (b :: v) (i - a) = Some true)%nat).
    { rewrite IH. split; intros [H1 H2]; split; try lia.
      - replace (i - a)%nat with (S (i - S a)) by lia. exact H2.
      - replace (i - a)%nat with (S (i - S a)) in H2 by lia. exact H2. }
    destruct b; simpl In; rewrite ?Hstep.
    + split.
      * intros [<-|[H1 H2]]; [split; [lia|]|split; [lia|exact H2]].
        replace (a - a)%nat with 0%nat by lia. reflexivity.
      * intros [H1 H2]. destruct (Nat.eq_dec a i) as [->|Hne]; [left; reflexivity|].
        right. split; [lia|exact H2].
    + split.
      * intros [H1 H2]. split; [lia|exact H2].
      * intros [H1 H2]. destruct (Nat.eq_dec a i) as [->|Hne].
        -- replace (i - i)%nat with 0%nat in H2 by lia. discriminate.
        -- split; [lia|exact H2].
Qed.

Lemma where_from_lower a v i : In i (where_from a v) -> (a <= i)%nat.
Proof. intros H. apply where_from_in in H. tauto. Qed.

(** The indices come out in ascending order: the head is the least. *)
Lemma where_from_head a v x l :
  where_from a v = x :: l -> forall i, In i (where_from a v) -> (x <= i)%nat.
Proof.
  revert a x l. induction v as [|b v IH]; intros a x l.
  - discriminate.
  - rewrite where_from_cons. destruct b.
    + intros E i Hi. inversion E; subst. destruct Hi as [<-|Hi]; [lia|].
      apply where_from_lower in Hi. lia.
    + intros E i Hi. eapply IH; eauto.
Qed.

(** ... and the last one is the greatest. *)
Lemma where_from_last a v d :
  forall i, In i (where_from a v) -> (i <= List.last (where_from a v) d)%nat.
Proof.
  revert a d. induction v as [|b v IH]; intros a d i.
  - unfold where_from. simpl. tauto.
  - rewrite where_from_cons. destruct b.
    + intros [<-|Hi].
      * destruct (where_from (S a) v) as [|y l] eqn:E; [simpl; lia|].
        change (List.last (a :: y :: l) d) with (List.last (y :: l) d).
        rewrite <- E.
        assert (In y (where_from (S a) v)) by (rewrite E; left; reflexivity).
        specialize (IH (S a) d y H). apply where_from_lower in H. lia.
      * destruct (where_from (S a) v) as [|y l] eqn:E; [destruct Hi|].
        change (List.last (a :: y :: l) d) with (List.last (y :: l) d).
        rewrite <- E. apply IH. rewrite E. exact Hi.
    + apply IH.
Qed.

Lemma last_in {A} (l : list A) (x d : A) : In (List.last (x :: l) d) (x :: l).
Proof.
  revert x. induction l as [|y l IH]; intros x.
  - left. reflexivity.
  - right. apply IH.
Qed.

Lemma np_where_in v i : In i (np_where v) <-> nth_error v i = Some true.
Proof.
  change (np_where v) with (where_from 0 v). rewrite where_from_in.
  rewrite Nat.sub_0_r. split; [tauto|]. intros H; split; [lia|exact H].
Qed.

Lemma first_last_spec (v : list bool) i0 :
  nth_error v i0 = Some true ->
  exists lo hi, first_last (np_where v) = ret (lo, hi) /\
    nth_error v lo = Some true /\ nth_error v hi = Some true /\
    forall i, nth_error v i = Some true -> (lo <= i <= hi)%nat.
Proof.
  intros H0. apply np_where_in in H0.
  destruct (np_where v) as [|x l] eqn:E; [destruct H0|].
  exists x, (List.last (x :: l) x). simpl first_last.
  split; [reflexivity|]. split; [|split].
  - apply np_where_in. rewrite E. left. reflexivity.
  - apply np_where_in. rewrite E. apply last_in.
  - intros i Hi. apply np_where_in in Hi. split.
    + change (np_where v) with (where_from 0 v) in *.
      eapply where_from_head; eauto.
    + rewrite <- E. change (np_where v) with (where_from 0 v) in *.
      apply where_from_last. exact Hi.
Qed.

Lemma any_axis1_nth m r :
  nth_error (np_any_axis1 m) r = Some true <->
  (r < mask_h m /\ exists c, c < mask_w m /\ mask_at m r c = true)%nat.
Proof.
  unfold np_any_axis1. rewrite nth_error_map, nth_error_seq.
  destruct (Nat.ltb_spec r (mask_h m)) as [Hlt|Hge].
  - simpl. split.
    + intros H. injection H as H1. apply existsb_exists in H1.
      destruct H1 as [c [Hc1 Hc2]]. apply in_seq in Hc1. split; [exact Hlt|].
      exists c. split; [lia|exact Hc2].
    + intros [_ [c [Hc1 Hc2]]]. f_equal. apply existsb_exists. exists c.
      split; [apply in_seq; lia|exact Hc2].
  - simpl. split; [discriminate|]. intros [Hlt _]. lia.
Qed.

Lemma any_axis0_nth m c :
  nth_error (np_any_axis0 m) c = Some true <->
  (c < mask_w m /\ exists r, r < mask_h m /\ mask_at m r c = true)%nat.
Proof.
  unfold np_any_axis0. rewrite nth_error_map, nth_error_seq.
  destruct (Nat.ltb_spec c (mask_w m)) as [Hlt|Hge].
  - simpl. split.
    + intros H. injection H as H1. apply existsb_exists in H1.
      destruct H1 as [r [Hr1 Hr2]]. apply in_seq in Hr1. split; [exact Hlt|].
      exists r. split; [lia|exact Hr2].
    + intros [_ [r [Hr1 Hr2]]]. f_equal. apply existsb_exists. exists r.
      split; [apply in_seq; lia|exact Hr2].
  - simpl. split; [discriminate|]. intros [Hlt _]. lia.
Qed.

Lemma np_any_true v : np_any v = true <-> exists i, nth_error v i = Some true.
Proof.
  unfold np_any. rewrite existsb_exists. split.
  - intros [b [Hin ->]]. apply In_nth_error in Hin. exact Hin.
  - intros [i Hi]. exists true. split; [|reflexivity].
    eapply nth_error_In; eauto.
Qed.

Lemma mask_to_bbox_true (m : Mask) :
  has_true m -> exists b, mask_to_bbox m = ret b /\ tight m b.
Proof.
  unfold mask_to_bbox.
  intros [r0 [c0 (Hr0 & Hc0 & Hp0)]].
  assert (Hrow : nth_error (np_any_axis1 m) r0 = Some true).
  { apply any_axis1_nth. split; [exact Hr0|]. exists c0. auto. }
  assert (Hcol : nth_error (np_any_axis0 m) c0 = Some true).
  { apply any_axis0_nth. split; [exact Hc0|]. exists r0. auto. }
  assert (Hany : np_any (np_any_axis1 m) = true).
  { apply np_any_true. exists r0. exact Hrow. }
  rewrite Hany. simpl negb. cbv iota.
  destruct (first_last_spec _ _ Hrow) as (y1 & y2 & Ey & Hy1 & Hy2 & Hyb).
  destruct (first_last_spec _ _ Hcol) as (x1 & x2 & Ex & Hx1 & Hx2 & Hxb).
  rewrite Ey, bind_ret_l, Ex, bind_ret_l.
  eexists. split; [reflexivity|].
  apply any_axis1_nth in Hy1, Hy2. apply any_axis0_nth in Hx1, Hx2.
  destruct Hy1 as [Hy1 [cy1 [? ?]]]. destruct Hy2 as [Hy2 [cy2 [? ?]]].
  destruct Hx1 as [Hx1 [rx1 [? ?]]]. destruct Hx2 as [Hx2 [rx2 [? ?]]].
  split.
  - intros r c (Hr & Hc & Hp). unfold inside. simpl.
    assert (x1 <= c <= x2)%nat.
    { apply Hxb. apply any_axis0_nth. split; [exact Hc|]. exists r. auto. }
    assert (y1 <= r <= y2)%nat.
    { apply Hyb. apply any_axis1_nth. split; [exact Hr|]. exists c. auto. }
    lia.
  - unfold touches, true_pixel. simpl. repeat split.
    + exists rx1, x1. auto.
    + exists rx2, x2. auto.
    + exists y1, cy1. auto.
    + exists y2, cy2. auto.
Qed.

Lemma has_true_any (m : Mask) : has_true m <-> np_any (np_any_axis1 m) = true.
Proof.
  rewrite np_any_true. split.
  - intros [r [c (Hr & Hc & Hp)]]. exists r. apply any_axis1_nth.
    split; [exact Hr|]. exists c. auto.
  - intros [r Hr]. apply any_axis1_nth in Hr. destruct Hr as [Hr [c [Hc Hp]]].
    exists r, c. unfold true_pixel. auto.
Qed.

Lemma mask_to_bbox_false (m : Mask) :
  ~ has_true m -> mask_to_bbox m = ret zero_box.
Proof.
  intros Hnone. unfold mask_to_bbox.
  destruct (np_any (np_any_axis1 m)) eqn:Hany; [|reflexivity].
  exfalso. apply Hnone. apply has_true_any. exact Hany.
Qed.

(** [mask_to_bbox] returns for every mask. *)
Lemma mask_to_bbox_total (m : Mask) : exists b, mask_to_bbox m = ret b.
Proof.
  destruct (np_any (np_any_axis1 m)) eqn:Hany.
  - apply has_true_any in Hany.
    destruct (mask_to_bbox_true m Hany) as [b [Hb _]]. exists b. exact Hb.
  - exists zero_box. apply mask_to_bbox_false. rewrite has_true_any. congruence.
Qed.

Lemma mask_a_pixel : true_pixel Examples.mask_a 0 3.
Proof. unfold true_pixel. simpl. repeat split; lia. Qed.

Lemma mask_none_blank : ~ has_true Examples.mask_none.
Proof. rewrite has_true_any. discriminate. Qed.

(** C9.  For every mask with a true pixel [mask_to_bbox] returns the tight
    box around the true pixels (it covers them all and each edge touches
    one); for an all-false mask it returns the zero-area box [0, 0, 0, 0].
    It never raises. *)
Theorem mask_to_bbox_tight (m : Mask) :
  (has_true m -> exists b, mask_to_bbox m = ret b /\ tight m b) /\
  (~ has_true m -> mask_to_bbox m = ret zero_box).
Proof. split; [apply mask_to_bbox_true|apply mask_to_bbox_false]. Qed.

(** C9, witness: a mask with true pixels at columns 0 and 3 of its first
    row, and an all-false 2 x 2 mask. *)
Lemma mask_to_bbox_tight_witness :
  (exists b, mask_to_bbox Examples.mask_a = ret b /\ tight Examples.mask_a b) /\
  mask_to_bbox Examples.mask_none = ret zero_box.
Proof.
  split.
  - apply (proj1 (mask_to_bbox_tight Examples.mask_a)).
    exists 0%nat, 3%nat. exact mask_a_pixel.
  - apply (proj2 (mask_to_bbox_tight Examples.mask_none)). exact mask_none_blank.
Defined.

(** [bbox_iou] always returns, whatever the boxes. *)
Lemma bbox_iou_total (b1 b2 : Box) : bbox_iou b1 b2 = ret (iou_value b1 b2).
Proof.
  unfold iou_value, bbox_iou, truediv.
  destruct (0 <? _)%Z eqn:E; [|reflexivity].
  apply Z.ltb_lt in E.
  destruct (_ =? 0)%Z eqn:E0; [|reflexivity].
  apply Z.eqb_eq in E0. lia.
Qed.

Lemma Qred_zero_div (u : Z) : Qred (inject_Z 0 / inject_Z u) = 0%Q.
Proof.
  change 0%Q with (Qred 0). apply Qred_complete.
  unfold Qdiv. apply Qmult_0_l.
Qed.

Lemma Qred_self_div (u : Z) : u <> 0%Z -> Qred (inject_Z u / inject_Z u) = 1%Q.
Proof.
  intros Hu. change 1%Q with (Qred 1). apply Qred_complete.
  apply Qmult_inv_r. unfold Qeq, inject_Z. simpl. lia.
Qed.

Lemma disjoint_no_overlap (b1 b2 : Box) :
  disjoint b1 b2 ->
  (Z.max 0 (Z.min (bx2 b1) (bx2 b2) - Z.max (bx1 b1) (bx1 b2)) *
   Z.max 0 (Z.min (by2 b1) (by2 b2) - Z.max (by1 b1) (by1 b2)) = 0)%Z.
Proof.
  intros Hd.
  destruct (Z_le_gt_dec (Z.min (bx2 b1) (bx2 b2)) (Z.max (bx1 b1) (bx1 b2))) as [Hx|Hx].
  - rewrite (Z.max_l 0) by lia. reflexivity.
  - destruct (Z_le_gt_dec (Z.min (by2 b1) (by2 b2)) (Z.max (by1 b1) (by1 b2))) as [Hy|Hy].
    + rewrite (Z.max_l 0 (_ - Z.max (by1 b1) _)) by lia. lia.
    + exfalso.
      apply (Hd (Z.max (bx1 b1) (bx1 b2)) (Z.max (by1 b1) (by1 b2))).
      unfold inside. lia.
Qed.

Lemma bbox_iou_disjoint (b1 b2 : Box) :
  disjoint b1 b2 -> bbox_iou b1 b2 = ret 0%Q.
Proof.
  intros Hd. apply disjoint_no_overlap in Hd.
  unfold bbox_iou, truediv. rewrite Hd.
  destruct (0 <? _)%Z eqn:E; [|reflexivity].
  apply Z.ltb_lt in E.
  destruct (_ =? 0)%Z eqn:E0; [apply Z.eqb_eq in E0; lia|].
  rewrite Qred_zero_div. reflexivity.
Qed.

Lemma bbox_iou_identical (b : Box) :
  positive_area b -> bbox_iou b b = ret 1%Q.
Proof.
  intros [Hx Hy]. unfold bbox_iou, truediv.
  rewrite !Z.max_id, !Z.min_id.
  rewrite (Z.max_r 0 (bx2 b - bx1 b)), (Z.max_r 0 (by2 b - by1 b)) by lia.
  set (a := ((bx2 b - bx1 b) * (by2 b - by1 b))%Z).
  assert (Ha : (0 < a)%Z) by (unfold a; apply Z.mul_pos_pos; lia).
  replace (a + a - a)%Z with a by lia.
  destruct (0 <? a)%Z eqn:E; [|apply Z.ltb_ge in E; lia].
  destruct (a =? 0)%Z eqn:E0; [apply Z.eqb_eq in E0; lia|].
  rewrite Qred_self_div by lia. reflexivity.
Qed.

Lemma bbox_iou_sym (b1 b2 : Box) : bbox_iou b1 b2 = bbox_iou b2 b1.
Proof.
  unfold bbox_iou.
  rewrite (Z.max_comm (bx1 b1)), (Z.max_comm (by1 b1)),
          (Z.min_comm (bx2 b1)), (Z.min_comm (by2 b1)).
  rewrite (Z.add_comm ((bx2 b1 - bx1 b1) * (by2 b1 - by1 b1))). reflexivity.
Qed.

Lemma iou_value_sym (b1 b2 : Box) : iou_value b1 b2 = iou_value b2 b1.
Proof. unfold iou_value. rewrite bbox_iou_sym. reflexivity. Qed.

(** C7, as the code has it.  Two disjoint boxes give exactly 0; two
    identical boxes of positive width and height give exactly 1; a union of
    zero area gives 0; and the division is never reached with a zero
    divisor, so the function always returns. *)
Theorem bbox_iou_spec (b1 b2 : Box) :
  (disjoint b1 b2 -> bbox_iou b1 b2 = ret 0%Q) /\
  (positive_area b1 -> bbox_iou b1 b1 = ret 1%Q) /\
  (union_area b1 b2 = 0%Z -> bbox_iou b1 b2 = ret 0%Q) /\
  (exists q, bbox_iou b1 b2 = ret q).
Proof.
  split; [apply bbox_iou_disjoint|]. split; [apply bbox_iou_identical|]. split.
  - intros Hu. unfold union_area in Hu. unfold bbox_iou. rewrite Hu. reflexivity.
  - exists (iou_value b1 b2). apply bbox_iou_total.
Qed.

(** C7, witness: the boxes [0,0,1,1] and [5,5,6,6] are disjoint, [0,0,2,3]
    has positive area, and two copies of [0,0,0,0] have a union of area 0. *)
Lemma bbox_iou_spec_witness :
  bbox_iou {| bx1 := 0; by1 := 0; bx2 := 1; by2 := 1 |}
           {| bx1 := 5; by1 := 5; bx2 := 6; by2 := 6 |} = ret 0%Q /\
  bbox_iou {| bx1 := 0; by1 := 0; bx2 := 2; by2 := 3 |}
           {| bx1 := 0; by1 := 0; bx2 := 2; by2 := 3 |} = ret 1%Q /\
  bbox_iou zero_box zero_box = ret 0%Q.
Proof.
  split; [|split].
  - apply (proj1 (bbox_iou_spec {| bx1 := 0; by1 := 0; bx2 := 1; by2 := 1 |}
                                {| bx1 := 5; by1 := 5; bx2 := 6; by2 := 6 |})).
    unfold disjoint, inside. simpl. intros x y. lia.
  - apply (proj1 (proj2 (bbox_iou_spec {| bx1 := 0; by1 := 0; bx2 := 2; by2 := 3 |}
                                       zero_box))).
    unfold positive_area. simpl. lia.
  - apply (proj1 (proj2 (proj2 (bbox_iou_spec zero_box zero_box)))). reflexivity.
Defined.

(** C7, counterexample: the box [0, 0, 0, 0] (what [mask_to_bbox] returns
    for an all-false mask) is identical to itself, and [bbox_iou] returns 0
    for the pair, not 1. *)
Lemma bbox_iou_identical_degenerate :
  bbox_iou {| bx1 := 0; by1 := 0; bx2 := 0; by2 := 0 |}
           {| bx1 := 0; by1 := 0; bx2 := 0; by2 := 0 |} = ret 0%Q /\
  bbox_iou {| bx1 := 0; by1 := 0; bx2 := 0; by2 := 0 |}
           {| bx1 := 0; by1 := 0; bx2 := 0; by2 := 0 |} <> ret 1%Q.
Proof. split; [reflexivity|discriminate]. Qed.

End GeometryFacts.

(** ** Foreground pooling *)

Module EmbedderFacts.
Import Geometry Embedder EmbedderSpec.
Local Open Scope R_scope.

Lemma normalize_eps_pos : 0 < normalize_eps.
Proof. unfold normalize_eps. lra. Qed.

Lemma sum_sq_nonneg (v : vec) : 0 <= sum_sq v.
Proof.
  induction v as [|x v IH]; simpl; [lra|].
  pose proof (Rle_0_sqr x) as Hx. unfold Rsqr in Hx. lra.
Qed.

Lemma sum_sq_scale (c : R) (v : vec) :
  sum_sq (map (fun x => x / c) v) = sum_sq v * (/ c * / c).
Proof.
  induction v as [|x v IH]; simpl; [ring|].
  rewrite IH. unfold Rdiv. ring.
Qed.

Lemma norm2_nonneg (v : vec) : 0 <= norm2 v.
Proof. apply sqrt_pos. Qed.

Lemma norm2_normalize (v : vec) :
  norm2 (F_normalize v) = norm2 v / Rmax (norm2 v) normalize_eps.
Proof.
  unfold F_normalize. set (c := Rmax (norm2 v) normalize_eps).
  assert (Hc : 0 < c).
  { unfold c. pose proof (Rmax_r (norm2 v) normalize_eps).
    pose proof normalize_eps_pos. lra. }
  unfold norm2 at 1. rewrite sum_sq_scale.
  assert (Hinv : 0 <= / c) by (left; apply Rinv_0_lt_compat; exact Hc).
  rewrite sqrt_mult by (try apply sum_sq_nonneg; apply Rmult_le_pos; exact Hinv).
  rewrite sqrt_square by exact Hinv. reflexivity.
Qed.

(** Above [eps] the normalised vector has length one. *)
Lemma norm2_normalize_unit (v : vec) :
  normalize_eps <= norm2 v -> norm2 (F_normalize v) = 1.
Proof.
  intros H. rewrite norm2_normalize, Rmax_left by exact H.
  pose proof normalize_eps_pos. field. lra.
Qed.

Lemma sum_sq_zero (v : vec) : sum_sq v = 0 -> Forall (fun x => x = 0) v.
Proof.
  induction v as [|x v IH]; simpl; intros H; constructor.
  - pose proof (sum_sq_nonneg v). pose proof (Rle_0_sqr x) as Hx. unfold Rsqr in Hx.
    assert (x * x = 0) by lra. apply Rmult_integral in H1. tauto.
  - apply IH. pose proof (sum_sq_nonneg v). pose proof (Rle_0_sqr x) as Hx.
    unfold Rsqr in Hx. lra.
Qed.

Lemma norm2_zero (v : vec) : norm2 v = 0 -> Forall (fun x => x = 0) v.
Proof.
  unfold norm2. intros H. apply sum_sq_zero.
  apply sqrt_eq_0; [apply sum_sq_nonneg|exact H].
Qed.

Lemma normalize_zero (v : vec) :
  Forall (fun x => x = 0) v -> F_normalize v = v.
Proof.
  unfold F_normalize. generalize (Rmax (norm2 v) normalize_eps) as c.
  intros c H. induction H as [|x v Hx Hv IH]; simpl; [reflexivity|].
  rewrite IH. subst x. f_equal. unfold Rdiv. ring.
Qed.

(** A vector of length one is left as it is. *)
Lemma normalize_unit (v : vec) : sum_sq v = 1 -> F_normalize v = v.
Proof.
  intros H. unfold F_normalize, norm2. rewrite H, sqrt_1.
  rewrite Rmax_left by (unfold normalize_eps; lra).
  induction v as [|x v IH]; simpl; [reflexivity|].
  f_equal; [field|]. clear. induction v as [|y v IH]; simpl; [reflexivity|].
  f_equal; [field|exact IH].
Qed.

Lemma boolean_index_ones (ps : list vec) (n : nat) :
  (length ps <= n)%nat -> boolean_index ps (repeat true n) = ps.
Proof.
  unfold boolean_index. revert n. induction ps as [|p ps IH]; intros n Hn.
  - destruct n; reflexivity.
  - destruct n as [|n]; simpl in Hn; [lia|]. simpl. f_equal. apply IH. lia.
Qed.

Section PoolingFacts.
Context {Image : Type}.
Variable patch_embeddings : Image -> PatchGrid.
Variable interpolate : Mask -> nat -> nat -> option (list Q).

(** What one pooling call computes from the resampled mask. *)
Lemma compute_ffa_embedding_eq image mask cov :
  interpolate mask (grid_h (patch_embeddings image))
                   (grid_w (patch_embeddings image)) = Some cov ->
  compute_ffa_embedding patch_embeddings interpolate image mask =
    (if (mask_sum (binarize cov) =? 0)%nat then [MsgNoForeground] else [],
     Return (pooled (patch_embeddings image) cov)).
Proof.
  intros H. unfold compute_ffa_embedding, F_interpolate, pooled, averaged, selection.
  rewrite H, bind_ret_l.
  destruct (mask_sum (binarize cov) =? 0)%nat; reflexivity.
Qed.

Lemma pool_one_eq image mask cov :
  interpolate mask (grid_h (patch_embeddings image))
                   (grid_w (patch_embeddings image)) = Some cov ->
  pool_one interpolate (patch_embeddings image) mask =
    ret (pooled (patch_embeddings image) cov).
Proof.
  intros H. unfold pool_one, F_interpolate, pooled, averaged, selection.
  rewrite H, bind_ret_l. reflexivity.
Qed.

Lemma pool_one_raises image mask :
  interpolate mask (grid_h (patch_embeddings image))
                   (grid_w (patch_embeddings image)) = None ->
  pool_one interpolate (patch_embeddings image) mask = raise RuntimeError.
Proof.
  intros H. unfold pool_one, F_interpolate. rewrite H. reflexivity.
Qed.

Lemma batch_single_eq image mask cov :
  interpolate mask (grid_h (patch_embeddings image))
                   (grid_w (patch_embeddings image)) = Some cov ->
  compute_batch_ffa_embeddings patch_embeddings interpolate image [mask] =
    ret [pooled (patch_embeddings image) cov].
Proof.
  intros H. unfold compute_batch_ffa_embeddings. simpl map_py.
  rewrite (pool_one_eq _ _ _ H), !bind_ret_l. reflexivity.
Qed.

(** C2, as the code has it.  When the average of the selected patch
    vectors has Euclidean norm at least [eps] (1e-12), the descriptor has
    norm 1; the selected patches are those whose resampled coverage
    exceeds 0.5, or every patch of the grid when there is none, and in
    that case [compute_ffa_embedding] prints its warning. *)
Theorem ffa_unit_norm (image : Image) (mask : Mask) (cov : list Q) :
  let grid := patch_embeddings image in
  interpolate mask (grid_h grid) (grid_w grid) = Some cov ->
  normalize_eps <= norm2 (averaged grid cov) ->
  exists emb,
    compute_ffa_embedding patch_embeddings interpolate image mask =
      (if (mask_sum (binarize cov) =? 0)%nat then [MsgNoForeground] else [],
       Return emb) /\
    returns (compute_batch_ffa_embeddings patch_embeddings interpolate
               image [mask]) [emb] /\
    emb = F_normalize (averaged grid cov) /\
    norm2 emb = 1 /\
    (mask_sum (binarize cov) <> 0%nat ->
     averaged grid cov =
       mean_dim0 (boolean_index (patches grid) (binarize cov))) /\
    (mask_sum (binarize cov) = 0%nat ->
     length (patches grid) = (grid_h grid * grid_w grid)%nat ->
     averaged grid cov = mean_dim0 (patches grid)).
Proof.
  intros grid Hcov Hnorm. exists (pooled grid cov).
  split; [apply compute_ffa_embedding_eq; exact Hcov|].
  split; [unfold grid; rewrite (batch_single_eq _ _ _ Hcov); reflexivity|].
  split; [reflexivity|].
  split; [apply norm2_normalize_unit; exact Hnorm|].
  unfold averaged, selection. split.
  - intros Hne. apply Nat.eqb_neq in Hne. rewrite Hne. reflexivity.
  - intros He Hlen. rewrite He. simpl. unfold torch_ones.
    rewrite boolean_index_ones by lia. reflexivity.
Qed.

(** C3, as the code has it.  When the averaged vector has Euclidean norm
    zero, pooling raises nothing: it returns the all-zero vector, whose
    norm is 0, as the descriptor. *)
Theorem zero_norm_returns_zero_vector (image : Image) (mask : Mask) (cov : list Q) :
  let grid := patch_embeddings image in
  interpolate mask (grid_h grid) (grid_w grid) = Some cov ->
  norm2 (averaged grid cov) = 0 ->
  exists emb,
    returns (compute_ffa_embedding patch_embeddings interpolate image mask) emb /\
    returns (compute_batch_ffa_embeddings patch_embeddings interpolate
               image [mask]) [emb] /\
    Forall (fun x => x = 0) emb /\
    norm2 emb = 0.
Proof.
  intros grid Hcov Hzero. exists (pooled grid cov).
  split; [unfold returns; rewrite (compute_ffa_embedding_eq _ _ _ Hcov); reflexivity|].
  split; [unfold grid; rewrite (batch_single_eq _ _ _ Hcov); reflexivity|].
  assert (Hz : Forall (fun x => x = 0) (averaged grid cov)) by (apply norm2_zero; exact Hzero).
  unfold pooled. rewrite (normalize_zero _ Hz). split; [exact Hz|exact Hzero].
Qed.

End PoolingFacts.

End EmbedderFacts.

(** ** The example data, evaluated *)

Module ExampleFacts.
Import Geometry Embedder EmbedderSpec EmbedderFacts Examples.
Local Open Scope R_scope.

(** Closes an equation between two concrete vectors, entry by entry. *)
Ltac vec_eq := repeat (f_equal; try lra); try reflexivity.

Lemma resample_a : resample mask_a 2 5 = Some cov_a.
Proof. reflexivity. Qed.
Lemma resample_b : resample mask_b 2 5 = Some cov_b.
Proof. reflexivity. Qed.
Lemma resample_c : resample mask_c 2 5 = Some cov_c.
Proof. reflexivity. Qed.
Lemma resample_full : resample mask_full 2 2 = Some cov_full.
Proof. reflexivity. Qed.
Lemma resample_empty h w : resample mask_empty h w = None.
Proof. reflexivity. Qed.

Lemma sum_sq_e1 : sum_sq e1 = 1.
Proof. unfold sum_sq, e1. simpl. lra. Qed.
Lemma sum_sq_e2 : sum_sq e2 = 1.
Proof. unfold sum_sq, e2. simpl. lra. Qed.
Lemma sum_sq_e3 : sum_sq e3 = 1.
Proof. unfold sum_sq, e3. simpl. lra. Qed.

Lemma norm2_e1 : norm2 e1 = 1.
Proof. unfold norm2. rewrite sum_sq_e1. apply sqrt_1. Qed.

Lemma averaged_a : averaged grid0 cov_a = e1.
Proof.
  unfold averaged.
  change (selection grid0 cov_a) with
    [true; false; false; true; false; false; false; false; false; false].
  unfold mean_dim0, boolean_index, vadd, e1. simpl. vec_eq.
Qed.

Lemma averaged_b : averaged grid0 cov_b = e2.
Proof.
  unfold averaged.
  change (selection grid0 cov_b) with
    [true; false; false; false; true; false; false; false; false; false].
  unfold mean_dim0, boolean_index, vadd, e2. simpl. vec_eq.
Qed.

Lemma averaged_c : averaged grid0 cov_c = e3.
Proof.
  unfold averaged.
  change (selection grid0 cov_c) with
    [false; false; false; false; false; false; false; true; false; false].
  unfold mean_dim0, boolean_index, vadd, e3. simpl. vec_eq.
Qed.

Lemma averaged_zero_grid : averaged grid1 cov_full = [0; 0].
Proof.
  unfold averaged.
  change (selection grid1 cov_full) with [true; true; true; true].
  unfold mean_dim0, boolean_index, vadd. simpl. vec_eq.
Qed.

Lemma averaged_cancelling : averaged grid2 cov_full = [0; 0].
Proof.
  unfold averaged.
  change (selection grid2 cov_full) with [true; true; true; true].
  unfold mean_dim0, boolean_index, vadd. simpl. vec_eq.
Qed.

Lemma pooled_a : pooled grid0 cov_a = e1.
Proof. unfold pooled. rewrite averaged_a. apply normalize_unit, sum_sq_e1. Qed.
Lemma pooled_b : pooled grid0 cov_b = e2.
Proof. unfold pooled. rewrite averaged_b. apply normalize_unit, sum_sq_e2. Qed.
Lemma pooled_c : pooled grid0 cov_c = e3.
Proof. unfold pooled. rewrite averaged_c. apply normalize_unit, sum_sq_e3. Qed.

Lemma zero2_all_zero : Forall (fun x => x = 0) [0; 0].
Proof. repeat constructor. Qed.

Lemma norm2_zero2 : norm2 [0; 0] = 0.
Proof.
  unfold norm2, sum_sq. simpl.
  replace (0 * 0 + (0 * 0 + 0)) with 0 by lra. apply sqrt_0.
Qed.

Lemma pooled_zero_grid : pooled grid1 cov_full = [0; 0].
Proof.
  unfold pooled. rewrite averaged_zero_grid. apply normalize_zero, zero2_all_zero.
Qed.

Lemma pooled_cancelling : pooled grid2 cov_full = [0; 0].
Proof.
  unfold pooled. rewrite averaged_cancelling. apply normalize_zero, zero2_all_zero.
Qed.

(** C2, witness: image 0 and the mask with true pixels at columns 0 and 3;
    the two selected patch vectors average to a vector of norm 1. *)
Lemma ffa_unit_norm_witness :
  exists emb,
    compute_ffa_embedding patch_embeddings resample 0%nat mask_a = ([], Return emb) /\
    returns (compute_batch_ffa_embeddings patch_embeddings resample 0%nat [mask_a])
            [emb] /\
    norm2 emb = 1.
Proof.
  destruct (ffa_unit_norm patch_embeddings resample 0%nat mask_a cov_a resample_a)
    as (emb & H1 & H2 & _ & H4 & _).
  - change (patch_embeddings 0) with grid0. rewrite averaged_a, norm2_e1.
    unfold normalize_eps. lra.
  - exists emb. split; [exact H1|]. split; [exact H2|exact H4].
Defined.

(** C2, counterexample: image 1, whose patch vectors are all zero, and the
    all-true mask.  Every patch is selected, and the descriptor the pooler
    returns is [0, 0], of norm 0. *)
Lemma zero_grid_descriptor_not_unit :
  binarize cov_full = [true; true; true; true] /\
  compute_ffa_embedding patch_embeddings resample 1%nat mask_full =
    ([], Return [0; 0]) /\
  compute_batch_ffa_embeddings patch_embeddings resample 1%nat [mask_full] =
    ret [[0; 0]] /\
  norm2 [0; 0] <> 1.
Proof.
  split; [reflexivity|]. split; [|split].
  - rewrite (compute_ffa_embedding_eq patch_embeddings resample 1%nat mask_full
               cov_full resample_full).
    change (patch_embeddings 1) with grid1. rewrite pooled_zero_grid. reflexivity.
  - rewrite (batch_single_eq patch_embeddings resample 1%nat mask_full
               cov_full resample_full).
    change (patch_embeddings 1) with grid1. rewrite pooled_zero_grid. reflexivity.
  - rewrite norm2_zero2. lra.
Qed.

(** C3, witness: image 1 (all patch vectors zero) and the all-true mask. *)
Lemma zero_norm_returns_zero_vector_witness :
  exists emb,
    returns (compute_ffa_embedding patch_embeddings resample 1%nat mask_full) emb /\
    Forall (fun x => x = 0) emb.
Proof.
  destruct (zero_norm_returns_zero_vector patch_embeddings resample 1%nat
              mask_full cov_full resample_full)
    as (emb & H1 & _ & H3 & _).
  - change (patch_embeddings 1) with grid1.
    rewrite averaged_zero_grid. exact norm2_zero2.
  - exists emb. split; [exact H1|exact H3].
Defined.

(** C3, counterexample: image 2, whose four patch vectors cancel, and the
    all-true mask.  The averaged vector has norm 0, and the pooler returns
    the vector [0, 0] without raising or printing anything. *)
Lemma cancelling_patches_no_error :
  norm2 (averaged (patch_embeddings 2) cov_full) = 0 /\
  compute_ffa_embedding patch_embeddings resample 2%nat mask_full =
    ([], Return [0; 0]) /\
  ~ raises (compute_ffa_embedding patch_embeddings resample 2%nat mask_full).
Proof.
  assert (E : compute_ffa_embedding patch_embeddings resample 2%nat mask_full =
              ([], Return [0; 0])).
  { rewrite (compute_ffa_embedding_eq patch_embeddings resample 2%nat mask_full
               cov_full resample_full).
    change (patch_embeddings 2) with grid2. rewrite pooled_cancelling. reflexivity. }
  split; [|split; [exact E|]].
  - change (patch_embeddings 2) with grid2.
    rewrite averaged_cancelling. exact norm2_zero2.
  - rewrite E. intros [e He]. discriminate He.
Qed.

End ExampleFacts.

(** ** Greedy suppression *)

Module NmsFacts.
Import Geometry GeometrySpec GeometryFacts Embedder Matcher MatcherSpec.

Section Nms.
Variable self : InstanceMatcher.
Variable candidates : list MatchResult.

Lemma nms_inner_eq cand U j cj :
  candidates !! j = Some cj ->
  nms_inner self candidates cand U j =
    ret (if bool_decide (j ∈ U) then U
         else if over self (bbox cand) (bbox cj) then {[ j ]} ∪ U else U).
Proof.
  intros Hj. unfold nms_inner, index, over.
  destruct (bool_decide (j ∈ U)); [reflexivity|].
  rewrite Hj, bind_ret_l, bbox_iou_total, bind_ret_l.
  destruct (Qltb _ _); reflexivity.
Qed.

(** The inner loop over [range(a, a + len)]: it adds exactly the indices
    whose box overlaps that of [cand] above the threshold. *)
Lemma inner_loop i cand : candidates !! i = Some cand ->
  forall len a U, (a + len <= length candidates)%nat ->
  exists U', for_each (nms_inner self candidates cand) (seq a len) U = ret U' /\
    forall j, j ∈ U' <->
              j ∈ U \/ ((a <= j < a + len)%nat /\ over_at self candidates i j = true).
Proof.
  intros Hi. induction len as [|len IH]; intros a U Hlen.
  - exists U. split; [reflexivity|]. intros j. split; [auto|].
    intros [H|[H _]]; [exact H|lia].
  - simpl seq. simpl for_each.
    destruct (lookup_lt_is_Some_2 candidates a) as [ca Hca]; [lia|].
    rewrite (nms_inner_eq _ _ _ _ Hca), bind_ret_l.
    edestruct (IH (Datatypes.S a)) as [U' [E HS']]; [lia|].
    exists U'. split; [exact E|]. intros j. rewrite HS'.
    assert (Hov : over_at self candidates i a = over self (bbox cand) (bbox ca)).
    { unfold over_at. rewrite Hi, Hca. reflexivity. }
    destruct (bool_decide (a ∈ U)) eqn:Ea.
    + apply bool_decide_eq_true in Ea. split.
      * intros [H|[H1 H2]]; [left; exact H|right; split; [lia|exact H2]].
      * intros [H|[H1 H2]]; [left; exact H|].
        destruct (Nat.eq_dec j a) as [->|Hne]; [left; exact Ea|].
        right. split; [lia|exact H2].
    + destruct (over self (bbox cand) (bbox ca)) eqn:Eo.
      * split.
        -- intros [H|[H1 H2]].
           ++ apply elem_of_union in H. destruct H as [H|H]; [|left; exact H].
              apply elem_of_singleton in H. subst j. right. split; [lia|].
              rewrite Hov. reflexivity.
           ++ right. split; [lia|exact H2].
        -- intros [H|[H1 H2]]; [left; apply elem_of_union; right; exact H|].
           destruct (Nat.eq_dec j a) as [->|Hne].
           { left. apply elem_of_union. left. apply elem_of_singleton. reflexivity. }
           right. split; [lia|exact H2].
      * split.
        -- intros [H|[H1 H2]]; [left; exact H|right; split; [lia|exact H2]].
        -- intros [H|[H1 H2]]; [left; exact H|].
           destruct (Nat.eq_dec j a) as [->|Hne]; [congruence|].
           right. split; [lia|exact H2].
Qed.

Lemma kept_from_cons a c l (U : gset nat) :
  kept_from a (c :: l) U =
    if bool_decide (a ∈ U) then kept_from (S a) l U
    else c :: kept_from (S a) l U.
Proof. unfold kept_from. simpl. destruct (bool_decide (a ∈ U)); reflexivity. Qed.

Lemma kept_from_ext a l (U U' : gset nat) :
  (forall k, (a <= k < a + length l)%nat -> ((k ∈ U) <-> (k ∈ U'))) ->
  kept_from a l U = kept_from a l U'.
Proof.
  revert a. induction l as [|c l IH]; intros a H; [reflexivity|].
  rewrite !kept_from_cons. simpl in H.
  rewrite (IH (S a)) by (intros k Hk; apply H; lia).
  assert (Ha : (a ∈ U) <-> (a ∈ U')) by (apply H; lia).
  destruct (bool_decide (a ∈ U)) eqn:E1, (bool_decide (a ∈ U')) eqn:E2;
    try reflexivity.
  - apply bool_decide_eq_true in E1. apply bool_decide_eq_false in E2. tauto.
  - apply bool_decide_eq_false in E1. apply bool_decide_eq_true in E2. tauto.
Qed.

Lemma kept_from_snoc a l c (U : gset nat) :
  kept_from a (l ++ [c]) U =
    kept_from a l U ++ (if bool_decide ((a + length l)%nat ∈ U) then [] else [c]).
Proof.
  revert a. induction l as [|d l IH]; intros a.
  - simpl app. rewrite kept_from_cons. simpl length. rewrite Nat.add_0_r.
    destruct (bool_decide (a ∈ U)); reflexivity.
  - simpl app. rewrite !kept_from_cons, IH. simpl length.
    replace (S a + length l)%nat with (a + S (length l))%nat by lia.
    destruct (bool_decide (a ∈ U)); reflexivity.
Qed.

Lemma kept_from_empty a l : kept_from a l ∅ = l.
Proof.
  revert a. induction l as [|c l IH]; intros a; [reflexivity|].
  rewrite kept_from_cons, IH. reflexivity.
Qed.

Lemma kept_from_in a l (U : gset nat) m :
  In m (kept_from a l U) ->
  exists k, (a <= k)%nat /\ l !! (k - a)%nat = Some m /\ k ∉ U.
Proof.
  revert a. induction l as [|c l IH]; intros a; [intros []|].
  rewrite kept_from_cons.
  assert (Htail : In m (kept_from (S a) l U) ->
            exists k, (a <= k)%nat /\ (c :: l) !! (k - a)%nat = Some m /\ k ∉ U).
  { intros H. destruct (IH _ H) as (k & Hk & Hl & HU). exists k.
    split; [lia|]. split; [|exact HU].
    replace (k - a)%nat with (S (k - S a)) by lia. exact Hl. }
  destruct (bool_decide (a ∈ U)) eqn:E; [exact Htail|].
  intros [<-|H]; [|apply Htail; exact H].
  exists a. split; [lia|]. rewrite Nat.sub_diag. split; [reflexivity|].
  apply bool_decide_eq_false in E. exact E.
Qed.

Lemma kept_from_sublist a l (U : gset nat) : sublist (kept_from a l U) l.
Proof.
  revert a. induction l as [|c l IH]; intros a; [constructor|].
  rewrite kept_from_cons. destruct (bool_decide (a ∈ U)).
  - apply sublist_cons. apply IH.
  - apply sublist_skip. apply IH.
Qed.

Lemma outer_loop rest : forall pre kept (U : gset nat),
  candidates = pre ++ rest ->
  kept = kept_from 0 pre U ->
  (forall j, j ∈ U <->
     (j < length candidates)%nat /\
     exists k, (k < length pre)%nat /\ (k < j)%nat /\ (k ∉ U) /\
               over_at self candidates k j = true) ->
  exists U',
    for_each (nms_outer self candidates)
             (combine (seq (length pre) (length rest)) rest) (kept, U)
      = ret (kept_from 0 candidates U', U') /\
    suppression self candidates U'.
Proof.
  induction rest as [|c rest IH]; intros pre kept U Hc Hk HU.
  - exists U. rewrite app_nil_r in Hc. subst pre kept. split; [reflexivity|].
    intros j. rewrite HU. split.
    + intros [Hj (k & _ & H)]. split; [exact Hj|]. exists k. exact H.
    + intros [Hj (k & Hkj & H)]. split; [exact Hj|]. exists k.
      split; [lia|]. split; [exact Hkj|exact H].
  - simpl length. simpl seq. simpl combine. simpl for_each.
    assert (Hi : candidates !! length pre = Some c).
    { rewrite Hc. rewrite list_lookup_middle; reflexivity. }
    assert (Hn : length candidates = (length pre + S (length rest))%nat).
    { rewrite Hc, length_app. reflexivity. }
    assert (Hc' : candidates = (pre ++ [c]) ++ rest).
    { rewrite <- app_assoc. exact Hc. }
    assert (Hlen' : length (pre ++ [c]) = S (length pre)).
    { rewrite length_app. simpl. lia. }
    unfold nms_outer at 1.
    destruct (bool_decide (length pre ∈ U)) eqn:Ei.
    + apply bool_decide_eq_true in Ei. rewrite bind_ret_l.
      specialize (IH (pre ++ [c]) kept U Hc').
      rewrite Hlen' in IH. apply IH.
      * rewrite kept_from_snoc. simpl.
        rewrite (bool_decide_eq_true_2 _ Ei), app_nil_r. exact Hk.
      * intros j. rewrite HU. split.
        -- intros [Hj (k & Hk1 & H)]. split; [exact Hj|]. exists k.
           split; [lia|exact H].
        -- intros [Hj (k & Hk1 & Hk2 & Hk3 & Hk4)]. split; [exact Hj|].
           exists k. split; [|auto].
           destruct (Nat.eq_dec k (length pre)) as [->|Hne]; [tauto|lia].
    + apply bool_decide_eq_false in Ei.
      unfold range.
      destruct (inner_loop _ _ Hi (length candidates - (length pre + 1))
                  (length pre + 1)%nat U) as [U1 [E HU1]]; [lia|].
      rewrite E, !bind_ret_l.
      specialize (IH (pre ++ [c]) (kept ++ [c]) U1 Hc').
      rewrite Hlen' in IH. apply IH.
      * rewrite kept_from_snoc. simpl.
        assert (Hni : length pre ∉ U1).
        { rewrite HU1. intros [H|[H _]]; [tauto|lia]. }
        rewrite (bool_decide_eq_false_2 _ Hni). f_equal.
        rewrite Hk. apply kept_from_ext. intros k Hk1. rewrite HU1.
        split; [auto|]. intros [H|[H _]]; [exact H|lia].
      * intros j. rewrite HU1, HU. split.
        -- intros [[Hj (k & Hk1 & Hk2 & Hk3 & Hk4)]|[Hj Ho]].
           ++ split; [exact Hj|]. exists k. split; [lia|]. split; [exact Hk2|].
              split; [|exact Hk4]. rewrite HU1. intros [H|[H _]]; [tauto|lia].
           ++ split; [lia|]. exists (length pre). split; [lia|]. split; [lia|].
              split; [|exact Ho]. rewrite HU1. intros [H|[H _]]; [tauto|lia].
        -- intros [Hj (k & Hk1 & Hk2 & Hk3 & Hk4)].
           destruct (Nat.eq_dec k (length pre)) as [->|Hne].
           ++ right. split; [lia|exact Hk4].
           ++ left. split; [exact Hj|]. exists k. split; [lia|].
              split; [exact Hk2|]. split; [|exact Hk4].
              intros H. apply Hk3. rewrite HU1. left. exact H.
Qed.

(** The loops of [_nms] always terminate without an error. *)
Lemma nms_run_spec :
  exists U, nms_run self candidates = ret (kept_from 0 candidates U, U) /\
            suppression self candidates U.
Proof.
  unfold nms_run, enumerate.
  apply (outer_loop candidates [] [] ∅); [reflexivity|reflexivity|].
  intros j. split.
  - intros H. apply not_elem_of_empty in H. destruct H.
  - intros [_ (k & Hk & _)]. simpl in Hk. lia.
Qed.

Lemma nms_eq U kept :
  nms_run self candidates = ret (kept, U) -> _nms self candidates = ret kept.
Proof.
  unfold nms_run, _nms. destruct candidates as [|c l] eqn:E.
  - simpl. unfold ret. intros H. inversion H. reflexivity.
  - intros H. rewrite H, bind_ret_l. reflexivity.
Qed.

Lemma nms_total : exists kept, _nms self candidates = ret kept.
Proof.
  destruct nms_run_spec as [U [E _]]. eexists. eapply nms_eq. exact E.
Qed.

(** Among the kept candidates no earlier one overlaps a later one above
    the threshold. *)
Lemma kept_no_overlap (U : gset nat) :
  suppression self candidates U ->
  StronglySorted (fun a b => over self (bbox a) (bbox b) = false)
                 (kept_from 0 candidates U).
Proof.
  intros HU.
  assert (G : forall l pre, candidates = pre ++ l ->
            StronglySorted (fun a b => over self (bbox a) (bbox b) = false)
                           (kept_from (length pre) l U)).
  { induction l as [|c l IH]; intros pre Hc; [constructor|].
    rewrite kept_from_cons.
    assert (Hc' : candidates = (pre ++ [c]) ++ l) by (rewrite <- app_assoc; exact Hc).
    specialize (IH _ Hc'). rewrite length_app in IH. simpl in IH.
    rewrite Nat.add_1_r in IH.
    destruct (bool_decide (length pre ∈ U)) eqn:E; [exact IH|].
    apply bool_decide_eq_false in E.
    constructor; [exact IH|]. apply Forall_forall. intros m Hm.
    apply list_elem_of_In, kept_from_in in Hm. destruct Hm as (j & Hj & Hl & HjU).
    destruct (over self (bbox c) (bbox m)) eqn:Eo; [|reflexivity].
    exfalso. apply HjU. apply HU.
    assert (Hcj : candidates !! j = Some m).
    { rewrite Hc'. rewrite lookup_app_r; rewrite length_app; simpl; [|lia].
      replace (j - (length pre + 1))%nat with (j - S (length pre))%nat by lia.
      exact Hl. }
    split; [apply lookup_lt_Some in Hcj; exact Hcj|].
    exists (length pre). split; [lia|]. split; [exact E|].
    unfold over_at. rewrite Hcj.
    rewrite Hc, list_lookup_middle by reflexivity. exact Eo. }
  apply (G candidates []). reflexivity.
Qed.

(** When no earlier candidate
    overlaps a later one above the threshold, nothing is suppressed. *)
Lemma nms_nothing_suppressed :
  (forall k j, (k < j)%nat -> over_at self candidates k j = false) ->
  _nms self candidates = ret candidates.
Proof.
  intros H. destruct nms_run_spec as [U [E HU]].
  rewrite (nms_eq _ _ E). f_equal.
  rewrite <- (kept_from_empty 0 candidates) at 2.
  apply kept_from_ext. intros k _. split.
  - intros Hk. apply HU in Hk. destruct Hk as [_ (k' & Hlt & _ & Ho)].
    rewrite H in Ho by exact Hlt. discriminate.
  - intros Hk. apply not_elem_of_empty in Hk. destruct Hk.
Qed.

Lemma kept_from_in_intro a l (U : gset nat) k m :
  (a <= k)%nat -> l !! (k - a)%nat = Some m -> k ∉ U -> In m (kept_from a l U).
Proof.
  revert a. induction l as [|c l IH]; intros a Hk Hl HU.
  - rewrite lookup_nil in Hl. discriminate.
  - rewrite kept_from_cons. destruct (decide (k = a)) as [->|Hne].
    + rewrite Nat.sub_diag in Hl. simpl in Hl. inversion Hl; subst.
      rewrite bool_decide_eq_false_2 by exact HU. left. reflexivity.
    + assert (Hin : In m (kept_from (S a) l U)).
      { apply IH; [lia| |exact HU].
        replace (k - a)%nat with (S (k - S a)) in Hl by lia. exact Hl. }
      destruct (bool_decide (a ∈ U)); [exact Hin|right; exact Hin].
Qed.

(** Without repeated candidates, an index is outside the suppressed set
    exactly when its candidate is in the kept list. *)
Lemma kept_from_NoDup (U : gset nat) k ck :
  NoDup candidates -> candidates !! k = Some ck ->
  In ck (kept_from 0 candidates U) <-> k ∉ U.
Proof.
  intros Hnd Hk. split.
  - intros Hin. apply kept_from_in in Hin. destruct Hin as (k' & _ & Hl & HU).
    rewrite Nat.sub_0_r in Hl.
    rewrite (NoDup_lookup _ _ _ _ Hnd Hk Hl). exact HU.
  - intros HU. apply (kept_from_in_intro 0 candidates U k); [lia| |exact HU].
    rewrite Nat.sub_0_r. exact Hk.
Qed.

(** A candidate on the same box as an earlier one is suppressed whenever
    the earlier one is. *)
Lemma later_duplicate_follows (U : gset nat) i j ci cj :
  suppression self candidates U ->
  (i < j)%nat -> candidates !! i = Some ci -> candidates !! j = Some cj ->
  bbox ci = bbox cj -> i ∈ U -> j ∈ U.
Proof.
  intros HU Hij Hi Hj Hb Hin.
  assert (Hjn : (j < length candidates)%nat) by (apply lookup_lt_Some in Hj; exact Hj).
  apply HU in Hin. destruct Hin as [_ (k & Hk & HkU & Ho)].
  apply HU. split; [exact Hjn|]. exists k. split; [lia|]. split; [exact HkU|].
  unfold over_at in *. rewrite Hi in Ho. rewrite Hj.
  destruct (candidates !! k); [|discriminate]. rewrite <- Hb. exact Ho.
Qed.

(** The later of two candidates on one box that overlaps itself above the
    threshold is always suppressed. *)
Lemma later_duplicate_suppressed (U : gset nat) i j ci cj :
  suppression self candidates U ->
  (i < j)%nat -> candidates !! i = Some ci -> candidates !! j = Some cj ->
  bbox ci = bbox cj -> over self (bbox ci) (bbox cj) = true ->
  j ∈ U.
Proof.
  intros HU Hij Hi Hj Hb Hself.
  assert (Hjn : (j < length candidates)%nat) by (apply lookup_lt_Some in Hj; exact Hj).
  destruct (decide (i ∈ U)) as [Hin|Hnin].
  - eapply later_duplicate_follows; eauto.
  - apply HU. split; [exact Hjn|]. exists i. split; [exact Hij|].
    split; [exact Hnin|]. unfold over_at. rewrite Hi, Hj. exact Hself.
Qed.

End Nms.

Lemma StronglySorted_sublist {A} (R : A -> A -> Prop) (l1 l2 : list A) :
  sublist l1 l2 -> StronglySorted R l2 -> StronglySorted R l1.
Proof.
  induction 1 as [|x l1 l2 Hs IH|x l1 l2 Hs IH]; intros H.
  - constructor.
  - inversion H as [|? ? Hl Hx]; subst. constructor; [apply IH; exact Hl|].
    apply Forall_forall. intros y Hy. rewrite Forall_forall in Hx. apply Hx.
    eapply elem_of_sublist; [exact Hy|exact Hs].
  - inversion H; subst. apply IH. assumption.
Qed.

Lemma StronglySorted_lookup {A} (R : A -> A -> Prop) (l : list A) i j a b :
  StronglySorted R l -> (i < j)%nat -> l !! i = Some a -> l !! j = Some b -> R a b.
Proof.
  intros H. revert i j. induction H as [|x l Hl IH Hx]; intros i j Hij Hi Hj.
  - rewrite lookup_nil in Hi. discriminate.
  - destruct j as [|j]; [lia|]. simpl in Hj. destruct i as [|i].
    + simpl in Hi. inversion Hi; subst. rewrite Forall_forall in Hx. apply Hx.
      eapply list_elem_of_lookup_2. exact Hj.
    + simpl in Hi. apply (IH i j); [lia|exact Hi|exact Hj].
Qed.

Lemma over_true (self : InstanceMatcher) (b1 b2 : Box) (v : Q) :
  returns (bbox_iou b1 b2) v -> (nms_iou_threshold self < v)%Q ->
  over self b1 b2 = true.
Proof.
  intros Hv Hlt. unfold returns in Hv. rewrite bbox_iou_total in Hv.
  inversion Hv; subst. unfold over, Qltb. apply negb_true_iff.
  destruct (Qle_bool (iou_value b1 b2) (nms_iou_threshold self)) eqn:E;
    [|reflexivity].
  apply Qle_bool_iff in E. exfalso. exact (Qlt_not_le _ _ Hlt E).
Qed.

(** C6, as the code has it.  If all pairwise overlaps are below the
    threshold, the output is the input.  In general the output is the input
    without the candidates at a set [dropped] of indices, and for two
    candidates that share a box: the later one is kept only if the earlier
    one is; when the IoU of the shared box with itself exceeds the threshold
    (it is 1 for a box of positive width and height, 0 otherwise), the later
    one is dropped, and the earlier one is kept exactly when no candidate
    kept before it overlaps it above the threshold; on similarity-sorted
    input the earlier one has the higher similarity, or the same.  When no
    candidate occurs twice in the input, the candidates at the dropped
    indices are exactly those missing from the output. *)
Theorem nms_unchanged_or_deduplicated (self : InstanceMatcher)
    (candidates : list MatchResult) :
  ((forall i j ci cj v, i <> j ->
      candidates !! i = Some ci -> candidates !! j = Some cj ->
      returns (bbox_iou (bbox ci) (bbox cj)) v ->
      (v < nms_iou_threshold self)%Q) ->
   _nms self candidates = ret candidates) /\
  exists dropped : gset nat,
    _nms self candidates = ret (kept_from 0 candidates dropped) /\
    (NoDup candidates ->
     forall k ck, candidates !! k = Some ck ->
       (In ck (kept_from 0 candidates dropped) <-> k ∉ dropped)) /\
    (forall i j ci cj, (i < j)%nat ->
       candidates !! i = Some ci -> candidates !! j = Some cj ->
       bbox ci = bbox cj ->
       (j ∉ dropped -> i ∉ dropped) /\
       (forall v, returns (bbox_iou (bbox ci) (bbox cj)) v ->
          (nms_iou_threshold self < v)%Q ->
          j ∈ dropped /\
          (i ∉ dropped <->
             forall k, (k < i)%nat -> k ∉ dropped ->
                       over_at self candidates k i = false)) /\
       (StronglySorted desc candidates -> (similarity cj <= similarity ci)%R)).
Proof.
  split.
  - intros H. apply nms_nothing_suppressed. intros k j Hkj.
    unfold over_at.
    destruct (candidates !! k) as [ck|] eqn:Ek; [|reflexivity].
    destruct (candidates !! j) as [cj|] eqn:Ej; [|reflexivity].
    assert (Hv : (iou_value (bbox ck) (bbox cj) < nms_iou_threshold self)%Q).
    { apply (H k j ck cj); [lia|exact Ek|exact Ej|].
      unfold returns. rewrite bbox_iou_total. reflexivity. }
    unfold over, Qltb. apply negb_false_iff. apply Qle_bool_iff.
    apply Qlt_le_weak. exact Hv.
  - destruct (nms_run_spec self candidates) as [U [E HU]].
    exists U. split; [exact (nms_eq _ _ _ _ E)|].
    split; [intros Hnd k ck Hk; apply kept_from_NoDup; assumption|].
    intros i j ci cj Hij Hi Hj Hb.
    assert (Hin : (i < length candidates)%nat).
    { apply lookup_lt_Some in Hi. exact Hi. }
    split; [|split].
    + intros HjU HiU. apply HjU.
      exact (later_duplicate_follows _ _ _ _ _ _ _ HU Hij Hi Hj Hb HiU).
    + intros v Hv Hlt.
      split.
      * eapply later_duplicate_suppressed; eauto. eapply over_true; eauto.
      * split.
        -- intros HiU k Hk HkU.
           destruct (over_at self candidates k i) eqn:Eo; [|reflexivity].
           exfalso. apply HiU. apply HU. split; [exact Hin|].
           exists k. split; [exact Hk|]. split; [exact HkU|exact Eo].
        -- intros H HiU. apply HU in HiU.
           destruct HiU as [_ (k & Hk & HkU & Ho)].
           rewrite H in Ho; [discriminate|exact Hk|exact HkU].
    + intros Hs. exact (StronglySorted_lookup _ _ _ _ _ _ Hs Hij Hi Hj).
Qed.

Lemma same_box_triple_run :
  nms_run Examples.default_matcher Examples.same_box_triple =
    ret ([Examples.cand Examples.box_near (9/10)], {[ 1%nat; 2%nat ]}).
Proof. vm_compute. reflexivity. Qed.

Lemma cand_similarity_neq (b1 b2 : Box) (s1 s2 : R) :
  s1 <> s2 -> Examples.cand b1 s1 <> Examples.cand b2 s2.
Proof. intros Hne H. apply Hne. inversion H. reflexivity. Qed.

(** C6, counterexample.  Two candidates on one box, and not exactly one of
    them in the output, default threshold 0.5.  On the box of an all-false
    mask, which has IoU 0 with itself, both are kept.  Behind a candidate
    whose box overlaps theirs with IoU 0.9, both are dropped. *)
Lemma nms_identical_pair_not_exactly_one :
  (bbox (Examples.cand zero_box (9/10)) = bbox (Examples.cand zero_box (8/10)) /\
   _nms Examples.default_matcher Examples.zero_box_pair =
     ret [Examples.cand zero_box (9/10); Examples.cand zero_box (8/10)]) /\
  (bbox (Examples.cand Examples.box_low (8/10)) =
     bbox (Examples.cand Examples.box_low (7/10)) /\
   _nms Examples.default_matcher Examples.shadowed_pair =
     ret [Examples.cand Examples.box_near (9/10)]).
Proof.
  split; (split; [reflexivity|]).
  - apply (nms_eq _ _ ∅). vm_compute. reflexivity.
  - apply (nms_eq _ _ {[ 1%nat; 2%nat ]}). vm_compute. reflexivity.
Qed.

(** C6, witness: two candidates on disjoint boxes come back unchanged; of
    two candidates on the same 10 x 10 box the output holds the first and
    not the second. *)
Lemma nms_unchanged_or_deduplicated_witness :
  _nms Examples.default_matcher Examples.apart_pair = ret Examples.apart_pair /\
  exists kept,
    _nms Examples.default_matcher Examples.same_box_pair = ret kept /\
    In (Examples.cand Examples.box_near (9/10)) kept /\
    ~ In (Examples.cand Examples.box_near (8/10)) kept.
Proof.
  split.
  - apply (proj1 (nms_unchanged_or_deduplicated Examples.default_matcher
                    Examples.apart_pair)).
    intros i j ci cj v Hij Hi Hj Hv.
    destruct i as [|[|i]]; destruct j as [|[|j]]; simpl in Hi, Hj;
      try discriminate; try congruence;
      inversion Hi; inversion Hj; subst;
      unfold returns in Hv; vm_compute in Hv; inversion Hv; reflexivity.
  - destruct (proj2 (nms_unchanged_or_deduplicated Examples.default_matcher
                       Examples.same_box_pair)) as (dropped & Hrun & Hin & Hpair).
    assert (Hnd : NoDup Examples.same_box_pair).
    { apply NoDup_cons. split.
      - intros H. apply list_elem_of_In in H. destruct H as [H|[]].
        symmetry in H. revert H. apply cand_similarity_neq. lra.
      - apply NoDup_singleton. }
    destruct (Hpair 0%nat 1%nat (Examples.cand Examples.box_near (9/10))
                (Examples.cand Examples.box_near (8/10)))
      as (_ & Hdup & _); [lia|reflexivity|reflexivity|reflexivity|].
    destruct (Hdup 1%Q) as [H1 H0].
    { unfold returns. vm_compute. reflexivity. }
    { reflexivity. }
    exists (kept_from 0 Examples.same_box_pair dropped).
    split; [exact Hrun|]. split.
    + apply (Hin Hnd 0%nat); [reflexivity|].
      apply H0. intros k Hk. lia.
    + intros H. apply (Hin Hnd 1%nat) in H; [|reflexivity]. exact (H H1).
Defined.

End NmsFacts.

(** ** The per-image pipeline *)

Module MatcherFacts.
Import Geometry GeometrySpec GeometryFacts Embedder EmbedderSpec EmbedderFacts.
Import Matcher MatcherSpec NmsFacts.

Lemma returns_ret {A} (a b : A) : returns (ret a) b <-> a = b.
Proof. unfold returns, ret. simpl. split; [intros H; inversion H|intros ->]; reflexivity. Qed.

Lemma returns_inj {A} (m : py A) a b : returns m a -> returns m b -> a = b.
Proof. unfold returns. intros H1 H2. rewrite H1 in H2. inversion H2. reflexivity. Qed.

Lemma returns_or_raises {A} (m : py A) : (exists a, returns m a) \/ raises m.
Proof.
  unfold returns, raises. destruct m as [l [a|e]]; simpl; [left|right]; eauto.
Qed.

Lemma bind_raises_r {A B} (m : py A) (k : A -> py B) a :
  returns m a -> raises (k a) -> raises (bind m k).
Proof.
  unfold returns, raises, bind. destruct m as [l1 [a'|e]]; simpl; intros H; inversion H; subst.
  destruct (k a) as [l2 r]. simpl. auto.
Qed.

Lemma bbox_of_eq (m : Mask) : mask_to_bbox m = ret (bbox_of m).
Proof.
  unfold bbox_of. destruct (mask_to_bbox_total m) as [b Hb]. rewrite Hb. reflexivity.
Qed.

Lemma Rgeb_true a b : Rgeb a b = true <-> (b <= a)%R.
Proof. unfold Rgeb. destruct (Rle_dec b a); split; auto; discriminate. Qed.

Lemma Rltb_true a b : Rltb a b = true <-> (a < b)%R.
Proof. unfold Rltb. destruct (Rlt_dec a b); split; auto; discriminate. Qed.

Lemma Rltb_false a b : Rltb a b = false <-> (b <= a)%R.
Proof.
  unfold Rltb. destruct (Rlt_dec a b); split; auto; try discriminate; lra.
Qed.

(** *** Sorting *)

Lemma insert_desc_in x l z : In z (insert_desc x l) <-> z = x \/ In z l.
Proof.
  induction l as [|y l IH]; simpl.
  - split; [intros [H|[]]; auto|intros [H|[]]; auto].
  - destruct (Rltb (similarity x) (similarity y)); simpl.
    + rewrite IH. tauto.
    + split; intros H; intuition (subst; auto).
Qed.

Lemma insert_desc_sorted x l :
  StronglySorted desc l -> StronglySorted desc (insert_desc x l).
Proof.
  induction 1 as [|y l Hl IH Hy]; simpl.
  - constructor; constructor.
  - destruct (Rltb (similarity x) (similarity y)) eqn:E.
    + apply Rltb_true in E. constructor; [exact IH|].
      apply Forall_forall. intros z Hz. apply list_elem_of_In, insert_desc_in in Hz.
      destruct Hz as [->|Hz]; [unfold desc; lra|].
      rewrite Forall_forall in Hy. apply Hy. apply list_elem_of_In. exact Hz.
    + apply Rltb_false in E. constructor; [constructor; assumption|].
      constructor; [exact E|].
      apply Forall_forall. intros z Hz. rewrite Forall_forall in Hy.
      specialize (Hy z Hz). unfold desc in *. lra.
Qed.

Lemma sort_desc_sorted l : StronglySorted desc (sort_desc l).
Proof.
  induction l as [|x l IH]; simpl; [constructor|].
  apply insert_desc_sorted. exact IH.
Qed.

(** The sort only reorders the list, *)
Lemma sort_desc_permutation l : Permutation (sort_desc l) l.
Proof.
  induction l as [|x l IH]; simpl; [constructor|].
  transitivity (x :: sort_desc l); [|constructor; exact IH].
  generalize (sort_desc l) as s. clear. induction s as [|y s IH]; simpl.
  - reflexivity.
  - destruct (Rltb (similarity x) (similarity y)); [|reflexivity].
    transitivity (y :: x :: s); [constructor; exact IH|apply perm_swap].
Qed.

(** and it leaves a list that is already in descending order, ties
    included, as it is. *)
Lemma sort_desc_sorted_id l : StronglySorted desc l -> sort_desc l = l.
Proof.
  induction 1 as [|x l Hl IH Hx]; simpl; [reflexivity|].
  rewrite IH. destruct l as [|y l]; [reflexivity|]. simpl.
  inversion Hx as [|? ? Hy _]; subst.
  apply Rltb_false in Hy. rewrite Hy. reflexivity.
Qed.

(** *** Step 4: the similarity filter *)

Lemma collect_loop self embs : forall items acc,
  (forall item, In item items -> (fst item < length embs)%nat) ->
  for_each (collect_candidate self embs) items acc =
    ret (acc ++ retained (similarity_threshold self) embs items).
Proof.
  induction items as [|[i [sim p]] items IH]; intros acc Hlen.
  - simpl. unfold retained. simpl. rewrite app_nil_r. reflexivity.
  - simpl for_each. unfold collect_candidate at 1. unfold retained. simpl List.filter.
    destruct (Rgeb sim (similarity_threshold self)) eqn:E.
    + rewrite bbox_of_eq, bind_ret_l. unfold index.
      destruct (lookup_lt_is_Some_2 embs i) as [emb Hemb].
      { apply (Hlen (i, (sim, p))). left. reflexivity. }
      rewrite Hemb, !bind_ret_l.
      rewrite IH by (intros item Hitem; apply Hlen; right; exact Hitem).
      unfold retained. simpl map. unfold candidate_of at 1.
      unfold vec in *. rewrite Hemb. simpl default.
      rewrite <- app_assoc. reflexivity.
    + rewrite bind_ret_l.
      rewrite IH by (intros item Hitem; apply Hlen; right; exact Hitem).
      reflexivity.
Qed.

Lemma enumerate_index {A} (l : list A) (item : nat * A) :
  In item (enumerate l) -> (fst item < length l)%nat.
Proof.
  unfold enumerate. destruct item as [i x]. intros H.
  apply in_combine_l in H. apply in_seq in H. simpl. lia.
Qed.

Lemma sublist_map {A B} (f : A -> B) (l1 l2 : list A) :
  sublist l1 l2 -> sublist (map f l1) (map f l2).
Proof. induction 1; simpl; constructor; assumption. Qed.

Lemma sublist_filter_mono {A} (P Q : A -> bool) (l : list A) :
  (forall x, P x = true -> Q x = true) ->
  sublist (List.filter P l) (List.filter Q l).
Proof.
  intros H. induction l as [|x l IH]; simpl; [constructor|].
  destruct (P x) eqn:EP.
  - rewrite (H x EP). constructor. exact IH.
  - destruct (Q x); [constructor|]; exact IH.
Qed.

(** C8.  For a fixed list of scored proposals and two thresholds
    [t1 <= t2], the filter returns at both thresholds, and the candidates
    retained at [t2] form a sub-sequence of those retained at [t1]: each of
    them is also retained at [t1], and there are no more of them. *)
Theorem similarity_filter_monotone (self1 self2 : InstanceMatcher)
    (proposal_embeddings : list vec) (similarities : list R)
    (proposals : list Proposal) :
  (similarity_threshold self1 <= similarity_threshold self2)%R ->
  length proposal_embeddings = length similarities ->
  exists l1 l2,
    for_each (collect_candidate self1 proposal_embeddings)
             (enumerate (combine similarities proposals)) [] = ret l1 /\
    for_each (collect_candidate self2 proposal_embeddings)
             (enumerate (combine similarities proposals)) [] = ret l2 /\
    sublist l2 l1 /\
    (forall c, In c l2 -> In c l1) /\
    (forall c, In c l2 -> (similarity_threshold self2 <= similarity c)%R) /\
    (length l2 <= length l1)%nat.
Proof.
  intros Ht Hlen.
  assert (Hidx : forall item, In item (enumerate (combine similarities proposals)) ->
                   (fst item < length proposal_embeddings)%nat).
  { intros item H. apply enumerate_index in H. rewrite length_combine in H. lia. }
  eexists. eexists.
  split; [apply collect_loop; exact Hidx|].
  split; [apply collect_loop; exact Hidx|].
  simpl app.
  assert (Hsub : sublist
            (retained (similarity_threshold self2) proposal_embeddings
               (enumerate (combine similarities proposals)))
            (retained (similarity_threshold self1) proposal_embeddings
               (enumerate (combine similarities proposals)))).
  { unfold retained. apply sublist_map. apply sublist_filter_mono.
    intros x Hx. apply Rgeb_true in Hx. apply Rgeb_true. lra. }
  split; [exact Hsub|]. split; [|split].
  - intros c Hc. apply list_elem_of_In. eapply elem_of_sublist; [|exact Hsub].
    apply list_elem_of_In. exact Hc.
  - intros c Hc. unfold retained in Hc. apply in_map_iff in Hc.
    destruct Hc as [[i [sim p]] [<- Hin]]. apply filter_In in Hin.
    destruct Hin as [_ Hin]. apply Rgeb_true in Hin. exact Hin.
  - apply sublist_length. exact Hsub.
Qed.

Lemma map_py_length {A B} (f : A -> py B) (xs : list A) (ys : list B) :
  returns (map_py f xs) ys -> length ys = length xs.
Proof.
  revert ys. induction xs as [|x xs IH]; intros ys; cbn [map_py].
  - intros H. apply (returns_ret [] ys) in H. subst. reflexivity.
  - intros H. apply bind_returns in H. destruct H as [y [_ H]].
    apply bind_returns in H. destruct H as [ys' [H1 H2]].
    apply (returns_ret (y :: ys') ys) in H2. subst. simpl. f_equal. apply IH. exact H1.
Qed.

Lemma batch_cosine_similarity_length reference embs sims :
  returns (batch_cosine_similarity reference embs) sims ->
  length sims = length embs.
Proof.
  unfold batch_cosine_similarity. destruct embs as [|c cs].
  - destruct (DINOV2_EMBEDDING_DIM =? length reference)%nat;
      unfold returns; simpl; intros H; inversion H; reflexivity.
  - apply map_py_length.
Qed.

Lemma slice_stop_sublist {A} (l : list A) (k : Z) : sublist (slice_stop l k) l.
Proof. unfold slice_stop. destruct (k <? 0)%Z; apply sublist_take. Qed.

Lemma slice_stop_length {A} (l : list A) (k : Z) :
  (0 <= k)%Z -> (Z.of_nat (length (slice_stop l k)) <= k)%Z.
Proof.
  intros Hk. unfold slice_stop.
  destruct (k <? 0)%Z eqn:E; [apply Z.ltb_lt in E; lia|].
  rewrite length_firstn. lia.
Qed.

Lemma over_false_apart self a b :
  over self (bbox a) (bbox b) = false -> apart self a b.
Proof.
  unfold over, Qltb. intros H. apply negb_false_iff, Qle_bool_iff in H.
  intros v [Hv|Hv] Hlt; unfold returns in Hv.
  - rewrite bbox_iou_total in Hv. inversion Hv; subst.
    apply (Qlt_not_le _ _ Hlt). exact H.
  - rewrite bbox_iou_total, iou_value_sym in Hv. inversion Hv; subst.
    apply (Qlt_not_le _ _ Hlt). exact H.
Qed.

Lemma bind_print {B} (m : message) (k : unit -> py B) :
  bind (print m) k = (m :: fst (k tt), snd (k tt)).
Proof. unfold bind, print. destruct (k tt) as [l r]. reflexivity. Qed.

Section MatchingFacts.
Context {Image : Type}.
Variable generate_proposals : Image -> list Proposal.
Variable n_raw_masks : Image -> nat.
Variable patch_embeddings : Image -> PatchGrid.
Variable interpolate : Mask -> nat -> nat -> option (list Q).

Abbreviation match_in_image :=
  (match_in_image generate_proposals n_raw_masks patch_embeddings interpolate).
Abbreviation match_across_images :=
  (match_across_images generate_proposals n_raw_masks patch_embeddings interpolate).
Abbreviation compute_batch_ffa_embeddings :=
  (compute_batch_ffa_embeddings patch_embeddings interpolate).

Abbreviation ranked self image embs sims :=
  (ranked self (generate_proposals image) embs sims).

(** The call of the segmenter prints its line and hands the proposals on. *)
Lemma segmenter_call_bind {B} image (k : list Proposal -> py B) :
  bind (auto_segmenter_generate_proposals generate_proposals n_raw_masks image) k =
    (MsgGenerated (length (generate_proposals image)) (n_raw_masks image)
       :: fst (k (generate_proposals image)),
     snd (k (generate_proposals image))).
Proof.
  unfold auto_segmenter_generate_proposals, bind, print, ret. cbn.
  destruct (k (generate_proposals image)) as [l r]. reflexivity.
Qed.

Lemma segmenter_call_returns {B} image (k : list Proposal -> py B) b :
  returns (bind (auto_segmenter_generate_proposals generate_proposals
                   n_raw_masks image) k) b <->
  returns (k (generate_proposals image)) b.
Proof. rewrite segmenter_call_bind. unfold returns. reflexivity. Qed.

Lemma segmenter_call_raises {B} image (k : list Proposal -> py B) :
  raises (bind (auto_segmenter_generate_proposals generate_proposals
                  n_raw_masks image) k) <->
  raises (k (generate_proposals image)).
Proof. rewrite segmenter_call_bind. unfold raises. reflexivity. Qed.

Lemma match_in_image_empty self image reference path :
  generate_proposals image = [] ->
  match_in_image self image reference path =
    ([MsgGenerated 0 (n_raw_masks image); MsgNoProposals path],
     Return {| image_path := path; image := image; matches := [] |}).
Proof.
  intros H. unfold Matcher.match_in_image. rewrite segmenter_call_bind, H.
  reflexivity.
Qed.

(** With proposals, pooled descriptors and similarities at hand, the rest
    of [match_in_image] runs to the end. *)
Lemma match_in_image_kept self image reference path embs sims kept :
  generate_proposals image <> [] ->
  returns (compute_batch_ffa_embeddings image
             (map p_segmentation (generate_proposals image))) embs ->
  returns (batch_cosine_similarity reference embs) sims ->
  returns (_nms self (ranked self image embs sims)) kept ->
  returns (match_in_image self image reference path)
    {| image_path := path; image := image;
       matches := slice_stop kept (top_k self) |}.
Proof.
  intros Hne Hembs Hsims Hkept.
  unfold Matcher.match_in_image. apply segmenter_call_returns.
  destruct (generate_proposals image) as [|p ps] eqn:Ep; [congruence|].
  eapply bind_returns_intro; [exact Hembs|].
  eapply bind_returns_intro; [exact Hsims|].
  eapply bind_returns_intro.
  { unfold returns. rewrite collect_loop; [reflexivity|].
    intros item H. apply enumerate_index in H. rewrite length_combine in H.
    apply batch_cosine_similarity_length in Hsims. lia. }
  simpl app.
  eapply bind_returns_intro; [exact Hkept|]. reflexivity.
Qed.

Lemma match_in_image_forward self image reference path embs sims :
  generate_proposals image <> [] ->
  returns (compute_batch_ffa_embeddings image
             (map p_segmentation (generate_proposals image))) embs ->
  returns (batch_cosine_similarity reference embs) sims ->
  exists U,
    suppression self (ranked self image embs sims) U /\
    returns (match_in_image self image reference path)
      {| image_path := path; image := image;
         matches := slice_stop (kept_from 0 (ranked self image embs sims) U)
                               (top_k self) |}.
Proof.
  intros Hne Hembs Hsims.
  destruct (nms_run_spec self (ranked self image embs sims)) as [U [E HU]].
  exists U. split; [exact HU|].
  apply match_in_image_kept with (embs := embs) (sims := sims);
    [exact Hne|exact Hembs|exact Hsims|].
  unfold returns. rewrite (nms_eq _ _ _ _ E). reflexivity.
Qed.

Lemma match_in_image_steps self image reference path res :
  generate_proposals image <> [] ->
  returns (match_in_image self image reference path) res ->
  exists embs sims,
    returns (compute_batch_ffa_embeddings image
               (map p_segmentation (generate_proposals image))) embs /\
    returns (batch_cosine_similarity reference embs) sims.
Proof.
  intros Hne H. unfold Matcher.match_in_image in H.
  apply segmenter_call_returns in H.
  destruct (generate_proposals image) as [|p ps]; [congruence|].
  apply bind_returns in H. destruct H as [embs [Hembs H]].
  apply bind_returns in H. destruct H as [sims [Hsims _]].
  exists embs, sims. auto.
Qed.

Lemma match_in_image_inv self image reference path res :
  returns (match_in_image self image reference path) res ->
  image_path res = path /\ Matcher.image res = image /\
  (matches res = [] \/
   exists embs sims U,
     suppression self (ranked self image embs sims) U /\
     matches res = slice_stop (kept_from 0 (ranked self image embs sims) U)
                              (top_k self)).
Proof.
  intros H.
  assert (Hcase : generate_proposals image = [] \/ generate_proposals image <> []).
  { destruct (generate_proposals image); [left; reflexivity|right; discriminate]. }
  destruct Hcase as [Ep|Hne].
  - rewrite match_in_image_empty in H by exact Ep.
    unfold returns in H. simpl in H. inversion H. simpl. auto.
  - destruct (match_in_image_steps _ _ _ _ _ Hne H) as (embs & sims & Hembs & Hsims).
    destruct (match_in_image_forward self image reference path embs sims
                Hne Hembs Hsims) as [U [HU Hr]].
    rewrite (returns_inj _ _ _ H Hr). simpl.
    split; [reflexivity|]. split; [reflexivity|].
    right. exists embs, sims, U. auto.
Qed.

(** C5, as the code has it.  Every result of [match_in_image] lists its
    matches by descending similarity, and no two of them overlap above
    the suppression threshold; when [top_k] is not negative there are at
    most [top_k] of them. *)
Theorem match_result_invariant (self : InstanceMatcher) (image : Image)
    (reference : vec) (path : string) (res : ImageMatchResults Image) :
  returns (match_in_image self image reference path) res ->
  (forall i j mi mj, (i < j)%nat ->
     matches res !! i = Some mi -> matches res !! j = Some mj ->
     (similarity mj <= similarity mi)%R) /\
  (forall i j mi mj, i <> j ->
     matches res !! i = Some mi -> matches res !! j = Some mj ->
     apart self mi mj) /\
  ((0 <= top_k self)%Z -> (Z.of_nat (length (matches res)) <= top_k self)%Z).
Proof.
  intros H. apply match_in_image_inv in H. destruct H as (_ & _ & [H|H]).
  - rewrite H. split; [|split].
    + intros i j mi mj _ Hi. rewrite lookup_nil in Hi. discriminate.
    + intros i j mi mj _ Hi. rewrite lookup_nil in Hi. discriminate.
    + simpl. lia.
  - destruct H as (embs & sims & U & HU & ->).
    set (sorted := ranked self image embs sims) in *.
    assert (Hsub : sublist (slice_stop (kept_from 0 sorted U) (top_k self)) sorted).
    { etransitivity; [apply slice_stop_sublist|apply kept_from_sublist]. }
    assert (Hdesc : StronglySorted desc
                      (slice_stop (kept_from 0 sorted U) (top_k self))).
    { eapply StronglySorted_sublist; [exact Hsub|apply sort_desc_sorted]. }
    assert (Hover : StronglySorted
              (fun a b => over self (bbox a) (bbox b) = false)
              (slice_stop (kept_from 0 sorted U) (top_k self))).
    { eapply StronglySorted_sublist; [apply slice_stop_sublist|].
      apply kept_no_overlap. exact HU. }
    split; [|split].
    + intros i j mi mj Hij Hi Hj.
      exact (StronglySorted_lookup _ _ _ _ _ _ Hdesc Hij Hi Hj).
    + intros i j mi mj Hij Hi Hj.
      destruct (Nat.lt_total i j) as [Hlt|[Heq|Hgt]]; [|congruence|].
      * apply over_false_apart.
        exact (StronglySorted_lookup _ _ _ _ _ _ Hover Hlt Hi Hj).
      * intros v Hv. apply (over_false_apart self mj mi).
        -- exact (StronglySorted_lookup _ _ _ _ _ _ Hover Hgt Hj Hi).
        -- tauto.
    + apply slice_stop_length.
Qed.

(** *** The documented end-to-end example *)

Lemma Qltb_half_of_eight_tenths (v : Q) : (v == 8 / 10)%Q -> Qltb (1 # 2) v = true.
Proof.
  intros Hv. unfold Qltb. apply negb_true_iff.
  destruct (Qle_bool v (1 # 2)) eqn:E; [|reflexivity].
  apply Qle_bool_iff in E. rewrite Hv in E. exfalso. revert E.
  unfold Qle. simpl. lia.
Qed.

(** Three proposals scoring 0.9, 0.72 and 0.3, the first two overlapping
    with IoU 0.8, thresholds 0.65 and 0.5: only the first is kept. *)
Lemma three_proposals_run self image reference path p1 p2 p3 embs b1 b2 v :
  similarity_threshold self = (65 / 100)%R ->
  nms_iou_threshold self = (1 # 2)%Q ->
  generate_proposals image = [p1; p2; p3] ->
  returns (compute_batch_ffa_embeddings image
             [p_segmentation p1; p_segmentation p2; p_segmentation p3]) embs ->
  returns (batch_cosine_similarity reference embs)
          [9 / 10; 72 / 100; 3 / 10]%R ->
  returns (mask_to_bbox (p_segmentation p1)) b1 ->
  returns (mask_to_bbox (p_segmentation p2)) b2 ->
  returns (bbox_iou b1 b2) v -> (v == 8 / 10)%Q ->
  returns (match_in_image self image reference path)
    {| image_path := path; image := image;
       matches := slice_stop [candidate_of embs (0%nat, ((9 / 10)%R, p1))]
                             (top_k self) |}.
Proof.
  intros Hsim Hnms Hp Hembs Hsims Hb1 Hb2 Hv Hv8.
  assert (Hne : generate_proposals image <> []) by (rewrite Hp; discriminate).
  assert (Hembs' : returns (compute_batch_ffa_embeddings image
                     (map p_segmentation (generate_proposals image))) embs).
  { rewrite Hp. exact Hembs. }
  destruct (match_in_image_forward self image reference path embs _
              Hne Hembs' Hsims) as [U [HU Hr]].
  set (c1 := candidate_of embs (0%nat, ((9 / 10)%R, p1))) in *.
  set (c2 := candidate_of embs (1%nat, ((72 / 100)%R, p2))).
  assert (Hranked : MatcherSpec.ranked self (generate_proposals image) embs
                      [9 / 10; 72 / 100; 3 / 10]%R = [c1; c2]).
  { unfold MatcherSpec.ranked, retained, enumerate. rewrite Hp, Hsim.
    cbn [combine length seq List.filter fst snd].
    assert (E1 : Rgeb (9 / 10) (65 / 100) = true) by (apply Rgeb_true; lra).
    assert (E2 : Rgeb (72 / 100) (65 / 100) = true) by (apply Rgeb_true; lra).
    assert (E3 : Rgeb (3 / 10) (65 / 100) = false).
    { destruct (Rgeb (3 / 10) (65 / 100)) eqn:E; [|reflexivity].
      apply Rgeb_true in E. lra. }
    rewrite E1, E2, E3. cbn [map sort_desc fold_right insert_desc].
    assert (E4 : Rltb (similarity (candidate_of embs (0%nat, ((9 / 10)%R, p1))))
                      (similarity (candidate_of embs (1%nat, ((72 / 100)%R, p2))))
                 = false).
    { apply Rltb_false. simpl. lra. }
    rewrite E4. reflexivity. }
  rewrite Hranked in HU, Hr.
  assert (Hover : over_at self [c1; c2] 0 1 = true).
  { unfold over_at, over. simpl. rewrite Hnms.
    unfold bbox_of. unfold returns in Hb1, Hb2.
    destruct (mask_to_bbox (p_segmentation p1)) as [l1 o1].
    destruct (mask_to_bbox (p_segmentation p2)) as [l2 o2].
    simpl in Hb1, Hb2. subst o1 o2.
    unfold iou_value. unfold returns in Hv.
    destruct (bbox_iou b1 b2) as [l o]. simpl in Hv. subst o.
    apply Qltb_half_of_eight_tenths. exact Hv8. }
  assert (H0 : 0%nat ∉ U).
  { intros H. apply HU in H. destruct H as [_ (k & Hk & _)]. lia. }
  assert (H1 : 1%nat ∈ U).
  { apply HU. split; [simpl; lia|]. exists 0%nat. split; [lia|]. auto. }
  assert (Hkept : kept_from 0 [c1; c2] U = [c1]).
  { rewrite !kept_from_cons.
    rewrite (bool_decide_eq_false_2 _ H0), (bool_decide_eq_true_2 _ H1).
    reflexivity. }
  rewrite Hkept in Hr. exact Hr.
Qed.

(** C1.  Three proposals with similarities 0.9, 0.72 and 0.3, the boxes
    of the first two overlapping with IoU 0.8, similarity threshold 0.65,
    NMS threshold 0.5 and top_k 3: [match_in_image] returns exactly one
    match, the first proposal, with similarity 0.9. *)
Theorem end_to_end_example (image : Image) (reference : vec) (path : string)
    (p1 p2 p3 : Proposal) (embs : list vec) (b1 b2 : Box) (v : Q) :
  let self := {| similarity_threshold := 65 / 100; top_k := 3;
                 nms_iou_threshold := 1 # 2 |} in
  generate_proposals image = [p1; p2; p3] ->
  returns (compute_batch_ffa_embeddings image
             [p_segmentation p1; p_segmentation p2; p_segmentation p3]) embs ->
  returns (batch_cosine_similarity reference embs)
          [9 / 10; 72 / 100; 3 / 10]%R ->
  returns (mask_to_bbox (p_segmentation p1)) b1 ->
  returns (mask_to_bbox (p_segmentation p2)) b2 ->
  returns (bbox_iou b1 b2) v -> (v == 8 / 10)%Q ->
  exists m,
    returns (match_in_image self image reference path)
      {| image_path := path; image := image; matches := [m] |} /\
    similarity m = (9 / 10)%R /\
    mask m = p_segmentation p1.
Proof.
  intros self Hp Hembs Hsims Hb1 Hb2 Hv Hv8.
  exists (candidate_of embs (0%nat, ((9 / 10)%R, p1))).
  split; [|split; reflexivity].
  exact (three_proposals_run self image reference path p1 p2 p3 embs b1 b2 v
           eq_refl eq_refl Hp Hembs Hsims Hb1 Hb2 Hv Hv8).
Qed.

(** *** Failures *)

Lemma map_py_raises {A B} (f : A -> py B) (xs : list A) :
  (exists x, In x xs /\ raises (f x)) -> raises (map_py f xs).
Proof.
  induction xs as [|x xs IH]; intros (x0 & Hin & Hr); [destruct Hin|].
  cbn [map_py]. destruct (returns_or_raises (f x)) as [[y Hy]|Hx].
  - eapply bind_raises_r; [exact Hy|]. apply bind_raises_l.
    destruct Hin as [->|Hin].
    + exfalso. exact (returns_not_raises _ _ Hy Hr).
    + apply IH. exists x0. auto.
  - apply bind_raises_l. exact Hx.
Qed.

(** A mask that the resampling rejects makes the whole call raise. *)
Lemma match_in_image_pool_failure self image reference path p :
  In p (generate_proposals image) ->
  interpolate (p_segmentation p) (grid_h (patch_embeddings image))
              (grid_w (patch_embeddings image)) = None ->
  raises (match_in_image self image reference path).
Proof.
  intros Hin Hnone. unfold Matcher.match_in_image. apply segmenter_call_raises.
  destruct (generate_proposals image) as [|p0 ps] eqn:Ep; [destruct Hin|].
  apply bind_raises_l. unfold Embedder.compute_batch_ffa_embeddings.
  cbn [map]. apply map_py_raises. exists (p_segmentation p).
  split; [change (In (p_segmentation p) (map p_segmentation (p0 :: ps)));
          apply in_map; exact Hin|].
  rewrite (pool_one_raises patch_embeddings interpolate image _ Hnone).
  exists RuntimeError. reflexivity.
Qed.

Lemma process_loop_returns self n reference : forall items a acc,
  (forall path image, In (path, image) items ->
     exists r, returns (match_in_image self image reference path) r) ->
  exists rs,
    returns (for_each (process_image generate_proposals n_raw_masks
                         patch_embeddings interpolate self n reference)
               (combine (seq a (length items)) items) acc) (acc ++ rs) /\
    Forall2 (fun item r => returns (match_in_image self (snd item) reference
                                      (fst item)) r) items rs.
Proof.
  induction items as [|[path image] items IH]; intros a acc H.
  - exists []. rewrite app_nil_r. split; [reflexivity|constructor].
  - destruct (H path image) as [r Hr]; [left; reflexivity|].
    destruct (IH (S a) (acc ++ [r])) as [rs [Hrs HF]].
    { intros p i Hin. apply H. right. exact Hin. }
    exists (r :: rs). split; [|constructor; [exact Hr|exact HF]].
    cbn [length seq combine for_each]. unfold process_image at 1.
    eapply bind_returns_intro; [|rewrite <- app_assoc in Hrs; exact Hrs].
    eapply bind_returns_intro; [reflexivity|].
    eapply bind_returns_intro; [exact Hr|reflexivity].
Qed.

Lemma process_loop_raises self n reference : forall items a acc,
  (exists path image, In (path, image) items /\
     raises (match_in_image self image reference path)) ->
  raises (for_each (process_image generate_proposals n_raw_masks
                      patch_embeddings interpolate self n reference)
            (combine (seq a (length items)) items) acc).
Proof.
  induction items as [|[path image] items IH]; intros a acc (p0 & i0 & Hin & Hr).
  - destruct Hin.
  - cbn [length seq combine for_each]. unfold process_image at 1.
    destruct (returns_or_raises (match_in_image self image reference path))
      as [[r Hret]|Hraise].
    + eapply bind_raises_r.
      { eapply bind_returns_intro; [reflexivity|].
        eapply bind_returns_intro; [exact Hret|reflexivity]. }
      apply IH. destruct Hin as [Heq|Hin].
      * inversion Heq; subst. exfalso. exact (returns_not_raises _ _ Hret Hr).
      * exists p0, i0. auto.
    + apply bind_raises_l. eapply bind_raises_r; [reflexivity|].
      apply bind_raises_l. exact Hraise.
Qed.

Lemma match_across_images_returns self target_images reference :
  (forall path image, In (path, image) target_images ->
     exists r, returns (match_in_image self image reference path) r) ->
  exists rs,
    returns (match_across_images self target_images reference) rs /\
    Forall2 (fun item r => returns (match_in_image self (snd item) reference
                                      (fst item)) r) target_images rs.
Proof.
  intros H.
  destruct (process_loop_returns self (length target_images) reference
              target_images 0 [] H) as [rs [Hrs HF]].
  exists rs. split; [|exact HF].
  unfold Matcher.match_across_images, enumerate.
  eapply bind_returns_intro; [exact Hrs|].
  eapply bind_returns_intro; reflexivity.
Qed.

Lemma match_across_images_raises self target_images reference :
  (exists path image, In (path, image) target_images /\
     raises (match_in_image self image reference path)) ->
  raises (match_across_images self target_images reference).
Proof.
  intros H. unfold Matcher.match_across_images, enumerate.
  apply bind_raises_l. apply process_loop_raises. exact H.
Qed.

(** C4, as the code has it.  Nothing is caught: when every image is
    processed without an error, [match_across_images] returns one result
    per image, in order; when a single mask of a single image is rejected
    by the resampling, the call raises and returns no result at all. *)
Theorem no_failure_isolation (self : InstanceMatcher)
    (target_images : list (string * Image)) (reference : vec) :
  ((forall path image, In (path, image) target_images ->
      exists r, returns (match_in_image self image reference path) r) ->
   exists rs,
     returns (match_across_images self target_images reference) rs /\
     length rs = length target_images /\
     Forall2 (fun item r => returns (match_in_image self (snd item) reference
                                       (fst item)) r) target_images rs) /\
  ((exists path image p,
      In (path, image) target_images /\
      In p (generate_proposals image) /\
      interpolate (p_segmentation p) (grid_h (patch_embeddings image))
                  (grid_w (patch_embeddings image)) = None) ->
   raises (match_across_images self target_images reference) /\
   forall rs, ~ returns (match_across_images self target_images reference) rs).
Proof.
  split.
  - intros H. destruct (match_across_images_returns _ _ _ H) as [rs [Hrs HF]].
    exists rs. split; [exact Hrs|]. split; [|exact HF].
    symmetry. eapply Forall2_length. exact HF.
  - intros (path & image & p & Hin & Hp & Hnone).
    assert (Hr : raises (match_across_images self target_images reference)).
    { apply match_across_images_raises. exists path, image.
      split; [exact Hin|].
      eapply match_in_image_pool_failure; [exact Hp|exact Hnone]. }
    split; [exact Hr|]. intros rs Hrs. exact (returns_not_raises _ _ Hrs Hr).
Qed.

End MatchingFacts.

(** *** The constructor *)

(** C10.  A zero passed for [top_k], [similarity_threshold] or
    [nms_iou_threshold] is treated like [None]: the field takes the value of
    the module configuration (3 for [top_k] under the default
    configuration).  Whatever is passed, a field is never a zero that
    differs from the configured value, and under the default configuration
    it is never zero. *)
Theorem init_zero_is_unset (config : Config)
    (similarity_threshold0 : option R) (top_k0 : option Z)
    (nms_iou_threshold0 : option Q) :
  InstanceMatcher_init config (Some 0%R) top_k0 nms_iou_threshold0 =
    InstanceMatcher_init config None top_k0 nms_iou_threshold0 /\
  InstanceMatcher_init config similarity_threshold0 (Some 0%Z) nms_iou_threshold0 =
    InstanceMatcher_init config similarity_threshold0 None nms_iou_threshold0 /\
  InstanceMatcher_init config similarity_threshold0 top_k0 (Some 0%Q) =
    InstanceMatcher_init config similarity_threshold0 top_k0 None /\
  InstanceMatcher_init config None None None =
    {| similarity_threshold := SIMILARITY_THRESHOLD config;
       top_k := TOP_K_MATCHES config;
       nms_iou_threshold := NMS_IOU_THRESHOLD config |} /\
  top_k (InstanceMatcher_init default_config similarity_threshold0 (Some 0%Z)
           nms_iou_threshold0) = 3%Z /\
  top_k (InstanceMatcher_init default_config similarity_threshold0 None
           nms_iou_threshold0) = 3%Z /\
  (let self := InstanceMatcher_init config similarity_threshold0 top_k0
                 nms_iou_threshold0 in
   (similarity_threshold self = SIMILARITY_THRESHOLD config \/
    similarity_threshold self <> 0%R) /\
   (top_k self = TOP_K_MATCHES config \/ top_k self <> 0%Z) /\
   (nms_iou_threshold self = NMS_IOU_THRESHOLD config \/
    ~ (nms_iou_threshold self == 0)%Q)) /\
  (let self := InstanceMatcher_init default_config similarity_threshold0 top_k0
                 nms_iou_threshold0 in
   similarity_threshold self <> 0%R /\ top_k self <> 0%Z /\
   ~ (nms_iou_threshold self == 0)%Q).
Proof.
  unfold InstanceMatcher_init.
  assert (Hf : forall d, or_float (Some 0%R) d = d).
  { intros d. unfold or_float. destruct (Req_dec_T 0 0); [reflexivity|congruence]. }
  assert (Hfz : forall x d, or_float x d = d \/ or_float x d <> 0%R).
  { intros [v|] d; unfold or_float; [|left; reflexivity].
    destruct (Req_dec_T v 0); [left; reflexivity|right; assumption]. }
  assert (Hiz : forall x d, or_int x d = d \/ or_int x d <> 0%Z).
  { intros [v|] d; unfold or_int; [|left; reflexivity].
    destruct (v =? 0)%Z eqn:E; [left; reflexivity|right].
    apply Z.eqb_neq. exact E. }
  assert (Hqz : forall x d, or_ratio x d = d \/ ~ (or_ratio x d == 0)%Q).
  { intros [v|] d; unfold or_ratio; [|left; reflexivity].
    destruct (Qeq_bool v 0) eqn:E; [left; reflexivity|right].
    apply Qeq_bool_neq. exact E. }
  rewrite Hf. simpl.
  repeat split; try reflexivity; auto.
  - destruct (Hfz similarity_threshold0 (65 / 100)%R) as [->|H]; [lra|exact H].
  - destruct (Hiz top_k0 3%Z) as [->|H]; [lia|exact H].
  - destruct (Hqz nms_iou_threshold0 (1 # 2)%Q) as [->|H]; [discriminate|exact H].
Qed.

End MatcherFacts.

(** ** The pipeline on the example data *)

Module ExampleRuns.
Import Geometry GeometrySpec GeometryFacts Embedder EmbedderSpec EmbedderFacts.
Import Matcher MatcherSpec NmsFacts MatcherFacts Examples ExampleFacts.
Local Open Scope R_scope.

Abbreviation run_image :=
  (match_in_image generate_proposals n_raw_masks patch_embeddings resample).
Abbreviation run_images :=
  (match_across_images generate_proposals n_raw_masks patch_embeddings resample).

Lemma batch_image0 :
  compute_batch_ffa_embeddings patch_embeddings resample 0%nat
    [mask_a; mask_b; mask_c] = ret [e1; e2; e3].
Proof.
  unfold compute_batch_ffa_embeddings. cbn [map_py].
  rewrite (pool_one_eq patch_embeddings resample 0%nat mask_a cov_a resample_a).
  rewrite (pool_one_eq patch_embeddings resample 0%nat mask_b cov_b resample_b).
  rewrite (pool_one_eq patch_embeddings resample 0%nat mask_c cov_c resample_c).
  change (patch_embeddings 0) with grid0.
  rewrite pooled_a, pooled_b, pooled_c, !bind_ret_l. reflexivity.
Qed.

Lemma sims_image0 :
  batch_cosine_similarity reference [e1; e2; e3] = ret [9 / 10; 72 / 100; 3 / 10].
Proof.
  unfold batch_cosine_similarity, np_dot, e1, e2, e3, reference.
  cbn [map_py length Nat.eqb combine map fold_right fst snd].
  rewrite !bind_ret_l. unfold ret. repeat f_equal; lra.
Qed.

Lemma bbox_a : mask_to_bbox mask_a = ret box_a.
Proof. reflexivity. Qed.
Lemma bbox_b : mask_to_bbox mask_b = ret box_b.
Proof. reflexivity. Qed.
Lemma iou_ab : bbox_iou box_a box_b = ret (4 # 5)%Q.
Proof. reflexivity. Qed.

Lemma image0_run (self : InstanceMatcher) (path : string) :
  similarity_threshold self = 65 / 100 ->
  nms_iou_threshold self = (1 # 2)%Q ->
  returns (run_image self 0%nat reference path)
    {| image_path := path; image := 0%nat;
       matches := slice_stop [match_a] (top_k self) |}.
Proof.
  intros Hs Hn.
  apply (three_proposals_run generate_proposals n_raw_masks patch_embeddings resample
           self 0%nat reference path (proposal mask_a) (proposal mask_b)
           (proposal mask_c) [e1; e2; e3] box_a box_b (4 # 5)%Q Hs Hn eq_refl).
  - unfold returns. simpl p_segmentation. rewrite batch_image0. reflexivity.
  - unfold returns. rewrite sims_image0. reflexivity.
  - reflexivity.
  - reflexivity.
  - reflexivity.
  - reflexivity.
Qed.

(** C1, witness: image 0 of the example data. *)
Lemma end_to_end_example_witness :
  exists m,
    returns (run_image default_matcher 0%nat reference "a")
      {| image_path := "a"; image := 0%nat; matches := [m] |} /\
    similarity m = 9 / 10.
Proof.
  destruct (end_to_end_example generate_proposals n_raw_masks patch_embeddings resample
              0%nat reference "a"%string (proposal mask_a) (proposal mask_b)
              (proposal mask_c) [e1; e2; e3] box_a box_b (4 # 5)%Q eq_refl)
    as (m & H1 & H2 & _).
  - unfold returns. simpl p_segmentation. rewrite batch_image0. reflexivity.
  - unfold returns. rewrite sims_image0. reflexivity.
  - reflexivity.
  - reflexivity.
  - reflexivity.
  - reflexivity.
  - exists m. split; [exact H1|exact H2].
Defined.

Lemma ranked_image0_low (self : InstanceMatcher) :
  similarity_threshold self = 1 / 5 ->
  ranked self (generate_proposals 0) [e1; e2; e3] [9 / 10; 72 / 100; 3 / 10] =
    [match_a; match_b; match_c].
Proof.
  intros Hs. unfold ranked, retained, enumerate. rewrite Hs.
  cbn [generate_proposals combine length seq List.filter fst snd].
  assert (E1 : Rgeb (9 / 10) (1 / 5) = true) by (apply Rgeb_true; lra).
  assert (E2 : Rgeb (72 / 100) (1 / 5) = true) by (apply Rgeb_true; lra).
  assert (E3 : Rgeb (3 / 10) (1 / 5) = true) by (apply Rgeb_true; lra).
  rewrite E1, E2, E3. cbn [map sort_desc fold_right insert_desc].
  fold match_a match_b match_c.
  assert (E4 : Rltb (similarity match_b) (similarity match_c) = false).
  { apply Rltb_false. simpl. lra. }
  assert (E5 : Rltb (similarity match_a) (similarity match_b) = false).
  { apply Rltb_false. simpl. lra. }
  rewrite E4. cbn [insert_desc]. rewrite E5. reflexivity.
Qed.

Lemma nms_image0_low :
  nms_run low_threshold_matcher [match_a; match_b; match_c] =
    ret ([match_a; match_c], {[ 1%nat ]}).
Proof. vm_compute. reflexivity. Qed.

Lemma image0_low_run (path : string) :
  returns (run_image low_threshold_matcher 0%nat reference path)
    {| image_path := path; image := 0%nat; matches := [match_a] |}.
Proof.
  apply (match_in_image_kept generate_proposals n_raw_masks patch_embeddings resample
           low_threshold_matcher 0%nat reference path [e1; e2; e3]
           [9 / 10; 72 / 100; 3 / 10] [match_a; match_c]).
  - discriminate.
  - unfold returns. cbn [generate_proposals map]. simpl p_segmentation.
    rewrite batch_image0. reflexivity.
  - unfold returns. rewrite sims_image0. reflexivity.
  - unfold returns. rewrite ranked_image0_low by reflexivity.
    rewrite (nms_eq _ _ _ _ nms_image0_low). reflexivity.
Qed.

(** C5, witness: image 0 under the default matcher ([top_k = 3]); the
    result has one match. *)
Lemma match_result_invariant_witness :
  exists res,
    returns (run_image default_matcher 0%nat reference "a") res /\
    (Z.of_nat (length (matches res)) <= 3)%Z.
Proof.
  eexists. split.
  - apply (image0_run default_matcher "a"); reflexivity.
  - apply (match_result_invariant generate_proposals n_raw_masks patch_embeddings resample
             default_matcher 0%nat reference "a"%string).
    + apply (image0_run default_matcher "a"); reflexivity.
    + simpl. lia.
Defined.

(** C5, counterexample: image 0 with similarity threshold 0.2 and
    [top_k = -1].  Two candidates survive the suppression, the slice
    [kept[:-1]] drops the last of them, and the result has one match: more
    than [top_k]. *)
Lemma negative_top_k_not_a_cap :
  _nms low_threshold_matcher [match_a; match_b; match_c] =
    ret [match_a; match_c] /\
  returns (run_image low_threshold_matcher 0%nat reference "a")
    {| image_path := "a"; image := 0%nat; matches := [match_a] |} /\
  ~ (Z.of_nat (length [match_a]) <= top_k low_threshold_matcher)%Z.
Proof.
  split; [exact (nms_eq _ _ _ _ nms_image0_low)|].
  split; [apply image0_low_run|].
  simpl. lia.
Qed.

Lemma image3_raises (self : InstanceMatcher) (path : string) :
  raises (run_image self 3%nat reference path).
Proof.
  apply (match_in_image_pool_failure generate_proposals n_raw_masks patch_embeddings resample
           self 3%nat reference path (proposal mask_empty)).
  - left. reflexivity.
  - reflexivity.
Qed.

(** C4, witness: a list of one image without proposals is processed to the
    end; a list whose second image carries a mask of shape (0, 0) is not. *)
Lemma no_failure_isolation_witness :
  (exists rs, returns (run_images default_matcher [("a"%string, 7%nat)] reference) rs /\
              length rs = 1%nat) /\
  raises (run_images default_matcher
            [("a"%string, 0%nat); ("b"%string, 3%nat)] reference).
Proof.
  split.
  - destruct (proj1 (no_failure_isolation generate_proposals n_raw_masks patch_embeddings
                       resample default_matcher [("a"%string, 7%nat)] reference))
      as (rs & H1 & H2 & _).
    + intros path image [H|[]]. inversion H; subst.
      eexists. unfold returns.
      rewrite match_in_image_empty by reflexivity. reflexivity.
    + exists rs. split; [exact H1|exact H2].
  - apply (proj2 (no_failure_isolation generate_proposals n_raw_masks patch_embeddings
                    resample default_matcher
                    [("a"%string, 0%nat); ("b"%string, 3%nat)] reference)).
    exists "b"%string, 3%nat, (proposal mask_empty).
    split; [right; left; reflexivity|]. split; [left; reflexivity|reflexivity].
Defined.

(** C4, counterexample: two target images.  Image 0 is processed without
    an error on its own; image 3 has one proposal whose mask is an array of
    shape (0, 0), which the resampling rejects.  [match_across_images]
    raises, and returns no result for either image. *)
Lemma one_bad_mask_aborts_the_run :
  (exists r, returns (run_image default_matcher 0%nat reference "a") r) /\
  raises (run_images default_matcher
            [("a"%string, 0%nat); ("b"%string, 3%nat)] reference) /\
  forall rs, ~ returns (run_images default_matcher
                          [("a"%string, 0%nat); ("b"%string, 3%nat)] reference) rs.
Proof.
  assert (Hr : raises (run_images default_matcher
                         [("a"%string, 0%nat); ("b"%string, 3%nat)] reference)).
  { apply match_across_images_raises. exists "b"%string, 3%nat.
    split; [right; left; reflexivity|apply image3_raises]. }
  split; [|split].
  - eexists. apply (image0_run default_matcher "a"); reflexivity.
  - exact Hr.
  - intros rs Hrs. exact (returns_not_raises _ _ Hrs Hr).
Qed.

(** C8, witness: the three scored proposals of image 0 at thresholds 0.65
    and 0.8. *)
Lemma similarity_filter_monotone_witness :
  exists l1 l2,
    for_each (collect_candidate default_matcher [e1; e2; e3])
             (enumerate (combine [9 / 10; 72 / 100; 3 / 10] (generate_proposals 0)))
             [] = ret l1 /\
    for_each (collect_candidate strict_matcher [e1; e2; e3])
             (enumerate (combine [9 / 10; 72 / 100; 3 / 10] (generate_proposals 0)))
             [] = ret l2 /\
    (length l2 <= length l1)%nat.
Proof.
  destruct (similarity_filter_monotone default_matcher strict_matcher
              [e1; e2; e3] [9 / 10; 72 / 100; 3 / 10] (generate_proposals 0))
    as (l1 & l2 & H1 & H2 & _ & _ & _ & H6).
  - simpl. lra.
  - reflexivity.
  - exists l1, l2. split; [exact H1|]. split; [exact H2|exact H6].
Defined.

End ExampleRuns.

(** * Further properties of the code *)

(** ** Geometry *)

Module GeometryMore.
Import Geometry GeometrySpec GeometryFacts Examples.

Lemma overlap_le_area (b1 b2 : Box) :
  let inter := (Z.max 0 (Z.min (bx2 b1) (bx2 b2) - Z.max (bx1 b1) (bx1 b2)) *
                Z.max 0 (Z.min (by2 b1) (by2 b2) - Z.max (by1 b1) (by1 b2)))%Z in
  (0 <= inter)%Z /\
  ((0 < inter)%Z ->
   (inter <= (bx2 b1 - bx1 b1) * (by2 b1 - by1 b1))%Z /\
   (inter <= (bx2 b2 - bx1 b2) * (by2 b2 - by1 b2))%Z).
Proof.
  intros inter. unfold inter. split; [apply Z.mul_nonneg_nonneg; lia|].
  intros Hpos.
  set (dx := (Z.min (bx2 b1) (bx2 b2) - Z.max (bx1 b1) (bx1 b2))%Z) in *.
  set (dy := (Z.min (by2 b1) (by2 b2) - Z.max (by1 b1) (by1 b2))%Z) in *.
  assert (Hdx : (0 < dx)%Z).
  { destruct (Z_lt_le_dec 0 dx); [assumption|].
    rewrite (Z.max_l 0 dx) in Hpos by lia. lia. }
  assert (Hdy : (0 < dy)%Z).
  { destruct (Z_lt_le_dec 0 dy); [assumption|].
    rewrite (Z.max_l 0 dy) in Hpos by lia. lia. }
  rewrite (Z.max_r 0 dx), (Z.max_r 0 dy) by lia.
  split; apply Z.mul_le_mono_nonneg; unfold dx, dy in *; lia.
Qed.

Lemma Qred_div_range (a u : Z) :
  (0 <= a <= u)%Z -> (0 < u)%Z ->
  (0 <= Qred (inject_Z a / inject_Z u) <= 1)%Q.
Proof.
  intros Ha Hu. rewrite Qred_correct.
  destruct u as [|p|p]; try lia.
  rewrite <- Qmake_Qdiv. unfold Qle. simpl. lia.
Qed.

(** X1.  Whatever the two boxes, [bbox_iou] returns a value between 0 and 1,
    and the same value with the arguments swapped. *)
Theorem bbox_iou_range_sym (b1 b2 : Box) :
  exists q, bbox_iou b1 b2 = ret q /\ bbox_iou b2 b1 = ret q /\
            (0 <= q <= 1)%Q.
Proof.
  exists (iou_value b1 b2). split; [apply bbox_iou_total|].
  split; [rewrite bbox_iou_sym; apply bbox_iou_total|].
  unfold iou_value, bbox_iou, truediv.
  destruct (overlap_le_area b1 b2) as [H0 Hle]. cbv zeta in H0, Hle.
  set (inter := (Z.max 0 (Z.min (bx2 b1) (bx2 b2) - Z.max (bx1 b1) (bx1 b2)) *
                 Z.max 0 (Z.min (by2 b1) (by2 b2) - Z.max (by1 b1) (by1 b2)))%Z) in *.
  set (a1 := ((bx2 b1 - bx1 b1) * (by2 b1 - by1 b1))%Z) in *.
  set (a2 := ((bx2 b2 - bx1 b2) * (by2 b2 - by1 b2))%Z) in *.
  destruct (0 <? a1 + a2 - inter)%Z eqn:E.
  - apply Z.ltb_lt in E.
    destruct (a1 + a2 - inter =? 0)%Z eqn:E0; [apply Z.eqb_eq in E0; lia|].
    simpl. apply Qred_div_range; [|exact E].
    split; [exact H0|].
    destruct (Z_lt_le_dec 0 inter) as [Hp|Hz]; [destruct (Hle Hp); lia|lia].
  - simpl. split; [apply Qle_refl|discriminate].
Qed.

(** X2.  For a mask with a true pixel the box of [mask_to_bbox] lies inside
    the array, has positive width and height, and has IoU 1 with itself. *)
Theorem mask_to_bbox_in_bounds (m : Mask) :
  has_true m ->
  exists b, mask_to_bbox m = ret b /\
    (0 <= bx1 b < bx2 b)%Z /\ (bx2 b <= Z.of_nat (mask_w m))%Z /\
    (0 <= by1 b < by2 b)%Z /\ (by2 b <= Z.of_nat (mask_h m))%Z /\
    bbox_iou b b = ret 1%Q.
Proof.
  intros H. destruct (mask_to_bbox_true m H) as (b & Hb & Hcov & Ht).
  destruct Ht as ((r1 & c1 & (Hr1 & Hc1 & Hp1) & E1) & (r2 & c2 & (Hr2 & Hc2 & Hp2) & E2) &
                  (r3 & c3 & (Hr3 & Hc3 & Hp3) & E3) & (r4 & c4 & (Hr4 & Hc4 & Hp4) & E4)).
  assert (Hin : inside b (Z.of_nat c1) (Z.of_nat r1)).
  { apply Hcov. unfold true_pixel. auto. }
  destruct Hin as [Hx Hy].
  assert (Hxs : (0 <= bx1 b < bx2 b)%Z) by lia.
  assert (Hys : (0 <= by1 b < by2 b)%Z) by lia.
  exists b. split; [exact Hb|]. split; [exact Hxs|]. split; [lia|].
  split; [exact Hys|]. split; [lia|].
  apply bbox_iou_identical. unfold positive_area. lia.
Qed.

(** X2, witness: the mask with true pixels at columns 0 and 3 of its first row. *)
Lemma mask_to_bbox_in_bounds_witness :
  exists b, mask_to_bbox mask_a = ret b /\ bbox_iou b b = ret 1%Q.
Proof.
  destruct (mask_to_bbox_in_bounds mask_a) as (b & H1 & _ & _ & _ & _ & H2).
  - exists 0%nat, 3%nat. exact mask_a_pixel.
  - exists b. split; [exact H1|exact H2].
Defined.

(** X20.  [mask_to_bbox] is monotone: when every true pixel of one mask is
    a true pixel of another, the box of the first lies inside the box of the
    second. *)
Theorem mask_to_bbox_monotone (m1 m2 : Mask) :
  has_true m1 ->
  (forall r c, true_pixel m1 r c -> true_pixel m2 r c) ->
  exists b1 b2,
    mask_to_bbox m1 = ret b1 /\ mask_to_bbox m2 = ret b2 /\
    (bx1 b2 <= bx1 b1)%Z /\ (by1 b2 <= by1 b1)%Z /\
    (bx2 b1 <= bx2 b2)%Z /\ (by2 b1 <= by2 b2)%Z.
Proof.
  intros H1 Hsub.
  assert (H2 : has_true m2).
  { destruct H1 as (r & c & H). exists r, c. apply Hsub. exact H. }
  destruct (mask_to_bbox_true m1 H1) as (b1 & E1 & _ & Ht).
  destruct (mask_to_bbox_true m2 H2) as (b2 & E2 & Hcov & _).
  exists b1, b2. split; [exact E1|]. split; [exact E2|].
  destruct Ht as ((ra & ca & Pa & Ea) & (rb & cb & Pb & Eb) &
                  (rc & cc & Pc & Ec) & (rd & cd & Pd & Ed)).
  pose proof (Hcov _ _ (Hsub _ _ Pa)) as [Ia _].
  pose proof (Hcov _ _ (Hsub _ _ Pb)) as [Ib _].
  pose proof (Hcov _ _ (Hsub _ _ Pc)) as [_ Ic].
  pose proof (Hcov _ _ (Hsub _ _ Pd)) as [_ Id].
  lia.
Qed.

(** X20, witness: the mask with the single true pixel at column 3, inside
    the mask with true pixels at columns 0 and 3; the boxes are [3, 0, 4, 1]
    and [0, 0, 4, 1]. *)
Lemma mask_to_bbox_monotone_witness :
  exists b1 b2,
    mask_to_bbox mask_a_right = ret b1 /\ mask_to_bbox mask_a = ret b2 /\
    (bx1 b2 <= bx1 b1)%Z /\ (by1 b2 <= by1 b1)%Z /\
    (bx2 b1 <= bx2 b2)%Z /\ (by2 b1 <= by2 b2)%Z.
Proof.
  apply (mask_to_bbox_monotone mask_a_right mask_a).
  - exists 0%nat, 3%nat. unfold true_pixel. simpl. repeat split; lia.
  - intros r c (Hr & Hc & H). unfold true_pixel. simpl in *.
    split; [exact Hr|]. split; [exact Hc|].
    destruct r as [|[|r]]; [| |lia];
      destruct c as [|[|[|[|[|c]]]]];
      try discriminate H; try reflexivity; lia.
Defined.

End GeometryMore.

(** ** Greedy suppression *)

Module NmsMore.
Import Geometry GeometrySpec GeometryFacts Embedder Matcher MatcherSpec NmsFacts.

Lemma zero_not_suppressed self l (U : gset nat) :
  suppression self l U -> 0%nat ∉ U.
Proof. intros HU H. apply HU in H. destruct H as [_ (k & Hk & _)]. lia. Qed.

(** X3.  [_nms] never raises; its output is an order-preserving
    sub-sequence of its input that starts with the first candidate; the empty
    list and a single candidate come back unchanged. *)
Theorem nms_subsequence (self : InstanceMatcher) (candidates : list MatchResult) :
  (exists kept, _nms self candidates = ret kept /\
                sublist kept candidates /\
                head kept = head candidates) /\
  _nms self [] = ret [] /\
  (forall c, _nms self [c] = ret [c]).
Proof.
  split; [|split].
  - destruct (nms_run_spec self candidates) as [U [E HU]].
    exists (kept_from 0 candidates U). split; [exact (nms_eq _ _ _ _ E)|].
    split; [apply kept_from_sublist|].
    destruct candidates as [|c l]; [reflexivity|].
    rewrite kept_from_cons.
    rewrite (bool_decide_eq_false_2 _ (zero_not_suppressed _ _ _ HU)). reflexivity.
  - reflexivity.
  - intros c. apply nms_nothing_suppressed. intros k j Hkj.
    unfold over_at. destruct k; [|reflexivity].
    destruct j; [lia|]. simpl. reflexivity.
Qed.

(** X4.  [_nms] is idempotent: run on its own output it suppresses
    nothing. *)
Theorem nms_idempotent (self : InstanceMatcher) (candidates : list MatchResult) :
  exists kept, _nms self candidates = ret kept /\ _nms self kept = ret kept.
Proof.
  destruct (nms_run_spec self candidates) as [U [E HU]].
  exists (kept_from 0 candidates U). split; [exact (nms_eq _ _ _ _ E)|].
  apply nms_nothing_suppressed. intros k j Hkj. unfold over_at.
  destruct (kept_from 0 candidates U !! k) as [ck|] eqn:Ek; [|reflexivity].
  destruct (kept_from 0 candidates U !! j) as [cj|] eqn:Ej; [|reflexivity].
  exact (StronglySorted_lookup _ _ _ _ _ _ (kept_no_overlap _ _ _ HU) Hkj Ek Ej).
Qed.

(** X21.  Nothing is dropped without a reason: a candidate of the input
    that is missing from the list [_nms] returns overlaps, above the
    threshold, an earlier candidate that is in that list. *)
Theorem nms_drop_has_cause (self : InstanceMatcher) (candidates : list MatchResult)
    (kept : list MatchResult) (j : nat) (cj : MatchResult) :
  returns (_nms self candidates) kept ->
  candidates !! j = Some cj ->
  ~ In cj kept ->
  exists k ck v,
    (k < j)%nat /\ candidates !! k = Some ck /\ In ck kept /\
    bbox_iou (bbox ck) (bbox cj) = ret v /\ (nms_iou_threshold self < v)%Q.
Proof.
  intros Hret Hj Hout. destruct (nms_run_spec self candidates) as [U [E HU]].
  unfold returns in Hret. rewrite (nms_eq _ _ _ _ E) in Hret.
  inversion Hret; subst kept. clear Hret.
  assert (HjU : j ∈ U).
  { destruct (decide (j ∈ U)) as [H|H]; [exact H|].
    exfalso. apply Hout. apply (kept_from_in_intro 0 candidates U j); [lia| |exact H].
    rewrite Nat.sub_0_r. exact Hj. }
  apply HU in HjU. destruct HjU as [_ (k & Hk & HkU & Ho)].
  unfold over_at in Ho. rewrite Hj in Ho.
  destruct (candidates !! k) as [ck|] eqn:Ek; [|discriminate].
  exists k, ck, (iou_value (bbox ck) (bbox cj)).
  split; [exact Hk|]. split; [exact Ek|].
  split.
  { apply (kept_from_in_intro 0 candidates U k); [lia| |exact HkU].
    rewrite Nat.sub_0_r. exact Ek. }
  split; [apply bbox_iou_total|].
  unfold over, Qltb in Ho. apply negb_true_iff in Ho.
  apply Qnot_le_lt. intros Hle. apply Qle_bool_iff in Hle. congruence.
Qed.

(** X21, witness: the second of three candidates on one box is missing from
    the output, which holds the first. *)
Lemma nms_drop_has_cause_witness :
  exists k ck v,
    (k < 1)%nat /\ Examples.same_box_triple !! k = Some ck /\
    In ck [Examples.cand Examples.box_near (9 / 10)] /\
    bbox_iou (bbox ck) (bbox (Examples.cand Examples.box_near (8 / 10))) = ret v /\
    (nms_iou_threshold Examples.default_matcher < v)%Q.
Proof.
  apply (nms_drop_has_cause Examples.default_matcher Examples.same_box_triple
           [Examples.cand Examples.box_near (9 / 10)] 1%nat
           (Examples.cand Examples.box_near (8 / 10))).
  - unfold returns. rewrite (nms_eq _ _ _ _ same_box_triple_run). reflexivity.
  - reflexivity.
  - intros [H|[]]. revert H. apply cand_similarity_neq. lra.
Defined.

End NmsMore.

(** ** Descriptors and their similarity *)

Module EmbedderMore.
Import Geometry Embedder EmbedderSpec EmbedderFacts MatcherFacts Tokens MoreSpec.
Import Examples ExampleFacts.
Local Open Scope R_scope.

Lemma np_dot_eq a b : length a = length b -> np_dot a b = ret (dot a b).
Proof. intros H. unfold np_dot. rewrite H, Nat.eqb_refl. reflexivity. Qed.

Lemma np_dot_mismatch a b : length a <> length b -> np_dot a b = raise ValueError.
Proof.
  intros H. unfold np_dot. apply Nat.eqb_neq in H. rewrite H. reflexivity.
Qed.

Lemma dot_comm a b : dot a b = dot b a.
Proof.
  unfold dot. revert b. induction a as [|x a IH]; intros [|y b]; simpl; try reflexivity.
  rewrite IH. ring.
Qed.

Lemma dot_self a : dot a a = sum_sq a.
Proof.
  unfold dot. induction a as [|x a IH]; simpl; [reflexivity|]. rewrite IH. reflexivity.
Qed.

Lemma dot_bounds a b :
  - (sum_sq a + sum_sq b) <= 2 * dot a b <= sum_sq a + sum_sq b.
Proof.
  unfold dot. revert b. induction a as [|x a IH]; intros [|y b]; simpl.
  - lra.
  - pose proof (sum_sq_nonneg (y :: b)) as H. simpl in H. lra.
  - pose proof (sum_sq_nonneg (x :: a)) as H. simpl in H. lra.
  - specialize (IH b).
    pose proof (Rle_0_sqr (x - y)) as H1. pose proof (Rle_0_sqr (x + y)) as H2.
    unfold Rsqr in H1, H2. lra.
Qed.

Lemma norm2_le_1_sum_sq v : norm2 v <= 1 -> sum_sq v <= 1.
Proof.
  unfold norm2. intros H. pose proof (sum_sq_nonneg v) as H0.
  rewrite <- (sqrt_sqrt (sum_sq v)) by exact H0.
  pose proof (sqrt_pos (sum_sq v)). nra.
Qed.

Lemma norm2_1_sum_sq v : norm2 v = 1 -> sum_sq v = 1.
Proof.
  unfold norm2. intros H. pose proof (sum_sq_nonneg v) as H0.
  rewrite <- (sqrt_sqrt (sum_sq v)) by exact H0. rewrite H. ring.
Qed.

(** X5.  [cosine_similarity] is symmetric and raises [ValueError] for
    vectors of different lengths; for two vectors of one length and norm at
    most 1 it returns a value in [-1, 1], and for a unit vector with itself
    it returns exactly 1. *)
Theorem cosine_similarity_range (a b : vec) :
  cosine_similarity a b = cosine_similarity b a /\
  (length a <> length b -> cosine_similarity a b = raise ValueError) /\
  (length a = length b -> norm2 a <= 1 -> norm2 b <= 1 ->
   exists s, cosine_similarity a b = ret s /\ -1 <= s <= 1) /\
  (norm2 a = 1 -> cosine_similarity a a = ret 1).
Proof.
  unfold cosine_similarity. split; [|split; [|split]].
  - destruct (Nat.eq_dec (length a) (length b)) as [E|E].
    + rewrite (np_dot_eq _ _ E), (np_dot_eq b a) by (symmetry; exact E).
      rewrite dot_comm. reflexivity.
    + rewrite (np_dot_mismatch _ _ E), (np_dot_mismatch b a) by congruence.
      reflexivity.
  - apply np_dot_mismatch.
  - intros E Ha Hb. exists (dot a b). split; [apply np_dot_eq; exact E|].
    apply norm2_le_1_sum_sq in Ha, Hb. pose proof (dot_bounds a b). lra.
  - intros Ha. rewrite np_dot_eq by reflexivity. rewrite dot_self.
    rewrite (norm2_1_sum_sq _ Ha). reflexivity.
Qed.

(** X5, witness: two of the unit descriptors of the example data. *)
Lemma cosine_similarity_range_witness :
  (exists s, cosine_similarity e1 e2 = ret s /\ -1 <= s <= 1) /\
  cosine_similarity e1 e1 = ret 1.
Proof.
  assert (H1 : norm2 e1 = 1) by exact norm2_e1.
  assert (H2 : norm2 e2 = 1).
  { unfold norm2. rewrite sum_sq_e2. apply sqrt_1. }
  split.
  - apply (proj1 (proj2 (proj2 (cosine_similarity_range e1 e2)))).
    + reflexivity.
    + rewrite H1. lra.
    + rewrite H2. lra.
  - apply (proj2 (proj2 (proj2 (cosine_similarity_range e1 e1)))). exact H1.
Defined.

Lemma map_py_Forall2 {A B} (f : A -> py B) (xs : list A) (ys : list B) :
  returns (map_py f xs) ys <-> Forall2 (fun x y => returns (f x) y) xs ys.
Proof.
  revert ys. induction xs as [|x xs IH]; intros ys; cbn [map_py].
  - split.
    + intros H. apply (returns_ret [] ys) in H. subst. constructor.
    + intros H. inversion H. reflexivity.
  - split.
    + intros H. apply bind_returns in H. destruct H as [y [Hy H]].
      apply bind_returns in H. destruct H as [ys' [H1 H2]].
      apply (returns_ret (y :: ys') ys) in H2. subst.
      constructor; [exact Hy|]. apply IH. exact H1.
    + intros H. inversion H as [|? y ? ys' Hy Hys]; subst.
      eapply bind_returns_intro; [exact Hy|].
      eapply bind_returns_intro; [apply IH; exact Hys|]. reflexivity.
Qed.

(** A returned batch of similarities holds, row by row, the dot product of
    the row with the reference. *)
Lemma batch_cosine_similarity_Forall2 (reference : vec) (candidates : list vec)
    (similarities : list R) :
  returns (batch_cosine_similarity reference candidates) similarities ->
  Forall2 (fun c s => returns (np_dot c reference) s) candidates similarities.
Proof.
  unfold batch_cosine_similarity. destruct candidates as [|c cs].
  - destruct (DINOV2_EMBEDDING_DIM =? length reference)%nat;
      unfold returns; simpl; intros H; inversion H; constructor.
  - apply map_py_Forall2.
Qed.

(** Every vector that leaves [F.normalize] has norm at most 1. *)
Lemma norm2_normalize_le_1 (v : vec) : norm2 (F_normalize v) <= 1.
Proof.
  rewrite norm2_normalize.
  pose proof (norm2_nonneg v). pose proof normalize_eps_pos.
  pose proof (Rmax_l (norm2 v) normalize_eps).
  pose proof (Rmax_r (norm2 v) normalize_eps).
  apply Rmult_le_reg_r with (Rmax (norm2 v) normalize_eps); [lra|].
  unfold Rdiv. rewrite Rmult_assoc, Rinv_l by lra. lra.
Qed.

Lemma map_py_silent {A B} (f : A -> py B) (xs : list A) :
  (forall x, fst (f x) = []) -> fst (map_py f xs) = [].
Proof.
  intros Hf. induction xs as [|x xs IH]; cbn [map_py]; [reflexivity|].
  specialize (Hf x). unfold bind.
  destruct (f x) as [l1 [y|e]]; simpl in Hf; subst l1; [|reflexivity].
  destruct (map_py f xs) as [l2 [ys|e]]; simpl in IH; subst l2; reflexivity.
Qed.

Lemma silent_returns {A} (m : py A) (a : A) :
  fst m = [] -> returns m a -> m = ret a.
Proof.
  destruct m as [l r]. unfold returns, ret. simpl. intros -> ->. reflexivity.
Qed.

Lemma np_dot_silent a b : fst (np_dot a b) = [].
Proof. unfold np_dot. destruct (length a =? length b)%nat; reflexivity. Qed.

Lemma batch_cosine_similarity_silent reference candidates :
  fst (batch_cosine_similarity reference candidates) = [].
Proof.
  unfold batch_cosine_similarity. destruct candidates as [|c cs].
  - destruct (DINOV2_EMBEDDING_DIM =? length reference)%nat; reflexivity.
  - apply map_py_silent. intros x. apply np_dot_silent.
Qed.

Section PoolingMore.
Context {Image : Type}.
Variable patch_embeddings : Image -> PatchGrid.
Variable interpolate : Mask -> nat -> nat -> option (list Q).

Lemma single_returns_iff image mask emb :
  returns (compute_ffa_embedding patch_embeddings interpolate image mask) emb <->
  returns (pool_one interpolate (patch_embeddings image) mask) emb.
Proof.
  destruct (interpolate mask (grid_h (patch_embeddings image))
                        (grid_w (patch_embeddings image))) as [cov|] eqn:E.
  - rewrite (compute_ffa_embedding_eq _ _ _ _ _ E), (pool_one_eq _ _ _ _ _ E).
    unfold returns. simpl. reflexivity.
  - rewrite (pool_one_raises _ _ _ _ E).
    unfold compute_ffa_embedding, F_interpolate. rewrite E.
    unfold returns. simpl. reflexivity.
Qed.

Lemma single_returns_normalized image mask emb :
  returns (compute_ffa_embedding patch_embeddings interpolate image mask) emb ->
  exists cov,
    interpolate mask (grid_h (patch_embeddings image))
                (grid_w (patch_embeddings image)) = Some cov /\
    emb = pooled (patch_embeddings image) cov.
Proof.
  destruct (interpolate mask (grid_h (patch_embeddings image))
                        (grid_w (patch_embeddings image))) as [cov|] eqn:E.
  - rewrite (compute_ffa_embedding_eq _ _ _ _ _ E). unfold returns. simpl.
    intros H. inversion H. exists cov. auto.
  - unfold compute_ffa_embedding, F_interpolate. rewrite E.
    unfold returns. simpl. discriminate.
Qed.

Lemma batch_single_iff (image : Image) (masks : list Mask) (embs : list vec) :
  returns (compute_batch_ffa_embeddings patch_embeddings interpolate image masks)
          embs <->
  Forall2 (fun mask emb =>
             returns (compute_ffa_embedding patch_embeddings interpolate
                        image mask) emb) masks embs.
Proof.
  assert (H : returns (compute_batch_ffa_embeddings patch_embeddings interpolate
                         image masks) embs <->
              returns (map_py (pool_one interpolate (patch_embeddings image)) masks)
                      embs).
  { unfold compute_batch_ffa_embeddings. destruct masks; reflexivity. }
  rewrite H, map_py_Forall2. split; intros HF.
  - eapply Forall2_impl; [exact HF|]. intros m e. apply single_returns_iff.
  - eapply Forall2_impl; [exact HF|]. intros m e. apply single_returns_iff.
Qed.

(** X7.  The batch pooling gives, mask by mask, what the single pooling
    gives: it returns a list exactly when [compute_ffa_embedding] returns
    for every mask, and the list holds those descriptors in mask order (so
    one descriptor per mask). *)
Theorem batch_agrees_with_single (image : Image) (masks : list Mask)
    (embs : list vec) :
  returns (compute_batch_ffa_embeddings patch_embeddings interpolate image masks)
          embs <->
  Forall2 (fun mask emb =>
             returns (compute_ffa_embedding patch_embeddings interpolate
                        image mask) emb) masks embs.
Proof. apply batch_single_iff. Qed.

(** X8.  A descriptor returned by the pooler never has norm above 1, and
    the cosine similarity of two returned descriptors, when it is defined,
    lies in [-1, 1]. *)
Theorem pooled_similarity_range (image1 image2 : Image) (mask1 mask2 : Mask)
    (emb1 emb2 : vec) (s : R) :
  returns (compute_ffa_embedding patch_embeddings interpolate image1 mask1) emb1 ->
  returns (compute_ffa_embedding patch_embeddings interpolate image2 mask2) emb2 ->
  returns (cosine_similarity emb1 emb2) s ->
  norm2 emb1 <= 1 /\ norm2 emb2 <= 1 /\ -1 <= s <= 1.
Proof.
  intros H1 H2 Hs.
  apply single_returns_normalized in H1, H2.
  destruct H1 as (c1 & _ & ->). destruct H2 as (c2 & _ & ->).
  unfold pooled in *.
  pose proof (norm2_normalize_le_1 (averaged (patch_embeddings image1) c1)) as N1.
  pose proof (norm2_normalize_le_1 (averaged (patch_embeddings image2) c2)) as N2.
  split; [exact N1|]. split; [exact N2|].
  unfold cosine_similarity, np_dot in Hs.
  destruct (length _ =? length _)%nat; [|unfold returns in Hs; discriminate].
  apply (returns_ret _ s) in Hs. subst s.
  apply norm2_le_1_sum_sq in N1, N2.
  pose proof (dot_bounds (F_normalize (averaged (patch_embeddings image1) c1))
                         (F_normalize (averaged (patch_embeddings image2) c2))) as Hb.
  unfold dot in Hb. lra.
Qed.

(** X6.  The similarities [batch_cosine_similarity] returns for the
    descriptors of [compute_batch_ffa_embeddings] and a reference of norm at
    most 1: there is one per mask, and each lies in [-1, 1]. *)
Theorem batch_similarities_in_range (image : Image) (masks : list Mask)
    (embs : list vec) (reference : vec) (sims : list R) :
  returns (compute_batch_ffa_embeddings patch_embeddings interpolate image masks)
          embs ->
  norm2 reference <= 1 ->
  returns (batch_cosine_similarity reference embs) sims ->
  length sims = length masks /\ Forall (fun s => -1 <= s <= 1) sims.
Proof.
  intros He Hr Hs.
  apply batch_single_iff in He. apply batch_cosine_similarity_Forall2 in Hs.
  split.
  { apply Forall2_length in He, Hs. congruence. }
  assert (Hn : Forall (fun e => norm2 e <= 1) embs).
  { clear Hs. induction He as [|mask emb masks embs H _ IH]; constructor; [|exact IH].
    apply single_returns_normalized in H. destruct H as (c & _ & ->).
    unfold pooled. apply norm2_normalize_le_1. }
  clear He. apply norm2_le_1_sum_sq in Hr.
  induction Hs as [|c s embs sims H _ IH]; constructor.
  - inversion Hn as [|? ? N _]; subst. apply norm2_le_1_sum_sq in N.
    unfold np_dot in H.
    destruct (length c =? length reference)%nat; [|unfold returns in H; discriminate].
    apply (returns_ret _ s) in H. subst s.
    pose proof (dot_bounds c reference) as Hb. unfold dot in Hb. lra.
  - apply IH. inversion Hn; assumption.
Qed.


Lemma pool_one_silent grid mask : fst (pool_one interpolate grid mask) = [].
Proof.
  unfold pool_one, F_interpolate.
  destruct (interpolate mask (grid_h grid) (grid_w grid)); reflexivity.
Qed.

End PoolingMore.

End EmbedderMore.

(** ** Patch tokens *)

Module TokensFacts.
Import Embedder Tokens.

Lemma slice_last_app {A} (pre suf : list A) :
  length suf <> 0%nat -> slice_last (pre ++ suf) (length suf) = suf.
Proof.
  intros H. unfold slice_last. apply Nat.eqb_neq in H. rewrite H.
  rewrite length_app. replace (length pre + length suf - length suf)%nat
    with (length pre) by lia.
  apply drop_app_length.
Qed.

(** X10.  [_get_patch_embeddings] returns the grid size (h // 14, w // 14)
    and the last h // 14 * w // 14 tokens: when the model output ends with
    that many patch tokens, whatever class and register tokens precede them
    are dropped.  When the count is 0 (an image lower or narrower than one
    patch) the slice [-0:] keeps every token, and when the model emitted
    fewer tokens than expected all of them are kept. *)
Theorem patch_tokens_are_last (h w : nat) (leading patch_tokens tokens : list vec) :
  let n := ((h / 14) * (w / 14))%nat in
  (length patch_tokens = n -> n <> 0%nat ->
   _get_patch_embeddings (leading ++ patch_tokens) h w =
     (patch_tokens, (h / 14)%nat, (w / 14)%nat)) /\
  (n = 0%nat \/ (length tokens <= n)%nat ->
   _get_patch_embeddings tokens h w = (tokens, (h / 14)%nat, (w / 14)%nat)).
Proof.
  intros n. unfold _get_patch_embeddings, DINOV2_PATCH_SIZE. fold n. split.
  - intros Hlen Hn. rewrite <- Hlen. rewrite slice_last_app by lia. reflexivity.
  - intros [Hz|Hle]; unfold slice_last.
    + rewrite Hz. reflexivity.
    + destruct (n =? 0)%nat; [reflexivity|].
      replace (length tokens - n)%nat with 0%nat by lia. reflexivity.
Qed.

(** X10, witness: a 28 x 28 input (a 2 x 2 grid) whose model output is one
    class token followed by four patch tokens; a 10 x 28 input, with no
    whole patch. *)
Lemma patch_tokens_are_last_witness :
  _get_patch_embeddings ([[9%R]] ++ [[1%R]; [2%R]; [3%R]; [4%R]]) 28 28 =
    ([[1%R]; [2%R]; [3%R]; [4%R]], 2%nat, 2%nat) /\
  _get_patch_embeddings [[9%R]; [1%R]] 10 28 = ([[9%R]; [1%R]], 0%nat, 2%nat).
Proof.
  split.
  - apply (proj1 (patch_tokens_are_last 28 28 [[9%R]] [[1%R]; [2%R]; [3%R]; [4%R]] [])).
    + reflexivity.
    + discriminate.
  - apply (proj2 (patch_tokens_are_last 10 28 [] [] [[9%R]; [1%R]])).
    left. reflexivity.
Defined.

End TokensFacts.

(** ** The proposal generator *)

Module SegmenterFacts.
Import Geometry Embedder Matcher MatcherFacts Segmenter MoreSpec.
Local Open Scope R_scope.

Lemma insert_by_iou_perm x s : Permutation (insert_by_iou x s) (x :: s).
Proof.
  induction s as [|y s IH]; simpl; [reflexivity|].
  destruct (Rltb (p_predicted_iou x) (p_predicted_iou y)); [|reflexivity].
  transitivity (y :: x :: s); [constructor; exact IH|apply perm_swap].
Qed.

Lemma sort_by_iou_perm l : Permutation (sort_by_iou l) l.
Proof.
  induction l as [|x l IH]; simpl; [constructor|].
  rewrite insert_by_iou_perm. constructor. exact IH.
Qed.

Lemma insert_by_iou_sorted x s :
  StronglySorted by_iou_desc s -> StronglySorted by_iou_desc (insert_by_iou x s).
Proof.
  induction 1 as [|y s Hs IH Hy]; simpl.
  - constructor; constructor.
  - destruct (Rltb (p_predicted_iou x) (p_predicted_iou y)) eqn:E.
    + apply Rltb_true in E. constructor; [exact IH|].
      rewrite insert_by_iou_perm. constructor; [unfold by_iou_desc; lra|exact Hy].
    + apply Rltb_false in E. constructor; [constructor; assumption|].
      constructor; [exact E|].
      eapply Forall_impl; [exact Hy|]. intros z Hz. unfold by_iou_desc in *. lra.
Qed.

Lemma sort_by_iou_sorted l : StronglySorted by_iou_desc (sort_by_iou l).
Proof.
  induction l as [|x l IH]; simpl; [constructor|].
  apply insert_by_iou_sorted. exact IH.
Qed.

Lemma sort_by_iou_sorted_id l : StronglySorted by_iou_desc l -> sort_by_iou l = l.
Proof.
  induction 1 as [|x l Hl IH Hx]; simpl; [reflexivity|].
  rewrite IH. destruct l as [|y l]; [reflexivity|]. simpl.
  inversion Hx as [|? ? Hy _]; subst.
  apply Rltb_false in Hy. rewrite Hy. reflexivity.
Qed.

Lemma out_of_range_false lo hi p :
  out_of_range lo hi p = false <-> lo <= IZR (p_area p) <= hi.
Proof.
  unfold out_of_range. rewrite orb_false_iff, !Rltb_false. tauto.
Qed.

Section ProposalsFacts.
Context {Image : Type}.
Variable generate : Image -> list Proposal.
Variable shape : Image -> nat * nat.

Lemma generate_proposals_eq config image lo hi :
  snd (generate_proposals generate shape config image lo hi) =
    sort_by_iou (List.filter
      (fun p => negb (out_of_range
                        (effective_ratio lo (MIN_MASK_AREA_RATIO config) *
                         INR (image_area shape image))
                        (effective_ratio hi (MAX_MASK_AREA_RATIO config) *
                         INR (image_area shape image)) p))
      (generate image)).
Proof. unfold generate_proposals. destruct lo, hi; reflexivity. Qed.

Lemma generate_proposals_in config image lo hi p :
  In p (snd (generate_proposals generate shape config image lo hi)) <->
  In p (generate image) /\
  effective_ratio lo (MIN_MASK_AREA_RATIO config) * INR (image_area shape image)
    <= IZR (p_area p)
    <= effective_ratio hi (MAX_MASK_AREA_RATIO config) * INR (image_area shape image).
Proof.
  rewrite generate_proposals_eq.
  rewrite <- !list_elem_of_In, sort_by_iou_perm, !list_elem_of_In.
  rewrite filter_In, negb_true_iff, out_of_range_false. reflexivity.
Qed.

(** X11.  [generate_proposals] returns exactly the raw masks whose area lies
    between [min_area_ratio] and [max_area_ratio] times the image area, each
    as often as the generator emitted it; a ratio passed explicitly is used
    as given (also 0), the configured one only for [None]; and the line
    printed reports the two list lengths. *)
Theorem generate_proposals_area_filter (config : AreaConfig) (image : Image)
    (min_area_ratio max_area_ratio : option R) :
  let lo := (effective_ratio min_area_ratio (MIN_MASK_AREA_RATIO config) *
             INR (image_area shape image)) in
  let hi := (effective_ratio max_area_ratio (MAX_MASK_AREA_RATIO config) *
             INR (image_area shape image)) in
  let out := generate_proposals generate shape config image
               min_area_ratio max_area_ratio in
  (forall p, In p (snd out) <->
             In p (generate image) /\ lo <= IZR (p_area p) <= hi) /\
  Permutation (snd out)
    (List.filter (fun p => negb (out_of_range lo hi p)) (generate image)) /\
  fst out = [MsgGenerated (length (snd out)) (length (generate image))] /\
  (length (snd out) <= length (generate image))%nat.
Proof.
  intros lo hi out. split; [|split; [|split]].
  - intros p. apply generate_proposals_in.
  - unfold out. rewrite generate_proposals_eq. apply sort_by_iou_perm.
  - unfold out, generate_proposals. destruct min_area_ratio, max_area_ratio; reflexivity.
  - unfold out. rewrite generate_proposals_eq.
    rewrite (Permutation_length (sort_by_iou_perm _)). apply filter_length_le.
Qed.

(** X12.  The proposals come back ordered by the generator's predicted IoU,
    highest first, and raw masks that are already in that order keep their
    relative order. *)
Theorem generate_proposals_sorted (config : AreaConfig) (image : Image)
    (min_area_ratio max_area_ratio : option R) :
  let out := snd (generate_proposals generate shape config image
                    min_area_ratio max_area_ratio) in
  (forall i j pi pj, (i < j)%nat -> out !! i = Some pi -> out !! j = Some pj ->
     p_predicted_iou pj <= p_predicted_iou pi) /\
  (StronglySorted by_iou_desc (generate image) -> sublist out (generate image)).
Proof.
  intros out. unfold out. rewrite generate_proposals_eq. split.
  - intros i j pi pj Hij Hi Hj.
    exact (NmsFacts.StronglySorted_lookup _ _ _ _ _ _ (sort_by_iou_sorted _) Hij Hi Hj).
  - intros Hs.
    set (f := fun p => negb (out_of_range _ _ p)).
    assert (Hsub : sublist (List.filter f (generate image)) (generate image)).
    { clear. induction (generate image) as [|x l IH]; simpl; [constructor|].
      destruct (f x); [constructor|apply sublist_cons]; exact IH. }
    rewrite sort_by_iou_sorted_id; [exact Hsub|].
    eapply NmsFacts.StronglySorted_sublist; [exact Hsub|exact Hs].
Qed.

End ProposalsFacts.

End SegmenterFacts.

(** ** The per-image pipeline, further *)

Module MatcherMore.
Import Geometry GeometrySpec GeometryFacts Embedder EmbedderSpec EmbedderFacts.
Import Matcher MatcherSpec NmsFacts MatcherFacts MoreSpec EmbedderMore NmsMore.
Local Open Scope R_scope.

Lemma enumerate_lookup {A} (l : list A) i x :
  In (i, x) (enumerate l) -> l !! i = Some x.
Proof.
  unfold enumerate.
  assert (G : forall a, In (i, x) (combine (seq a (length l)) l) ->
                        (a <= i)%nat /\ l !! (i - a)%nat = Some x).
  { induction l as [|y l IH]; intros a; [intros []|].
    simpl. intros [H|H].
    - inversion H; subst. split; [lia|]. rewrite Nat.sub_diag. reflexivity.
    - apply IH in H. destruct H as [H1 H2]. split; [lia|].
      replace (i - a)%nat with (S (i - S a)) by lia. exact H2. }
  intros H. apply G in H. destruct H as [_ H]. rewrite Nat.sub_0_r in H. exact H.
Qed.

Lemma lookup_enumerate {A} (l : list A) i x :
  l !! i = Some x -> In (i, x) (enumerate l).
Proof.
  unfold enumerate.
  assert (G : forall a, l !! i = Some x ->
                        In ((a + i)%nat, x) (combine (seq a (length l)) l)).
  { revert i. induction l as [|y l IH]; intros i a; [discriminate|].
    destruct i as [|i]; simpl.
    - intros H. inversion H; subst. left. rewrite Nat.add_0_r. reflexivity.
    - intros H. right. replace (a + S i)%nat with (S a + i)%nat by lia.
      apply IH. exact H. }
  intros H. apply (G 0%nat) in H. exact H.
Qed.

Lemma combine_lookup {A B} (l : list A) (k : list B) i x y :
  combine l k !! i = Some (x, y) <-> l !! i = Some x /\ k !! i = Some y.
Proof.
  revert k i. induction l as [|a l IH]; intros [|b k] i; simpl.
  - split; [discriminate|intros [H _]; discriminate].
  - split; [discriminate|intros [H _]; discriminate].
  - split; [discriminate|intros [_ H]; rewrite lookup_nil in H; discriminate].
  - destruct i as [|i]; simpl.
    + split; [intros H; inversion H; auto|intros [H1 H2]; congruence].
    + apply IH.
Qed.

Lemma for_each_ext {A S} (f g : S -> A -> py S) (xs : list A) (s : S) :
  (forall s x, f s x = g s x) -> for_each f xs s = for_each g xs s.
Proof.
  intros H. revert s. induction xs as [|x xs IH]; intros s; simpl; [reflexivity|].
  rewrite H. unfold bind. destruct (g s x) as [l [s'|e]]; [|reflexivity].
  rewrite IH. reflexivity.
Qed.

(** [_nms] reads nothing of the matcher but the overlap threshold. *)
Lemma nms_threshold_only self1 self2 l :
  nms_iou_threshold self1 = nms_iou_threshold self2 ->
  _nms self1 l = _nms self2 l.
Proof.
  intros H. unfold _nms. destruct l as [|c l]; [reflexivity|].
  f_equal. apply for_each_ext. intros [kept U] [i cand]. unfold nms_outer.
  destruct (bool_decide (i ∈ U)); [reflexivity|]. f_equal.
  apply for_each_ext. intros U' j. unfold nms_inner. rewrite H. reflexivity.
Qed.

Lemma retained_in t embs items c :
  In c (retained t embs items) <->
  exists i sim p, In (i, (sim, p)) items /\ t <= sim /\
                  c = candidate_of embs (i, (sim, p)).
Proof.
  unfold retained. rewrite in_map_iff. split.
  - intros [[i [sim p]] [<- H]]. apply filter_In in H. destruct H as [H1 H2].
    apply Rgeb_true in H2. exists i, sim, p. auto.
  - intros (i & sim & p & H1 & H2 & ->). exists (i, (sim, p)).
    split; [reflexivity|]. apply filter_In. split; [exact H1|].
    apply Rgeb_true. exact H2.
Qed.

Lemma ranked_in self props embs sims c :
  In c (ranked self props embs sims) <->
  exists i sim p, sims !! i = Some sim /\ props !! i = Some p /\
                  similarity_threshold self <= sim /\
                  c = candidate_of embs (i, (sim, p)).
Proof.
  unfold ranked.
  rewrite <- list_elem_of_In, sort_desc_permutation, list_elem_of_In, retained_in.
  split; intros (i & sim & p & H).
  - destruct H as (H1 & H2 & H3). apply enumerate_lookup, combine_lookup in H1.
    exists i, sim, p. tauto.
  - destruct H as (H1 & H2 & H3 & H4). exists i, sim, p.
    split; [|auto]. apply lookup_enumerate, combine_lookup. auto.
Qed.

(** *** Raising the similarity threshold *)

Lemma insert_desc_front x s :
  Forall (fun y => similarity y <= similarity x) s -> insert_desc x s = x :: s.
Proof.
  intros H. destruct s as [|y s]; [reflexivity|]. simpl.
  inversion H as [|? ? Hy _]; subst. apply Rltb_false in Hy. rewrite Hy. reflexivity.
Qed.

Lemma insert_desc_filter (P : MatchResult -> bool) x s :
  StronglySorted desc s ->
  List.filter P (insert_desc x s) =
    if P x then insert_desc x (List.filter P s) else List.filter P s.
Proof.
  induction 1 as [|y s Hs IH Hy]; simpl.
  - destruct (P x); reflexivity.
  - destruct (Rltb (similarity x) (similarity y)) eqn:E.
    + simpl. rewrite IH. destruct (P y), (P x); simpl; rewrite ?E; reflexivity.
    + apply Rltb_false in E. simpl. destruct (P x); [|reflexivity].
      symmetry. apply insert_desc_front.
      assert (Hall : Forall (fun z => similarity z <= similarity x) (y :: s)).
      { constructor; [exact E|]. eapply Forall_impl; [exact Hy|].
        intros z Hz. unfold desc in Hz. lra. }
      rewrite Forall_forall in Hall. apply Forall_forall. intros z Hz.
      apply Hall. apply list_elem_of_In. apply list_elem_of_In in Hz.
      change (In z (List.filter P (y :: s))) in Hz.
      apply filter_In in Hz. tauto.
Qed.

Lemma sort_desc_filter (P : MatchResult -> bool) l :
  List.filter P (sort_desc l) = sort_desc (List.filter P l).
Proof.
  induction l as [|x l IH]; simpl; [reflexivity|].
  rewrite insert_desc_filter by apply sort_desc_sorted. rewrite IH.
  destruct (P x); reflexivity.
Qed.

Lemma retained_filter t1 t2 embs items :
  t1 <= t2 ->
  retained t2 embs items =
    List.filter (fun c => Rgeb (similarity c) t2) (retained t1 embs items).
Proof.
  intros Ht. unfold retained. induction items as [|[i [sim p]] items IH]; simpl;
    [reflexivity|].
  destruct (Rgeb sim t2) eqn:E2.
  - assert (E1 : Rgeb sim t1 = true).
    { apply Rgeb_true. apply Rgeb_true in E2. lra. }
    rewrite E1. simpl. rewrite E2, IH. reflexivity.
  - destruct (Rgeb sim t1); simpl; rewrite ?E2; exact IH.
Qed.

Lemma sorted_filter_prefix t s :
  StronglySorted desc s ->
  List.filter (fun c => Rgeb (similarity c) t) s `prefix_of` s.
Proof.
  induction 1 as [|x s Hs IH Hx]; simpl; [apply prefix_nil|].
  destruct (Rgeb (similarity x) t) eqn:E.
  - apply prefix_cons. exact IH.
  - replace (List.filter (fun c => Rgeb (similarity c) t) s) with (@nil MatchResult);
      [apply prefix_nil|].
    symmetry. clear IH Hs. induction Hx as [|y s Hy Hx IH]; simpl; [reflexivity|].
    destruct (Rgeb (similarity y) t) eqn:Ey; [|exact IH].
    apply Rgeb_true in Ey. unfold desc in Hy.
    assert (t <= similarity x) by lra.
    apply Rgeb_true in H. congruence.
Qed.

Lemma kept_from_app a l r (U : gset nat) :
  kept_from a (l ++ r) U = kept_from a l U ++ kept_from (a + length l) r U.
Proof.
  revert a. induction l as [|c l IH]; intros a.
  - simpl. rewrite Nat.add_0_r. reflexivity.
  - simpl app. rewrite !kept_from_cons, IH. simpl length.
    replace (S a + length l)%nat with (a + S (length l))%nat by lia.
    destruct (bool_decide (a ∈ U)); reflexivity.
Qed.

(** The suppression of a prefix is the suppression of the whole list, cut. *)
Lemma nms_prefix self l2 l k2 k1 :
  l2 `prefix_of` l ->
  returns (_nms self l2) k2 -> returns (_nms self l) k1 ->
  k2 `prefix_of` k1.
Proof.
  intros [r ->] H2 H1.
  destruct (nms_run_spec self l2) as [U2 [E2 HU2]].
  destruct (nms_run_spec self (l2 ++ r)) as [U1 [E1 HU1]].
  unfold returns in H1, H2.
  rewrite (nms_eq _ _ _ _ E2) in H2. rewrite (nms_eq _ _ _ _ E1) in H1.
  inversion H1; inversion H2; subst. clear H1 H2.
  assert (Hover : forall k j, (k < j)%nat -> (j < length l2)%nat ->
            over_at self (l2 ++ r) k j = over_at self l2 k j).
  { intros k j Hk Hj. unfold over_at. rewrite !lookup_app_l by lia. reflexivity. }
  assert (Hagree : forall j, (j < length l2)%nat -> (j ∈ U2) <-> (j ∈ U1)).
  { intros j. induction j as [j IH] using lt_wf_ind. intros Hj.
    rewrite (HU2 j), (HU1 j). rewrite length_app. split.
    - intros [_ (k & Hk & HkU & Ho)]. split; [lia|]. exists k.
      split; [exact Hk|]. split.
      + intros Hin. apply HkU. apply IH; [exact Hk|lia|exact Hin].
      + rewrite Hover by assumption. exact Ho.
    - intros [_ (k & Hk & HkU & Ho)]. split; [exact Hj|]. exists k.
      split; [exact Hk|]. split.
      + intros Hin. apply HkU. apply IH; [exact Hk|lia|exact Hin].
      + rewrite <- Hover by assumption. exact Ho. }
  rewrite kept_from_app.
  rewrite (kept_from_ext 0 l2 U2 U1) by (intros k Hk; apply Hagree; lia).
  apply prefix_app_r. reflexivity.
Qed.

Lemma slice_stop_prefix {A} (p q : list A) (k : Z) :
  p `prefix_of` q -> slice_stop p k `prefix_of` slice_stop q k.
Proof.
  intros [r ->]. unfold slice_stop. rewrite length_app.
  destruct (k <? 0)%Z eqn:E.
  - set (a := Z.to_nat (Z.max 0 (Z.of_nat (length p) + k))).
    set (b := Z.to_nat (Z.max 0 (Z.of_nat (length p + length r) + k))).
    apply Z.ltb_lt in E.
    assert (Ha : (a <= length p)%nat) by (unfold a; lia).
    assert (Hab : (a <= b)%nat) by (unfold a, b; lia).
    rewrite <- (firstn_skipn a (firstn b (p ++ r))).
    rewrite firstn_firstn, Nat.min_l by exact Hab.
    rewrite firstn_app. replace (a - length p)%nat with 0%nat by lia.
    simpl. rewrite app_nil_r. apply prefix_app_r. reflexivity.
  - rewrite firstn_app. apply prefix_app_r. reflexivity.
Qed.

Section MatchingMore.
Context {Image : Type}.
Variable generate_proposals : Image -> list Proposal.
Variable n_raw_masks : Image -> nat.
Variable patch_embeddings : Image -> PatchGrid.
Variable interpolate : Mask -> nat -> nat -> option (list Q).

Abbreviation match_in_image :=
  (match_in_image generate_proposals n_raw_masks patch_embeddings interpolate).
Abbreviation match_across_images :=
  (match_across_images generate_proposals n_raw_masks patch_embeddings interpolate).
Abbreviation pool image masks :=
  (compute_batch_ffa_embeddings patch_embeddings interpolate image masks).
Abbreviation ranked_of self image embs sims :=
  (ranked self (generate_proposals image) embs sims).

(** The shape of every result: the kept candidates, cut by [top_k]. *)
Lemma result_shape self image reference path res :
  returns (match_in_image self image reference path) res ->
  image_path res = path /\ Matcher.image res = image /\
  ((generate_proposals image = [] /\ matches res = []) \/
   exists embs sims kept,
     generate_proposals image <> [] /\
     returns (pool image (map p_segmentation (generate_proposals image))) embs /\
     returns (batch_cosine_similarity reference embs) sims /\
     returns (_nms self (ranked_of self image embs sims)) kept /\
     matches res = slice_stop kept (top_k self)).
Proof.
  intros H.
  assert (Hcase : generate_proposals image = [] \/ generate_proposals image <> []).
  { destruct (generate_proposals image); [left; reflexivity|right; discriminate]. }
  destruct Hcase as [Ep|Hne].
  - rewrite match_in_image_empty in H by exact Ep.
    unfold returns in H. simpl in H. inversion H. simpl. auto.
  - destruct (match_in_image_steps _ _ _ _ _ _ _ _ _ Hne H) as (embs & sims & He & Hs).
    destruct (nms_total self (ranked_of self image embs sims)) as [kept Hk].
    assert (Hk' : returns (_nms self (ranked_of self image embs sims)) kept).
    { unfold returns. rewrite Hk. reflexivity. }
    pose proof (match_in_image_kept generate_proposals n_raw_masks patch_embeddings interpolate self image reference path embs sims kept
                  Hne He Hs Hk') as Hr.
    rewrite (returns_inj _ _ _ H Hr). simpl.
    split; [reflexivity|]. split; [reflexivity|].
    right. exists embs, sims, kept. auto.
Qed.

Lemma kept_sublist self l kept : returns (_nms self l) kept -> sublist kept l.
Proof.
  intros H. destruct (nms_run_spec self l) as [U [E _]].
  unfold returns in H. rewrite (nms_eq _ _ _ _ E) in H.
  inversion H. apply kept_from_sublist.
Qed.

Lemma kept_head self c l kept :
  returns (_nms self (c :: l)) kept -> exists kept', kept = c :: kept'.
Proof.
  intros H. destruct (nms_run_spec self (c :: l)) as [U [E HU]].
  unfold returns in H. rewrite (nms_eq _ _ _ _ E) in H. inversion H.
  rewrite kept_from_cons.
  rewrite (bool_decide_eq_false_2 _ (zero_not_suppressed _ _ _ HU)). eauto.
Qed.

(** Where a match comes from. *)
Lemma match_origin self image reference path res m :
  returns (match_in_image self image reference path) res ->
  In m (matches res) ->
  exists i p,
    generate_proposals image !! i = Some p /\
    mask m = p_segmentation p /\
    predicted_iou m = p_predicted_iou p /\
    area m = p_area p /\
    returns (mask_to_bbox (mask m)) (bbox m) /\
    returns (compute_ffa_embedding patch_embeddings interpolate image (mask m))
            (embedding m) /\
    returns (cosine_similarity (embedding m) reference) (similarity m) /\
    similarity_threshold self <= similarity m.
Proof.
  intros H Hm. apply result_shape in H. destruct H as (_ & _ & [[_ H]|H]).
  - rewrite H in Hm. destruct Hm.
  - destruct H as (embs & sims & kept & _ & He & Hs & Hk & Hres).
    assert (Hin : In m (ranked_of self image embs sims)).
    { apply list_elem_of_In. eapply elem_of_sublist; [|eapply kept_sublist; exact Hk].
      eapply elem_of_sublist; [|apply (slice_stop_sublist kept (top_k self))].
      rewrite <- Hres. apply list_elem_of_In. exact Hm. }
    apply ranked_in in Hin. destruct Hin as (i & sim & p & Hsi & Hp & Hthr & ->).
    apply batch_single_iff in He.
    apply batch_cosine_similarity_Forall2 in Hs.
    destruct (Forall2_lookup_r _ _ _ _ _ Hs Hsi) as (emb & Hemb & Hdot).
    assert (Hmask : map p_segmentation (generate_proposals image) !! i =
                    Some (p_segmentation p)).
    { change (map p_segmentation (generate_proposals image)) with
        (p_segmentation <$> generate_proposals image).
      rewrite list_lookup_fmap, Hp. reflexivity. }
    destruct (Forall2_lookup_l _ _ _ _ _ He Hmask) as (emb' & Hemb' & Hpool).
    assert (emb' = emb) by congruence. subst emb'.
    exists i, p. unfold candidate_of. simpl. unfold vec in *. rewrite Hemb. simpl.
    split; [exact Hp|]. repeat split; try reflexivity.
    + unfold returns. rewrite bbox_of_eq. reflexivity.
    + exact Hpool.
    + exact Hdot.
    + exact Hthr.
Qed.

Lemma slice_stop_nil {A} (k : Z) : slice_stop (@nil A) k = [].
Proof. unfold slice_stop. destruct (k <? 0)%Z; apply firstn_nil. Qed.

Lemma matches_sorted self image reference path res :
  returns (match_in_image self image reference path) res ->
  StronglySorted desc (matches res).
Proof.
  intros H. apply result_shape in H. destruct H as (_ & _ & [[_ H]|H]).
  - rewrite H. constructor.
  - destruct H as (embs & sims & kept & _ & _ & _ & Hk & ->).
    eapply StronglySorted_sublist; [apply slice_stop_sublist|].
    eapply StronglySorted_sublist; [eapply kept_sublist; exact Hk|].
    apply sort_desc_sorted.
Qed.

(** X13.  Every match of a result stems from one proposal of the image: it
    carries that proposal's mask, score and area, the box of that mask, the
    descriptor pooled for that mask, its cosine similarity to the reference,
    and this similarity is at least the threshold. *)
Theorem matches_come_from_proposals (self : InstanceMatcher) (image : Image)
    (reference : vec) (path : string) (res : ImageMatchResults Image)
    (m : MatchResult) :
  returns (match_in_image self image reference path) res ->
  In m (matches res) ->
  exists i p,
    generate_proposals image !! i = Some p /\
    mask m = p_segmentation p /\
    predicted_iou m = p_predicted_iou p /\
    area m = p_area p /\
    returns (mask_to_bbox (mask m)) (bbox m) /\
    returns (compute_ffa_embedding patch_embeddings interpolate image (mask m))
            (embedding m) /\
    returns (cosine_similarity (embedding m) reference) (similarity m) /\
    similarity_threshold self <= similarity m.
Proof. apply match_origin. Qed.

Lemma ranked_nil self image embs sims :
  Forall (fun s => s < similarity_threshold self) sims ->
  ranked_of self image embs sims = [].
Proof.
  intros HF. destruct (ranked_of self image embs sims) as [|c l] eqn:E; [reflexivity|].
  assert (Hin : In c (ranked_of self image embs sims)) by (rewrite E; left; reflexivity).
  apply ranked_in in Hin. destruct Hin as (i & sim & p & Hs & _ & Hthr & _).
  rewrite Forall_forall in HF. specialize (HF sim).
  assert (sim < similarity_threshold self).
  { apply HF. eapply list_elem_of_lookup_2. exact Hs. }
  lra.
Qed.

(** X14.  An image without proposals gives an empty result; what is
    printed is the segmenter's line, reporting 0 proposals, and then the
    "no proposals" line, and the embedder is not called.  When no proposal
    reaches the similarity threshold the result is empty as well: no match,
    no best match, no error. *)
Theorem no_candidate_empty_result (self : InstanceMatcher) (image : Image)
    (reference : vec) (path : string) :
  (generate_proposals image = [] ->
   match_in_image self image reference path =
     ([MsgGenerated 0 (n_raw_masks image); MsgNoProposals path],
      Return {| image_path := path; image := image; matches := [] |})) /\
  (forall embs sims,
     returns (pool image (map p_segmentation (generate_proposals image))) embs ->
     returns (batch_cosine_similarity reference embs) sims ->
     Forall (fun s => s < similarity_threshold self) sims ->
     exists res,
       returns (match_in_image self image reference path) res /\
       matches res = [] /\ has_match res = false /\ best_match res = None).
Proof.
  split; [apply match_in_image_empty|].
  intros embs sims He Hs HF.
  assert (Hcase : generate_proposals image = [] \/ generate_proposals image <> []).
  { destruct (generate_proposals image); [left; reflexivity|right; discriminate]. }
  destruct Hcase as [Ep|Hne].
  - eexists. split; [unfold returns; rewrite match_in_image_empty by exact Ep;
                     reflexivity|]. auto.
  - eexists. split.
    + apply match_in_image_kept with (embs := embs) (sims := sims) (kept := []);
        [exact Hne|exact He|exact Hs|].
      rewrite ranked_nil by exact HF. reflexivity.
    + simpl. rewrite slice_stop_nil. auto.
Qed.

(** X15.  [best_match] is [None] exactly when [has_match] is false;
    otherwise no match of the result has a higher similarity; and when
    [top_k] is at least 1 it is at least as similar as every proposal that
    reaches the threshold, since the suppression never drops the
    best-ranked candidate. *)
Theorem best_match_is_top (self : InstanceMatcher) (image : Image)
    (reference : vec) (path : string) (res : ImageMatchResults Image) :
  returns (match_in_image self image reference path) res ->
  (best_match res = None <-> has_match res = false) /\
  (forall b m, best_match res = Some b -> In m (matches res) ->
               similarity m <= similarity b) /\
  ((1 <= top_k self)%Z ->
   forall embs sims i s,
     returns (pool image (map p_segmentation (generate_proposals image))) embs ->
     returns (batch_cosine_similarity reference embs) sims ->
     sims !! i = Some s -> (i < length (generate_proposals image))%nat ->
     similarity_threshold self <= s ->
     exists b, best_match res = Some b /\ s <= similarity b).
Proof.
  intros H. split; [|split].
  - unfold best_match, has_match. destruct (matches res); simpl; split;
      intros; try reflexivity; discriminate.
  - intros b m Hb Hm. pose proof (matches_sorted _ _ _ _ _ H) as Hs.
    unfold best_match in Hb. destruct (matches res) as [|c l]; [discriminate|].
    inversion Hb; subst. inversion Hs as [|? ? _ Hc]; subst.
    destruct Hm as [->|Hm]; [lra|].
    rewrite Forall_forall in Hc. apply Hc. apply list_elem_of_In. exact Hm.
  - intros Hk embs sims i s He Hs Hi Hlt Hthr.
    destruct (lookup_lt_is_Some_2 _ _ Hlt) as [p Hp].
    apply result_shape in H. destruct H as (_ & _ & [[Ep _]|H]).
    { rewrite Ep in Hp. rewrite lookup_nil in Hp. discriminate. }
    destruct H as (embs' & sims' & kept & _ & He' & Hs' & Hkept & Hres).
    assert (embs' = embs) by (eapply returns_inj; eauto). subst embs'.
    assert (sims' = sims) by (eapply returns_inj; eauto). subst sims'.
    assert (Hin : In (candidate_of embs (i, (s, p))) (ranked_of self image embs sims)).
    { apply ranked_in. exists i, s, p. auto. }
    pose proof (sort_desc_sorted
                  (retained (similarity_threshold self) embs
                     (enumerate (combine sims (generate_proposals image))))) as Hsorted.
    fold (ranked_of self image embs sims) in Hsorted.
    destruct (ranked_of self image embs sims) as [|c l] eqn:E; [destruct Hin|].
    destruct (kept_head _ _ _ _ Hkept) as [kept' ->].
    assert (Hm : matches res = c :: firstn (Z.to_nat (top_k self) - 1) kept').
    { rewrite Hres. unfold slice_stop.
      destruct (top_k self <? 0)%Z eqn:Ek; [apply Z.ltb_lt in Ek; lia|].
      destruct (Z.to_nat (top_k self)) as [|n] eqn:En; [lia|].
      simpl. rewrite Nat.sub_0_r. reflexivity. }
    exists c. unfold best_match. rewrite Hm. split; [reflexivity|].
    inversion Hsorted as [|? ? _ Hc]; subst.
    destruct Hin as [Heq|Hin]; [rewrite Heq; simpl; lra|].
    rewrite Forall_forall in Hc.
    apply list_elem_of_In in Hin. specialize (Hc _ Hin). unfold desc in Hc.
    simpl in Hc. exact Hc.
Qed.

(** X16.  Two matchers that differ only in a non-negative [top_k]: the
    result under the smaller [top_k] is the result under the larger one cut
    to its first [top_k] matches. *)
Theorem top_k_takes_prefix (self1 self2 : InstanceMatcher) (image : Image)
    (reference : vec) (path : string) (res1 res2 : ImageMatchResults Image) :
  similarity_threshold self1 = similarity_threshold self2 ->
  nms_iou_threshold self1 = nms_iou_threshold self2 ->
  (0 <= top_k self1 <= top_k self2)%Z ->
  returns (match_in_image self1 image reference path) res1 ->
  returns (match_in_image self2 image reference path) res2 ->
  matches res1 = firstn (Z.to_nat (top_k self1)) (matches res2).
Proof.
  intros Hs Hn Hk H1 H2.
  apply result_shape in H1, H2.
  destruct H1 as (_ & _ & [[Ep1 M1]|H1]); destruct H2 as (_ & _ & [[Ep2 M2]|H2]).
  - rewrite M1, M2, firstn_nil. reflexivity.
  - destruct H2 as (? & ? & ? & Hne & _). congruence.
  - destruct H1 as (? & ? & ? & Hne & _). congruence.
  - destruct H1 as (embs & sims & kept1 & _ & He & Hc & Hk1 & ->).
    destruct H2 as (embs' & sims' & kept2 & _ & He' & Hc' & Hk2 & ->).
    assert (embs' = embs) by (eapply returns_inj; eauto). subst embs'.
    assert (sims' = sims) by (eapply returns_inj; eauto). subst sims'.
    unfold ranked in Hk1, Hk2. rewrite Hs, (nms_threshold_only _ _ _ Hn) in Hk1.
    assert (kept1 = kept2) by (eapply returns_inj; eauto). subst kept2.
    unfold slice_stop.
    destruct (top_k self1 <? 0)%Z eqn:E1; [apply Z.ltb_lt in E1; lia|].
    destruct (top_k self2 <? 0)%Z eqn:E2; [apply Z.ltb_lt in E2; lia|].
    rewrite firstn_firstn. f_equal. lia.
Qed.

(** *** The run over all images *)

Lemma across_success_log self target_images reference rs :
  returns (match_across_images self target_images reference) rs ->
  exists l,
    match_across_images self target_images reference =
      (l ++ [MsgSummary (length (List.filter has_match rs)) (length rs)], Return rs).
Proof.
  unfold Matcher.match_across_images.
  destruct (for_each _ _ _) as [l [all|e]]; unfold returns; simpl.
  - intros H. inversion H; subst. exists l. reflexivity.
  - discriminate.
Qed.

Lemma across_all_return self target_images reference rs :
  returns (match_across_images self target_images reference) rs ->
  forall path image, In (path, image) target_images ->
    exists r, returns (match_in_image self image reference path) r.
Proof.
  intros H path image Hin.
  destruct (returns_or_raises (match_in_image self image reference path))
    as [Hr|Hr]; [exact Hr|].
  exfalso. eapply returns_not_raises; [exact H|].
  apply match_across_images_raises. exists path, image. auto.
Qed.

(** X18.  When [match_across_images] returns, its list holds, position by
    position, the result of [match_in_image] for each target image, carrying
    that image and its path; the last line printed is the summary, and its
    two numbers are the [total_matches] and [total_images] of a pipeline
    result built on the list, the latter being the number of target
    images. *)
Theorem match_across_images_results (self : InstanceMatcher)
    (target_images : list (string * Image)) (reference : vec)
    (rs : list (ImageMatchResults Image)) (pr : Pipeline.PipelineResult Image) :
  returns (match_across_images self target_images reference) rs ->
  Pipeline.image_results pr = rs ->
  Forall2 (fun item r =>
             image_path r = fst item /\ Matcher.image r = snd item /\
             returns (match_in_image self (snd item) reference (fst item)) r)
          target_images rs /\
  Pipeline.total_images pr = length target_images /\
  (Pipeline.total_matches pr <= Pipeline.total_images pr)%nat /\
  exists l,
    fst (match_across_images self target_images reference) =
      l ++ [MsgSummary (Pipeline.total_matches pr) (Pipeline.total_images pr)].
Proof.
  intros H Hpr.
  destruct (match_across_images_returns generate_proposals n_raw_masks patch_embeddings interpolate self target_images reference
              (across_all_return _ _ _ _ H)) as (rs' & Hrs' & HF).
  assert (rs' = rs) by (eapply returns_inj; eauto). subst rs'.
  unfold Pipeline.total_images, Pipeline.total_matches. rewrite Hpr.
  split; [|split; [|split]].
  - eapply Forall2_impl; [exact HF|]. intros [path image] r Hr. simpl in *.
    destruct (result_shape _ _ _ _ _ Hr) as (H1 & H2 & _). auto.
  - symmetry. eapply Forall2_length. exact HF.
  - apply filter_length_le.
  - destruct (across_success_log _ _ _ _ H) as [l E]. exists l. rewrite E. reflexivity.
Qed.

Lemma ranked_prefix self1 self2 image embs sims :
  similarity_threshold self1 <= similarity_threshold self2 ->
  ranked_of self2 image embs sims `prefix_of` ranked_of self1 image embs sims.
Proof.
  intros Ht. unfold ranked.
  rewrite (retained_filter _ _ _ _ Ht), <- sort_desc_filter.
  apply sorted_filter_prefix, sort_desc_sorted.
Qed.

(** X17.  Raising the similarity threshold, all else equal, never adds a
    match: the result at the higher threshold exists whenever the one at the
    lower threshold does, and its matches are the first matches, in order,
    of the result at the lower threshold. *)
Theorem raising_threshold_keeps_prefix (self1 self2 : InstanceMatcher)
    (image : Image) (reference : vec) (path : string)
    (res1 : ImageMatchResults Image) :
  similarity_threshold self1 <= similarity_threshold self2 ->
  nms_iou_threshold self1 = nms_iou_threshold self2 ->
  top_k self1 = top_k self2 ->
  returns (match_in_image self1 image reference path) res1 ->
  exists res2,
    returns (match_in_image self2 image reference path) res2 /\
    matches res2 `prefix_of` matches res1 /\
    (length (matches res2) <= length (matches res1))%nat.
Proof.
  intros Ht Hn Hk H1. apply result_shape in H1.
  destruct H1 as (_ & _ & [[Ep M1]|H1]).
  - eexists. split; [unfold returns; rewrite match_in_image_empty by exact Ep;
                     reflexivity|].
    simpl. split; [apply prefix_nil|lia].
  - destruct H1 as (embs & sims & kept1 & Hne & He & Hc & Hk1 & ->).
    destruct (nms_total self2 (ranked_of self2 image embs sims)) as [kept2 Hk2].
    assert (Hk2' : returns (_nms self2 (ranked_of self2 image embs sims)) kept2).
    { unfold returns. rewrite Hk2. reflexivity. }
    exists {| image_path := path; image := image;
              matches := slice_stop kept2 (top_k self2) |}.
    split; [apply match_in_image_kept with (embs := embs) (sims := sims); assumption|].
    simpl.
    assert (Hp : slice_stop kept2 (top_k self2) `prefix_of`
                 slice_stop kept1 (top_k self1)).
    { rewrite Hk. apply slice_stop_prefix.
      rewrite (nms_threshold_only _ _ _ Hn) in Hk1.
      eapply nms_prefix; [|exact Hk2'|exact Hk1].
      apply ranked_prefix. exact Ht. }
    split; [exact Hp|]. apply prefix_length. exact Hp.
Qed.

(** X23.  A call of [match_in_image] that returns prints exactly two
    lines.  The first is the segmenter's, with the number of proposals and
    of raw masks.  The second is the no-proposals line when the segmenter
    gave nothing, otherwise the counts line, whose three numbers are the
    number of proposals, a number of candidates that is at most that, and
    the number of matches of the result, which is at most the number of
    candidates. *)
Theorem match_in_image_prints_counts (self : InstanceMatcher) (image : Image)
    (reference : vec) (path : string) (res : ImageMatchResults Image) :
  returns (match_in_image self image reference path) res ->
  let generated :=
    MsgGenerated (length (generate_proposals image)) (n_raw_masks image) in
  (generate_proposals image = [] /\
   match_in_image self image reference path =
     ([generated; MsgNoProposals path], Return res)) \/
  (exists c,
     match_in_image self image reference path =
       ([generated;
         MsgCounts path (length (generate_proposals image)) c
                   (length (matches res))], Return res) /\
     (length (matches res) <= c)%nat /\
     (c <= length (generate_proposals image))%nat).
Proof.
  intros H generated. unfold generated. clear generated.
  assert (Hcase : generate_proposals image = [] \/ generate_proposals image <> []).
  { destruct (generate_proposals image); [left; reflexivity|right; discriminate]. }
  destruct Hcase as [Ep|Hne].
  - left. split; [exact Ep|].
    rewrite match_in_image_empty in * by exact Ep.
    unfold returns in H. simpl in H. inversion H. rewrite Ep. reflexivity.
  - right.
    destruct (match_in_image_steps _ _ _ _ _ _ _ _ _ Hne H) as (embs & sims & He & Hs).
    destruct (nms_total self (ranked_of self image embs sims)) as [kept Hk].
    assert (Hk' : returns (_nms self (ranked_of self image embs sims)) kept).
    { unfold returns. rewrite Hk. reflexivity. }
    pose proof (match_in_image_kept generate_proposals n_raw_masks patch_embeddings
                  interpolate self image reference path embs sims kept
                  Hne He Hs Hk') as Hr.
    pose proof (returns_inj _ _ _ H Hr) as ->. clear H Hr.
    exists (length (ranked_of self image embs sims)).
    assert (Hlen : length sims = length embs)
      by (apply batch_cosine_similarity_length in Hs; exact Hs).
    assert (Hembs : length embs = length (generate_proposals image)).
    { apply batch_single_iff in He. apply Forall2_length in He.
      rewrite length_map in He. symmetry. exact He. }
    split; [|split].
    + apply silent_returns in He.
      2:{ unfold compute_batch_ffa_embeddings.
          destruct (map p_segmentation (generate_proposals image));
            [reflexivity|].
          apply map_py_silent. intros x. apply pool_one_silent. }
      apply silent_returns in Hs.
      2:{ apply batch_cosine_similarity_silent. }
      unfold Matcher.match_in_image. rewrite segmenter_call_bind.
      destruct (generate_proposals image) as [|p ps] eqn:Ep; [congruence|].
      rewrite He, bind_ret_l. rewrite Hs, bind_ret_l.
      rewrite collect_loop.
      2:{ intros item Hi. apply enumerate_index in Hi. rewrite length_combine in Hi.
          lia. }
      rewrite bind_ret_l. simpl app.
      unfold ranked in Hk. rewrite Hk, bind_ret_l. reflexivity.
    + simpl. transitivity (length kept).
      * apply sublist_length, slice_stop_sublist.
      * apply sublist_length. eapply kept_sublist. exact Hk'.
    + unfold ranked. rewrite (Permutation_length (sort_desc_permutation _)).
      unfold retained. rewrite length_map.
      etransitivity; [apply List.filter_length_le|].
      unfold enumerate. rewrite length_combine, length_seq, length_combine. lia.
Qed.

End MatchingMore.

End MatcherMore.

(** ** Proposals and matches together *)

Module AreaFacts.
Import Geometry Embedder Matcher MatcherSpec MatcherFacts Segmenter MoreSpec.
Import SegmenterFacts MatcherMore.
Local Open Scope R_scope.

Section AreaFilter.
Context {Image : Type}.
Variable generate : Image -> list Proposal.
Variable shape : Image -> nat * nat.
Variable patch_embeddings : Image -> PatchGrid.
Variable interpolate : Mask -> nat -> nat -> option (list Q).
Variable config : AreaConfig.

(** The segmenter call of the matcher, with the list and the raw-mask count
    of [generate_proposals] behind it, prints and returns what
    [generate_proposals] does under the configured ratios. *)
Lemma segmenter_call_generate_proposals (image : Image) :
  auto_segmenter_generate_proposals
    (fun img => snd (generate_proposals generate shape config img None None))
    (fun img => length (generate img)) image =
  (fst (generate_proposals generate shape config image None None),
   Return (snd (generate_proposals generate shape config image None None))).
Proof. reflexivity. Qed.

(** X19.  With the proposals of [generate_proposals] (default ratios) behind
    the matcher, every match is a raw mask of the generator whose area lies
    between the configured minimum and maximum share of the image area. *)
Theorem matches_within_area_range (self : InstanceMatcher) (image : Image)
    (reference : vec) (path : string) (res : ImageMatchResults Image)
    (m : MatchResult) :
  returns (match_in_image
             (fun img => snd (generate_proposals generate shape config img None None))
             (fun img => length (generate img))
             patch_embeddings interpolate self image reference path) res ->
  In m (matches res) ->
  (exists p, In p (generate image) /\ mask m = p_segmentation p /\
             area m = p_area p) /\
  MIN_MASK_AREA_RATIO config * INR (image_area shape image) <= IZR (area m)
    <= MAX_MASK_AREA_RATIO config * INR (image_area shape image).
Proof.
  intros H Hm.
  destruct (match_origin _ _ _ _ _ _ _ _ _ _ H Hm) as (i & p & Hp & Hmask & _ & Ha & _).
  apply list_elem_of_lookup_2, list_elem_of_In in Hp.
  apply generate_proposals_in in Hp. destruct Hp as [Hraw Hrange].
  simpl in Hrange. rewrite Ha. split; [|exact Hrange].
  exists p. auto.
Qed.

End AreaFilter.

End AreaFacts.

(** ** The further properties on the example data *)

Module MoreRuns.
Import Segmenter.
Import Geometry GeometrySpec GeometryFacts Embedder EmbedderSpec EmbedderFacts.
Import Matcher MatcherSpec NmsFacts MatcherFacts Examples ExampleFacts ExampleRuns.
Import MoreSpec MoreExamples EmbedderMore SegmenterFacts MatcherMore AreaFacts.
Local Open Scope R_scope.

Lemma single_a :
  compute_ffa_embedding patch_embeddings resample 0%nat mask_a = ([], Return e1).
Proof.
  rewrite (compute_ffa_embedding_eq patch_embeddings resample 0%nat mask_a
             cov_a resample_a).
  change (patch_embeddings 0) with grid0. rewrite pooled_a. reflexivity.
Qed.

Lemma single_b :
  compute_ffa_embedding patch_embeddings resample 0%nat mask_b = ([], Return e2).
Proof.
  rewrite (compute_ffa_embedding_eq patch_embeddings resample 0%nat mask_b
             cov_b resample_b).
  change (patch_embeddings 0) with grid0. rewrite pooled_b. reflexivity.
Qed.

(** X8, witness: the descriptors of the first two masks of image 0. *)
Lemma pooled_similarity_range_witness :
  norm2 e1 <= 1 /\ norm2 e2 <= 1 /\ -1 <= dot e1 e2 <= 1.
Proof.
  apply (pooled_similarity_range patch_embeddings resample 0%nat 0%nat
           mask_a mask_b e1 e2 (dot e1 e2)).
  - unfold returns. rewrite single_a. reflexivity.
  - unfold returns. rewrite single_b. reflexivity.
  - unfold returns, cosine_similarity. rewrite np_dot_eq by reflexivity. reflexivity.
Defined.


Lemma raw_image0_sorted : StronglySorted by_iou_desc (generate_proposals 0%nat).
Proof.
  unfold generate_proposals.
  repeat (constructor; [|repeat (constructor; [unfold by_iou_desc; simpl; lra|])]);
    constructor.
Qed.

(** X12, witness: the three raw masks of image 0, all with predicted IoU 0.9. *)
Lemma generate_proposals_sorted_witness :
  sublist (filtered_proposals 0%nat) (generate_proposals 0%nat).
Proof.
  apply (proj2 (generate_proposals_sorted generate_proposals shape
                  default_area_config 0%nat None None)).
  exact raw_image0_sorted.
Defined.

Lemma filtered_image0 :
  filtered_proposals 0%nat = [proposal mask_a; proposal mask_b; proposal mask_c].
Proof.
  unfold filtered_proposals. rewrite generate_proposals_eq.
  assert (E : forall m, out_of_range
                (effective_ratio None (MIN_MASK_AREA_RATIO default_area_config) *
                 INR (image_area shape 0%nat))
                (effective_ratio None (MAX_MASK_AREA_RATIO default_area_config) *
                 INR (image_area shape 0%nat)) (proposal m) = false).
  { intros m. apply out_of_range_false. unfold image_area, shape. simpl. lra. }
  cbn [generate_proposals List.filter]. rewrite !E. cbn [negb].
  apply sort_by_iou_sorted_id. exact raw_image0_sorted.
Qed.

Lemma image0_result (self : InstanceMatcher) :
  similarity_threshold self = 65 / 100 ->
  nms_iou_threshold self = (1 # 2)%Q -> (1 <= top_k self)%Z ->
  returns (run_image self 0%nat reference "a")
    {| image_path := "a"; image := 0%nat; matches := [match_a] |}.
Proof.
  intros Hs Hn Hk. pose proof (image0_run self "a" Hs Hn) as H.
  replace (slice_stop [match_a] (top_k self)) with [match_a] in H; [exact H|].
  unfold slice_stop. destruct (top_k self <? 0)%Z eqn:E; [apply Z.ltb_lt in E; lia|].
  destruct (Z.to_nat (top_k self)) as [|[|n]] eqn:En; [lia|reflexivity|reflexivity].
Qed.

(** X13, witness: the match of image 0 under the default matcher. *)
Lemma matches_come_from_proposals_witness :
  exists i p,
    generate_proposals 0%nat !! i = Some p /\ mask match_a = p_segmentation p /\
    similarity_threshold default_matcher <= similarity match_a.
Proof.
  destruct (matches_come_from_proposals generate_proposals n_raw_masks patch_embeddings resample
              default_matcher 0%nat reference "a"%string
              {| image_path := "a"; image := 0%nat; matches := [match_a] |} match_a)
    as (i & p & H1 & H2 & _ & _ & _ & _ & _ & H8).
  - apply image0_result; [reflexivity|reflexivity|simpl; lia].
  - left. reflexivity.
  - exists i, p. auto.
Defined.

Lemma pool_image0 :
  returns (compute_batch_ffa_embeddings patch_embeddings resample 0%nat
             (map p_segmentation (generate_proposals 0%nat))) [e1; e2; e3].
Proof. unfold returns. cbn [generate_proposals map]. simpl p_segmentation.
  rewrite batch_image0. reflexivity. Qed.

Lemma cos_image0 :
  returns (batch_cosine_similarity reference [e1; e2; e3])
          [9 / 10; 72 / 100; 3 / 10].
Proof. unfold returns. rewrite sims_image0. reflexivity. Qed.

(** X6, witness: the three descriptors of image 0 against the reference. *)
Lemma batch_similarities_in_range_witness :
  length [9 / 10; 72 / 100; 3 / 10] = length [mask_a; mask_b; mask_c] /\
  Forall (fun s => -1 <= s <= 1) [9 / 10; 72 / 100; 3 / 10].
Proof.
  apply (batch_similarities_in_range patch_embeddings resample 0%nat
           [mask_a; mask_b; mask_c] [e1; e2; e3] reference).
  - exact pool_image0.
  - unfold norm2, sum_sq, reference. simpl.
    replace (1 * 1 + (0 * 0 + (0 * 0 + (0 * 0 + 0)))) with 1 by lra.
    rewrite sqrt_1. lra.
  - exact cos_image0.
Defined.

(** X14, witness: image 7 has no proposals; on image 0 no proposal reaches
    the threshold 0.95. *)
Lemma no_candidate_empty_result_witness :
  run_image default_matcher 7%nat reference "a" =
    ([MsgGenerated 0 0; MsgNoProposals "a"],
     Return {| image_path := "a"; image := 7%nat; matches := [] |}) /\
  exists res, returns (run_image very_strict_matcher 0%nat reference "a") res /\
              matches res = [].
Proof.
  split.
  - apply (proj1 (no_candidate_empty_result generate_proposals n_raw_masks patch_embeddings
                    resample default_matcher 7%nat reference "a"%string)).
    reflexivity.
  - destruct (proj2 (no_candidate_empty_result generate_proposals n_raw_masks patch_embeddings
                       resample very_strict_matcher 0%nat reference "a"%string)
                [e1; e2; e3] [9 / 10; 72 / 100; 3 / 10] pool_image0 cos_image0)
      as (res & H1 & H2 & _).
    + repeat constructor; simpl; lra.
    + exists res. auto.
Defined.

(** X15, witness: image 0 under the default matcher; its best match is the
    first proposal, at least as similar as the second one (0.72). *)
Lemma best_match_is_top_witness :
  exists b,
    best_match {| image_path := "a"%string; image := 0%nat; matches := [match_a] |}
      = Some b /\ 72 / 100 <= similarity b.
Proof.
  apply (proj2 (proj2 (best_match_is_top generate_proposals n_raw_masks patch_embeddings resample
                         default_matcher 0%nat reference "a"%string _
                         (image0_result default_matcher eq_refl eq_refl
                            ltac:(simpl; lia))))
           ltac:(simpl; lia) [e1; e2; e3] [9 / 10; 72 / 100; 3 / 10] 1%nat (72 / 100)
           pool_image0 cos_image0 eq_refl).
  - simpl. lia.
  - simpl. lra.
Defined.

(** X16, witness: image 0 with [top_k] 3 and 5. *)
Lemma top_k_takes_prefix_witness :
  [match_a] = firstn (Z.to_nat (top_k default_matcher)) [match_a].
Proof.
  apply (top_k_takes_prefix generate_proposals n_raw_masks patch_embeddings resample
           default_matcher wide_matcher 0%nat reference "a"%string
           {| image_path := "a"; image := 0%nat; matches := [match_a] |}
           {| image_path := "a"; image := 0%nat; matches := [match_a] |}).
  - reflexivity.
  - reflexivity.
  - simpl. lia.
  - apply image0_result; [reflexivity|reflexivity|simpl; lia].
  - apply image0_result; [reflexivity|reflexivity|simpl; lia].
Defined.

(** X17, witness: image 0 at thresholds 0.65 and 0.8. *)
Lemma raising_threshold_keeps_prefix_witness :
  exists res2,
    returns (run_image strict_matcher 0%nat reference "a") res2 /\
    matches res2 `prefix_of` [match_a].
Proof.
  destruct (raising_threshold_keeps_prefix generate_proposals n_raw_masks patch_embeddings
              resample default_matcher strict_matcher 0%nat reference "a"%string
              {| image_path := "a"; image := 0%nat; matches := [match_a] |})
    as (res2 & H1 & H2 & _).
  - simpl. lra.
  - reflexivity.
  - reflexivity.
  - apply image0_result; [reflexivity|reflexivity|simpl; lia].
  - exists res2. auto.
Defined.

Lemma run_images_one :
  exists rs, returns (run_images default_matcher [("a"%string, 0%nat)] reference) rs.
Proof.
  destruct (match_across_images_returns generate_proposals n_raw_masks patch_embeddings resample
              default_matcher [("a"%string, 0%nat)] reference) as (rs & H & _).
  - intros path image [H|[]]. inversion H; subst. eexists.
    apply image0_result; [reflexivity|reflexivity|simpl; lia].
  - exists rs. exact H.
Qed.

(** X18, witness: a run over image 0 alone. *)
Lemma match_across_images_results_witness :
  exists rs,
    returns (run_images default_matcher [("a"%string, 0%nat)] reference) rs /\
    length rs = 1%nat.
Proof.
  destruct run_images_one as [rs H]. exists rs. split; [exact H|].
  destruct (match_across_images_results generate_proposals n_raw_masks patch_embeddings resample
              default_matcher [("a"%string, 0%nat)] reference rs
              {| Pipeline.reference_image_path := "r"; Pipeline.reference_mask := mask_a;
                 Pipeline.reference_embedding := e1; Pipeline.reference_bbox := box_a;
                 Pipeline.image_results := rs |} H eq_refl) as (_ & H2 & _).
  exact H2.
Defined.

Lemma filtered_image0_result :
  returns (match_in_image filtered_proposals n_raw_masks patch_embeddings resample
             default_matcher 0%nat reference "a")
    {| image_path := "a"; image := 0%nat;
       matches := slice_stop [match_a] (top_k default_matcher) |}.
Proof.
  apply (three_proposals_run filtered_proposals n_raw_masks patch_embeddings resample
           default_matcher 0%nat reference "a"%string (proposal mask_a)
           (proposal mask_b) (proposal mask_c) [e1; e2; e3] box_a box_b (4 # 5)%Q
           eq_refl eq_refl filtered_image0).
  - unfold returns. simpl p_segmentation. rewrite batch_image0. reflexivity.
  - exact cos_image0.
  - reflexivity.
  - reflexivity.
  - reflexivity.
  - reflexivity.
Qed.

(** X19, witness: image 0 (10 pixels) with its proposals passed through
    [generate_proposals]; the match has area 2. *)
Lemma matches_within_area_range_witness :
  MIN_MASK_AREA_RATIO default_area_config * INR (image_area shape 0%nat)
    <= IZR (area match_a)
    <= MAX_MASK_AREA_RATIO default_area_config * INR (image_area shape 0%nat).
Proof.
  apply (matches_within_area_range generate_proposals shape patch_embeddings resample
           default_area_config default_matcher 0%nat reference "a"%string
           {| image_path := "a"; image := 0%nat;
              matches := slice_stop [match_a] (top_k default_matcher) |} match_a).
  - exact filtered_image0_result.
  - left. reflexivity.
Defined.

(** X23, witness: image 0 under the default matcher; three proposals, one
    match. *)
Lemma match_in_image_prints_counts_witness :
  exists c,
    run_image default_matcher 0%nat reference "a" =
      ([MsgGenerated 3 3; MsgCounts "a" 3 c 1],
       Return {| image_path := "a"; image := 0%nat; matches := [match_a] |}) /\
    (1 <= c)%nat /\ (c <= 3)%nat.
Proof.
  destruct (match_in_image_prints_counts generate_proposals n_raw_masks
              patch_embeddings resample default_matcher 0%nat reference "a"%string
              {| image_path := "a"; image := 0%nat; matches := [match_a] |})
    as [[H _]|(c & H1 & H2 & H3)].
  - apply image0_result; [reflexivity|reflexivity|simpl; lia].
  - discriminate H.
  - exists c. split; [exact H1|]. split; [exact H2|exact H3].
Defined.

End MoreRuns.
